(** * xQR backend: bounded stores, rate limiting, anti-forgery tokens,
      the shared rendering process and the screenshot route.

    A shallow embedding of the server code (the Hono backend of xQR) and the
    properties of its resource-lifecycle and caching engine.

    Conventions.
    - Times are epoch milliseconds ([Date.now()]), modelled as [Z].
    - A JavaScript [Map] is an association list in insertion order: the
      first pair is the oldest inserted key, which is what
      [this.keys().next().value] returns.
    - [undefined]/[null] results are [None].
    - External effects (the database driver, Playwright) answer through an
      explicit record of outcomes; exceptions are an explicit result. *)

From stdpp Require Import gmap strings list sorting pretty.
From Stdlib Require Import ZArith QArith Lia Ascii.

#[local] Set Warnings "-abstract-large-number".

Local Open Scope Z_scope.

(** * class LRUMap extends Map *)

Module LRUMap.
Section LRUMap.
Context {K V : Type} `{EqDecision K}.

(** The entries of the underlying [Map], in insertion order, and the
    [maxSize] field set by the constructor. *)
Record t := mk { maxSize : nat; entries : list (K * V) }.

Definition empty (n : nat) : t := mk n [].

Definition keys (m : t) : list K := (entries m).*1.
Definition size (m : t) : nat := length (entries m).

(** ** The inherited [Map] methods *)

(** [Map.prototype.get] *)
Fixpoint Map_get (k : K) (es : list (K * V)) : option V :=
  match es with
  | [] => None
  | (k', v) :: r => if decide (k' = k) then Some v else Map_get k r
  end.

(** [Map.prototype.has] *)
Definition Map_has (k : K) (es : list (K * V)) : bool :=
  match Map_get k es with Some _ => true | None => false end.

(** [Map.prototype.delete] *)
Definition Map_delete (k : K) (es : list (K * V)) : list (K * V) :=
  filter (λ p, p.1 ≠ k) es.

(** [Map.prototype.set]: an existing key keeps its position, a new key is
    appended. *)
Fixpoint Map_set (k : K) (v : V) (es : list (K * V)) : list (K * V) :=
  match es with
  | [] => [(k, v)]
  | (k', v') :: r =>
      if decide (k' = k) then (k, v) :: r else (k', v') :: Map_set k v r
  end.

(** ** The overriding methods *)

(** [this.keys().next().value] followed by [this.delete(firstKey)] *)
Definition evict_first (es : list (K * V)) : list (K * V) :=
  match es with
  | [] => []
  | (k0, _) :: _ => Map_delete k0 es
  end.

(** [set(key, value)] *)
Definition set (k : K) (v : V) (m : t) : t :=
  let es1 := if Map_has k (entries m) then Map_delete k (entries m)
             else entries m in
  let es2 := Map_set k v es1 in
  let es3 := if decide (maxSize m < length es2)%nat then evict_first es2
             else es2 in
  mk (maxSize m) es3.

(** [get(key)]: the returned value and the map after the call *)
Definition get (k : K) (m : t) : option V * t :=
  if Map_has k (entries m) then
    match Map_get k (entries m) with
    | Some v =>
        (Some v, mk (maxSize m) (Map_set k v (Map_delete k (entries m))))
    | None => (None, m)
    end
  else (None, m).

(** [has(key)] and [delete(key)] are inherited unchanged. *)
Definition has (k : K) (m : t) : bool := Map_has k (entries m).
Definition delete (k : K) (m : t) : t :=
  mk (maxSize m) (Map_delete k (entries m)).

(** Reading without the recency side effect (used in statements only). *)
Definition peek (k : K) (m : t) : option V := Map_get k (entries m).

(** ** Operation sequences and recency of access *)

Inductive op := OpGet (k : K) | OpSet (k : K) (v : V).

Definition op_key (o : op) : K :=
  match o with OpGet k => k | OpSet k _ => k end.

Definition apply_op (m : t) (o : op) : t :=
  match o with
  | OpGet k => (get k m).2
  | OpSet k v => set k v m
  end.

(** The map reached from [new LRUMap(n)] by a sequence of calls. *)
Definition run (n : nat) (ops : list op) : t := foldl apply_op (empty n) ops.

(** [last_access_from i ops k acc]: the position, counted from 1, of the
    last operation of [ops] that names [k], where the first operation of
    [ops] has position [i + 1]; [acc] when there is none. *)
Fixpoint last_access_from (i : nat) (ops : list op) (k : K) (acc : nat)
  : nat :=
  match ops with
  | [] => acc
  | o :: r =>
      last_access_from (S i) r k (if decide (op_key o = k) then S i else acc)
  end.

(** Time of the last access to [k] in [ops]; [0] when never accessed. *)
Definition last_access (ops : list op) (k : K) : nat :=
  last_access_from 0 ops k 0.

(** Keys are unique, as in every [Map]. *)
Definition wf (m : t) : Prop := NoDup (keys m).

(** The entry list with [k] moved to the most recent position. *)
Definition touched (k : K) (v : V) (es : list (K * V)) : list (K * V) :=
  Map_delete k es ++ [(k, v)].

(** The keys are in the order of their last access. *)
Definition recency_sorted (ops : list op) (ks : list K) : Prop :=
  StronglySorted (λ a b, last_access ops a < last_access ops b)%nat ks.

End LRUMap.
Arguments t : clear implicits.
Arguments op : clear implicits.
End LRUMap.

(** * The JavaScript runtime primitives the routes rely on

    Strings are sequences of Latin-1 characters (code points 0..255).
    Numbers are IEEE-754 doubles: [NaN], the two infinities, and the finite
    values, each denoted by the rational it stands for. *)

Module JS.

(** ** Truthiness and [||] on an optional string *)

Definition truthy (o : option string) : bool :=
  match o with
  | None => false
  | Some s => negb (bool_decide (s = ""))
  end.

(** [a || d] for a possibly [undefined] string [a] *)
Definition or_default (o : option string) (d : string) : string :=
  match o with
  | Some s => if bool_decide (s = "") then d else s
  | None => d
  end.

(** ** Characters *)

Definition code (c : ascii) : Z := Z.of_N (Ascii.N_of_ascii c).
Definition chr (z : Z) : ascii := Ascii.ascii_of_N (Z.to_N z).

(** WhiteSpace and LineTerminator code points below 256: TAB, LF, VT, FF,
    CR, SP, NBSP. *)
Definition is_whitespace (c : ascii) : bool :=
  bool_decide (code c ∈ [9; 10; 11; 12; 13; 32; 160]).

Definition is_digit (c : ascii) : bool :=
  (48 <=? code c) && (code c <=? 57).

Definition digit_value (c : ascii) : Z := code c - 48.

Definition hex_value (c : ascii) : option Z :=
  let n := code c in
  if (48 <=? n) && (n <=? 57) then Some (n - 48)
  else if (65 <=? n) && (n <=? 70) then Some (n - 55)
  else if (97 <=? n) && (n <=? 102) then Some (n - 87)
  else None.

(** [[a-zA-Z0-9_]] *)
Definition is_word_char (c : ascii) : bool :=
  let n := code c in
  ((97 <=? n) && (n <=? 122)) || ((65 <=? n) && (n <=? 90))
  || ((48 <=? n) && (n <=? 57)) || (n =? 95).

Definition lower_char (c : ascii) : ascii :=
  let n := code c in
  if ((65 <=? n) && (n <=? 90))
     || ((192 <=? n) && (n <=? 222) && negb (n =? 215))
  then chr (n + 32) else c.

(** ** String methods *)

Definition chars (s : string) : list ascii := String.list_ascii_of_string s.
Definition str (l : list ascii) : string := String.string_of_list_ascii l.

Fixpoint drop_while {A} (p : A → bool) (l : list A) : list A :=
  match l with
  | [] => []
  | x :: r => if p x then drop_while p r else l
  end.

Fixpoint take_while {A} (p : A → bool) (l : list A) : list A :=
  match l with
  | [] => []
  | x :: r => if p x then x :: take_while p r else []
  end.

(** [s.toLowerCase()] *)
Definition toLowerCase (s : string) : string :=
  str (lower_char <$> chars s).

(** [s.trim()] *)
Definition trim (s : string) : string :=
  str (reverse (drop_while is_whitespace
                  (reverse (drop_while is_whitespace (chars s))))).

(** [s.replace(/^@/, '')] *)
Definition strip_at (s : string) : string :=
  match s with
  | String "@" r => r
  | _ => s
  end.

(** [/^[a-zA-Z0-9_]{1,15}$/.test(s)] *)
Definition is_handle (s : string) : bool :=
  let l := chars s in
  bool_decide (1 ≤ length l ≤ 15)%nat && forallb is_word_char l.

(** ** Numbers *)

Inductive number :=
| NaN
| Inf (negative : bool)
| Fin (q : Q).

Definition of_Z (z : Z) : number := Fin (inject_Z z).

Definition isNaN (x : number) : bool :=
  match x with NaN => true | _ => false end.

Definition Qlt_bool (x y : Q) : bool := negb (Qle_bool y x).

(** [a < b]; false as soon as one side is [NaN] *)
Definition lt (a b : number) : bool :=
  match a, b with
  | NaN, _ | _, NaN => false
  | Inf true, Inf true => false
  | Inf true, _ => true
  | _, Inf true => false
  | Inf false, _ => false
  | Fin _, Inf false => true
  | Fin x, Fin y => Qlt_bool x y
  end.

(** [a > b] *)
Definition gt (a b : number) : bool := lt b a.

(** ** Rounding a rational to the nearest double (ties to even) *)

Definition round_half_even (n d : Z) : Z :=
  let f := n / d in
  let r := n mod d in
  if 2 * r <? d then f
  else if d <? 2 * r then f + 1
  else if Z.even f then f else f + 1.

(** [n/d * 2^e] as a fraction *)
Definition mul_pow2 (n d e : Z) : Z * Z :=
  if 0 <=? e then (n * 2 ^ e, d) else (n, d * 2 ^ (- e)).

(** [floor (log2 (n/d))] for positive [n], [d] *)
Definition binade (n d : Z) : Z :=
  let e0 := Z.log2 n - Z.log2 d in
  let '(a, b) := mul_pow2 n d (- e0) in
  if b <=? a then e0 else e0 - 1.

(** The double nearest to [n/d], for positive [n], [d] *)
Definition round64_pos (negative : bool) (n d : Z) : number :=
  let u := Z.max (binade n d) (-1022) - 52 in
  let '(a, b) := mul_pow2 n d (- u) in
  let m := round_half_even a b in
  let '(vn, vd) := mul_pow2 m 1 u in
  if 2 ^ 1024 * vd <=? vn then Inf negative
  else Fin (Qred (Qmake (if negative then - vn else vn) (Z.to_pos vd))).

Definition round64 (n d : Z) : number :=
  if (n =? 0) || (d <=? 0) then Fin 0
  else if 0 <? n then round64_pos false n d
  else round64_pos true (- n) d.

(** ** [parseInt(s)] (radix undefined) *)

Fixpoint digits_value (radix : Z) (acc : Z) (l : list Z) : Z :=
  match l with
  | [] => acc
  | d :: r => digits_value radix (acc * radix + d) r
  end.

Fixpoint take_hex (l : list ascii) : list Z :=
  match l with
  | [] => []
  | c :: r => match hex_value c with
              | Some v => v :: take_hex r
              | None => []
              end
  end.

Definition take_dec (l : list ascii) : list Z :=
  digit_value <$> take_while is_digit l.

(** Leading sign: whether it is ["-"], and the rest *)
Definition split_sign (l : list ascii) : bool * list ascii :=
  match l with
  | "-"%char :: r => (true, r)
  | "+"%char :: r => (false, r)
  | _ => (false, l)
  end.

Definition parseInt (s : string) : number :=
  let '(neg, l) := split_sign (drop_while is_whitespace (chars s)) in
  let '(radix, ds) :=
    match l with
    | "0"%char :: "x"%char :: r | "0"%char :: "X"%char :: r =>
        (16, take_hex r)
    | _ => (10, take_dec l)
    end in
  match ds with
  | [] => NaN
  | _ => let v := digits_value radix 0 ds in
         round64 (if neg then - v else v) 1
  end.

(** ** [parseFloat(s)] *)

Definition is_prefix_chars (p l : list ascii) : bool :=
  bool_decide (take (length p) l = p).

(** The optional exponent part [e|E [+|-] digits] at the head of [l] *)
Definition exponent_part (l : list ascii) : Z :=
  match l with
  | c :: r =>
      if bool_decide (c = "e"%char ∨ c = "E"%char) then
        let '(neg, r') := split_sign r in
        match take_dec r' with
        | [] => 0
        | ds => let v := digits_value 10 0 ds in if neg then - v else v
        end
      else 0
  | [] => 0
  end.

Definition parseFloat (s : string) : number :=
  let '(neg, l) := split_sign (drop_while is_whitespace (chars s)) in
  if is_prefix_chars (chars "Infinity") l then Inf neg
  else
    let ip := take_while is_digit l in
    let l1 := drop (length ip) l in
    let '(fp, l2) :=
      match l1 with
      | "."%char :: r =>
          let fp := take_while is_digit r in
          (* a lone "." is not part of the literal *)
          match ip, fp with
          | [], [] => ([], l1)
          | _, _ => (fp, drop (length fp) r)
          end
      | _ => ([], l1)
      end in
    match ip, fp with
    | [], [] => NaN
    | _, _ =>
        let mant := digits_value 10 0 (digit_value <$> (ip ++ fp)) in
        let e10 := exponent_part l2 - Z.of_nat (length fp) in
        let '(n, d) :=
          if 0 <=? e10 then (mant * 10 ^ e10, 1) else (mant, 10 ^ (- e10)) in
        round64 (if neg then - n else n) d
    end.

(** ** Number to string, as used by template literals *)

(** The [n] with [10^(n-1) <= a/b < 10^n], searched upwards from a lower
    estimate. *)
Fixpoint dec_exp_from (fuel : nat) (a b n : Z) : Z :=
  match fuel with
  | O => n
  | S f =>
      let '(x, y) :=
        if 0 <=? n then (a, b * 10 ^ n) else (a * 10 ^ (- n), b) in
      if x <? y then n else dec_exp_from f a b (n + 1)
  end.

Definition dec_exp (a b : Z) : Z :=
  dec_exp_from 8 a b (binade a b * 30103 / 100000 - 1).

(** [s * 10^e] as a fraction *)
Definition mul_pow10 (s e : Z) : Z * Z :=
  if 0 <=? e then (s * 10 ^ e, 1) else (s, 10 ^ (- e)).

Definition same_number (x y : number) : bool :=
  match x, y with
  | Fin p, Fin q => Qeq_bool p q
  | Inf a, Inf b => bool_decide (a = b)
  | _, _ => false
  end.

(** The candidates with [k] significant digits around [a/b]: the digit
    integer [s] and the decimal exponent [n], the nearer one first. *)
Definition candidates (a b n k : Z) : list (Z * Z) :=
  let '(x, y) :=
    if 0 <=? k - n then (a * 10 ^ (k - n), b) else (a, b * 10 ^ (n - k)) in
  let lo := x / y in
  let r := x mod y in
  let norm := λ s, if s =? 10 ^ k then (10 ^ (k - 1), n + 1) else (s, n) in
  if 2 * r <? y then [norm lo; norm (lo + 1)]
  else if y <? 2 * r then [norm (lo + 1); norm lo]
  else if Z.even lo then [norm lo; norm (lo + 1)]
  else [norm (lo + 1); norm lo].

(** Shortest digit string that reads back as the same double. *)
Fixpoint shortest (fuel : nat) (a b n k : Z) : Z * Z * Z :=
  match fuel with
  | O => (a, 0, 1)
  | S f =>
      let ok := λ c : Z * Z,
        let '(vn, vd) := mul_pow10 c.1 (c.2 - k) in
        same_number (round64 vn vd) (Fin (Qmake a (Z.to_pos b))) in
      match List.filter ok (candidates a b n k) with
      | (s, n') :: _ => (s, n', k)
      | [] => shortest f a b n (k + 1)
      end
  end.

Definition zeros (n : Z) : string := str (replicate (Z.to_nat n) "0"%char).

Definition format_digits (s n k : Z) : string :=
  let ds := chars (pretty s) in
  if (k <=? n) && (n <=? 21) then str ds +:+ zeros (n - k)
  else if (0 <? n) && (n <=? 21) then
    str (take (Z.to_nat n) ds) +:+ "." +:+ str (drop (Z.to_nat n) ds)
  else if (-6 <? n) && (n <=? 0) then "0." +:+ zeros (- n) +:+ str ds
  else
    let e := n - 1 in
    let es := (if 0 <=? e then "+" else "-") +:+ pretty (Z.abs e) in
    if k =? 1 then str ds +:+ "e" +:+ es
    else str (take 1 ds) +:+ "." +:+ str (drop 1 ds) +:+ "e" +:+ es.

(** [String(x)] / [`${x}`] *)
Definition numToString (x : number) : string :=
  match x with
  | NaN => "NaN"
  | Inf false => "Infinity"
  | Inf true => "-Infinity"
  | Fin q =>
      let a := Z.abs (Qnum q) in
      let b := Z.pos (Qden q) in
      if a =? 0 then "0"
      else
        let '(s, n, k) := shortest 18 a b (dec_exp a b) 1 in
        (if Qnum q <? 0 then "-" else "") +:+ format_digits s n k
  end.

End JS.

(** * Rate limiting: [rateLimitStore], [rateLimiter], the hourly sweep *)

Module RateLimit.

(** [const rateLimitStore = new LRUMap(10000)]: per client key, the list
    of recorded timestamps. One store serves every limiter. *)
Abbreviation store := (LRUMap.t string (list Z)).

Definition rateLimitStore : store := LRUMap.empty 10000.

(** What a limiter does with the request. *)
Inductive outcome :=
| Next                               (* [await next()] / falls through *)
| TooManyRequests (retryAfter : Z)   (* 429 *)
| Threw.                             (* a TypeError escaped *)

(** [Math.ceil(x / d)] on integers, [d > 0] *)
Definition ceil_div (x d : Z) : Z := - ((- x) / d).

(** [c.req.header('x-forwarded-for') || 'unknown'] *)
Definition client_key (xff : option string) : string :=
  JS.or_default xff "unknown".

(** [time => time > windowStart] *)
Definition within (windowStart : Z) (requests : list Z) : list Z :=
  filter (λ time, windowStart < time) requests.

(** [if (!rateLimitStore.has(key)) rateLimitStore.set(key, [])] *)
Definition ensure_key (key : string) (st : store) : store :=
  if LRUMap.has key st then st else LRUMap.set key [] st.

(** [rateLimiter(maxRequests, windowMs, routeName)], applied to a request
    carrying the header [xff] at time [now]. *)
Definition rateLimiter (maxRequests windowMs : Z)
    (xff : option string) (now : Z) (st : store) : outcome * store :=
  let key := client_key xff in
  let windowStart := now - windowMs in
  let st1 := ensure_key key st in
  match LRUMap.get key st1 with
  | (None, st2) => (Threw, st2)
  | (Some requests, st2) =>
      let validRequests := within windowStart requests in
      if decide (maxRequests ≤ Z.of_nat (length validRequests)) then
        (TooManyRequests (ceil_div (windowStart + windowMs - now) 1000), st2)
      else
        (Next, LRUMap.set key (validRequests ++ [now]) st2)
  end.

Definition authLimiter := rateLimiter 10 (15 * 60 * 1000).
Definition globalLimiter := rateLimiter 300 (15 * 60 * 1000).

(** The limiter written inline in [app.get("/user/:username")]:
    [windowMs = 24h], [maxRequests = 3]. *)
Definition profile_windowMs : Z := 24 * 60 * 60 * 1000.
Definition profile_maxRequests : Z := 3.

Definition profileLimiter (xff : option string) (now : Z) (st : store)
  : outcome * store :=
  let ip := client_key xff in
  let st1 := ensure_key ip st in
  match LRUMap.get ip st1 with
  | (None, st2) => (Threw, st2)
  | (Some stored, st2) =>
      let requests := within (now - profile_windowMs) stored in
      if decide (profile_maxRequests ≤ Z.of_nat (length requests)) then
        (TooManyRequests
           (ceil_div (default 0 (head requests) + profile_windowMs - now)
              1000), st2)
      else
        (Next, LRUMap.set ip (requests ++ [now]) st2)
  end.

(** ** The hourly sweep *)

Definition maxWindow : Z := 15 * 60 * 1000.

(** [for (const [ip, requests] of rateLimitStore.entries())] walks the live
    map: an entry re-inserted by [set] during the walk sits at the end and
    is visited again. [pos] is the number of entries that lie before the
    iterator. The entry handed out is the one at index [pos]; [delete]
    removes it, so the iterator is again at [pos]; the eviction inside
    [set] removes the first entry, which shifts the iterator when that entry
    lies before it; as the key handed out is in the map, [set] evicts
    exactly when the map already holds more than [maxSize] entries.
    [None]: the walk has not ended within [fuel] iterations. *)
Fixpoint sweep_loop (fuel : nat) (now : Z) (pos : nat) (st : store)
  : option store :=
  match fuel with
  | O => None
  | S fuel' =>
      match LRUMap.entries st !! pos with
      | None => Some st
      | Some (ip, requests) =>
          let validRequests := within (now - maxWindow) requests in
          if decide (length validRequests = 0%nat) then
            sweep_loop fuel' now pos (LRUMap.delete ip st)
          else
            let evicts :=
              bool_decide (LRUMap.maxSize st < LRUMap.size st)%nat in
            sweep_loop fuel' now (if evicts then pred pos else pos)
              (LRUMap.set ip validRequests st)
      end
  end.

Definition sweep (fuel : nat) (now : Z) (st : store) : option store :=
  sweep_loop fuel now 0 st.

(** Successive calls of one limiter by one client, at the given times. *)
Fixpoint calls (maxRequests windowMs : Z) (xff : option string)
    (times : list Z) (st : store) : list outcome * store :=
  match times with
  | [] => ([], st)
  | now :: later =>
      let '(o, st1) := rateLimiter maxRequests windowMs xff now st in
      let '(os, st2) := calls maxRequests windowMs xff later st1 in
      (o :: os, st2)
  end.

(** The timestamps held for a client key (no recency side effect). *)
Definition timestamps (key : string) (st : store) : list Z :=
  default [] (LRUMap.peek key st).

(** Some client key holds an event newer than [now - maxWindow]. *)
Definition holds_fresh (now : Z) (st : store) : Prop :=
  ∃ key ts, LRUMap.peek key st = Some ts ∧ within (now - maxWindow) ts ≠ [].

(** The sliding window in the words of the specification: a call
    discards the timestamps older than [now - W] and is allowed exactly
    when fewer than [L] remain. *)
Definition spec_remaining (W now : Z) (ts : list Z) : list Z :=
  filter (λ time, ¬ time < now - W) ts.

Definition spec_allowed (L W now : Z) (ts : list Z) : Prop :=
  Z.of_nat (length (spec_remaining W now ts)) < L.

End RateLimit.

(** * Anti-forgery tokens: [csrfTokenStore], [csrfProtection] *)

Module Csrf.

(** [{ token, timestamp }] *)
Record entry := mk_entry { token : string; timestamp : Z }.

(** [const csrfTokenStore = new LRUMap(5000)] *)
Abbreviation store := (LRUMap.t string entry).

Definition csrfTokenStore : store := LRUMap.empty 5000.

Definition CSRF_TOKEN_EXPIRY : Z := 24 * 60 * 60 * 1000.

Inductive outcome :=
| Next                        (* [await next()] *)
| Forbidden (error : string). (* 403 *)

(** [csrfTokenStore.set(id, { token: csrfToken, timestamp: Date.now() })]
    as done by /signup and /signin, for the token [tok] drawn by
    [generateCSRFToken()]. *)
Definition issue (userID tok : string) (now : Z) (st : store) : store :=
  LRUMap.set userID (mk_entry tok now) st.

(** [csrfProtection(c, next)] with [csrfToken] the [x-csrf-token] header
    and [userID] the value set by the authentication middleware. *)
Definition csrfProtection (csrfToken userID : option string) (now : Z)
    (st : store) : outcome * store :=
  if negb (JS.truthy csrfToken) || negb (JS.truthy userID) then
    (Forbidden "Invalid CSRF token", st)
  else
    let uid := default "" userID in
    match LRUMap.get uid st with
    | (None, st1) => (Forbidden "Invalid CSRF token", st1)
    | (Some storedData, st1) =>
        if negb (bool_decide (Some (token storedData) = csrfToken)) then
          (Forbidden "Invalid CSRF token", st1)
        else if decide (CSRF_TOKEN_EXPIRY < now - timestamp storedData) then
          (Forbidden "CSRF token expired", LRUMap.delete uid st1)
        else (Next, st1)
    end.

(** [validate(sessionId, presented)] in the vocabulary of the
    specification: whether the request is let through. *)
Definition validate (userID presented : string) (now : Z) (st : store)
  : bool * store :=
  match csrfProtection (Some presented) (Some userID) now st with
  | (Next, st') => (true, st')
  | (Forbidden _, st') => (false, st')
  end.

End Csrf.

(** * The shared rendering process: [getPlaywright], [restartBrowser],
      [getBrowser] *)

Module Browser.

(** A browser handle is named by the launch that produced it: the first
    call of [pw.webkit.launch] yields handle [0], the next one [1]. *)
Definition handle := nat.

(** The module-level variables, the set of handles whose process is still
    connected, and the number of [pw.webkit.launch] calls made so far. *)
Record state := mk_state {
  playwright : bool;                  (* [let playwright = null] is loaded *)
  persistentBrowser : option handle;
  screenshotCount : nat;
  connected : list handle;
  launches : nat
}.

(** What the host answers: whether [import("playwright")] resolves and
    whether [launch] resolves. Errors of [close()] are ignored by the
    code, so they need no outcome. *)
Record host := mk_host {
  playwright_installed : bool;
  launch_succeeds : bool
}.

Definition MAX_SCREENSHOTS_BEFORE_RESTART : nat := 100.

Definition unstarted : state := mk_state false None 0 [] 0.

Inductive result :=
| Returned (b : option handle)   (* the handle, or [null] *)
| Rejected.                      (* the promise rejects *)

(** A call of [getBrowser()] between two of its [await]s. *)
Inductive task :=
| Start                            (* not yet called *)
| AwaitImport                      (* in [getPlaywright], at [await import] *)
| AwaitPlaywright (pw : bool)      (* at [await getPlaywright()] *)
| AwaitClose                       (* in [restartBrowser], at [await close()] *)
| AwaitRestart                     (* at [await restartBrowser()] *)
| AwaitLaunch (b : option handle)  (* at [await pw.webkit.launch(...)] *)
| Done (r : result).

Definition isConnected (b : handle) (st : state) : bool :=
  bool_decide (b ∈ connected st).

(** [pw.webkit.launch({ headless: true })] is called: one more launch; when
    it will resolve, the new process is connected. *)
Definition launch (h : host) (st : state) : task * state :=
  if launch_succeeds h then
    (AwaitLaunch (Some (launches st)),
     mk_state (playwright st) (persistentBrowser st) (screenshotCount st)
       (connected st ++ [launches st]) (S (launches st)))
  else
    (AwaitLaunch None,
     mk_state (playwright st) (persistentBrowser st) (screenshotCount st)
       (connected st) (S (launches st))).

(** From [if (persistentBrowser?.isConnected())] to the next [await]. *)
Definition reuse_or_launch (h : host) (st : state) : task * state :=
  match persistentBrowser st with
  | Some b =>
      if isConnected b st then (Done (Returned (Some b)), st) else launch h st
  | None => launch h st
  end.

(** The code run when the task is resumed, up to its next [await]. *)
Definition resume (h : host) (t : task) (st : state) : task * state :=
  match t with
  | Start =>
      (* [getBrowser()] calls [getPlaywright()] *)
      if playwright st then (AwaitPlaywright true, st)
      else (AwaitImport, st)
  | AwaitImport =>
      if playwright_installed h then
        (AwaitPlaywright true,
         mk_state true (persistentBrowser st) (screenshotCount st)
           (connected st) (launches st))
      else (AwaitPlaywright false, st)
  | AwaitPlaywright pw =>
      if negb pw then (Done (Returned None), st)
      else
        match persistentBrowser st with
        | Some b =>
            if decide (MAX_SCREENSHOTS_BEFORE_RESTART ≤ screenshotCount st)%nat
            then
              (* [restartBrowser()]: [persistentBrowser.close()] *)
              (AwaitClose,
               mk_state (playwright st) (persistentBrowser st)
                 (screenshotCount st)
                 (filter (λ x, x ≠ b) (connected st)) (launches st))
            else reuse_or_launch h st
        | None => reuse_or_launch h st
        end
  | AwaitClose =>
      (* [persistentBrowser = null; screenshotCount = 0] *)
      (AwaitRestart,
       mk_state (playwright st) None 0%nat (connected st) (launches st))
  | AwaitRestart => reuse_or_launch h st
  | AwaitLaunch (Some b) =>
      (* [persistentBrowser = <launched>; return persistentBrowser] *)
      (Done (Returned (Some b)),
       mk_state (playwright st) (Some b) (screenshotCount st)
         (connected st) (launches st))
  | AwaitLaunch None => (Done Rejected, st)
  | Done r => (Done r, st)
  end.

(** ** One call running alone *)

Fixpoint run_alone (fuel : nat) (h : host) (t : task) (st : state)
  : option result * state :=
  match t with
  | Done r => (Some r, st)
  | _ =>
      match fuel with
      | O => (None, st)
      | S f => let '(t', st') := resume h t st in run_alone f h t' st'
      end
  end.

(** [await getBrowser()] with no other call in flight. A call passes at
    most six [await]s. *)
Definition getBrowser (h : host) (st : state) : result * state :=
  let '(r, st') := run_alone 6 h Start st in (default Rejected r, st').

(** [n] calls, each awaited before the next is made. *)
Fixpoint acquire_in_turn (h : host) (n : nat) (st : state)
  : list result * state :=
  match n with
  | O => ([], st)
  | S n' =>
      let '(r, st1) := getBrowser h st in
      let '(rs, st2) := acquire_in_turn h n' st1 in
      (r :: rs, st2)
  end.

(** ** Calls in flight together

    The runtime resumes pending continuations one at a time, each running
    to its next [await]. [turn] resumes every call of the pool once, in
    the order the calls were made. *)
Fixpoint turn (h : host) (pool : list task) (st : state)
  : list task * state :=
  match pool with
  | [] => ([], st)
  | t :: r =>
      let '(t', st1) := resume h t st in
      let '(r', st2) := turn h r st1 in
      (t' :: r', st2)
  end.

Fixpoint turns (k : nat) (h : host) (pool : list task) (st : state)
  : list task * state :=
  match k with
  | O => (pool, st)
  | S k' => let '(pool', st') := turn h pool st in turns k' h pool' st'
  end.

(** [n] calls made together: [Promise.all([getBrowser(), ...])] or [n]
    requests arriving while the first is still being served. *)
Definition acquire_together (h : host) (n : nat) (st : state)
  : list task * state :=
  turns 6 h (replicate n Start) st.

(** An arbitrary interleaving: [sched] lists which call is resumed next. *)
Definition step (h : host) (i : nat) (ps : list task * state)
  : list task * state :=
  match ps.1 !! i with
  | Some t => let '(t', st') := resume h t ps.2 in (<[i := t']> ps.1, st')
  | None => ps
  end.

Definition interleave (h : host) (sched : list nat) (ps : list task * state)
  : list task * state :=
  foldl (λ acc i, step h i acc) ps sched.

End Browser.

(** * The durable caches (SQLite tables [ProfileCache] and [ImageCache]) *)

Module Db.

Definition bytes := list Byte.byte.

(** Rows keyed by the [username] primary key: the value and [cached_at].
    [INSERT OR REPLACE] is an insertion into the finite map. *)
Record t := mk {
  ProfileCache : gmap string (string * Z);
  ImageCache : gmap string (bytes * Z)
}.

Definition getCachedProfile (db : t) (username : string)
  : option (string * Z) :=
  ProfileCache db !! JS.toLowerCase username.

Definition setCachedProfile (db : t) (username data : string) (now : Z) : t :=
  mk (<[JS.toLowerCase username := (data, now)]> (ProfileCache db))
     (ImageCache db).

Definition getCachedImage (db : t) (username : string)
  : option (bytes * Z) :=
  ImageCache db !! JS.toLowerCase username.

Definition setCachedImage (db : t) (username : string) (imageBuffer : bytes)
    (now : Z) : t :=
  mk (ProfileCache db)
     (<[JS.toLowerCase username := (imageBuffer, now)]> (ImageCache db)).

End Db.

(** * The routes *)

Module Server.

Import JS.

(** The process-wide singletons the handlers share. *)
Record state := mk {
  rateLimitStore : RateLimit.store;
  csrfTokenStore : Csrf.store;
  browser : Browser.state;
  db : Db.t
}.

Definition set_rateLimitStore (rl : RateLimit.store) (st : state) : state :=
  mk rl (csrfTokenStore st) (browser st) (db st).
Definition set_browser (b : Browser.state) (st : state) : state :=
  mk (rateLimitStore st) (csrfTokenStore st) b (db st).
Definition set_db (d : Db.t) (st : state) : state :=
  mk (rateLimitStore st) (csrfTokenStore st) (browser st) d.

Inductive response :=
| Png (image : Db.bytes)                     (* [c.body(image, 200, ...)] *)
| JsonData (data : string)                   (* [c.json(data)] *)
| JsonError (status : Z) (error : string)    (* [c.json({ error }, status)] *)
| RateLimited (error : string) (retryAfter : Z)        (* 429 *)
| Unhandled.                 (* an exception left the handler *)

Definition PROFILE_CACHE_TTL : Z := 7 * 24 * 60 * 60 * 1000.
Definition SCREENSHOT_CACHE_TTL : Z := 60 * 60 * 1000.

(** [username.replace(/^@/, '').trim().toLowerCase()] *)
Definition cleanUsername (username : string) : string :=
  toLowerCase (trim (strip_at username)).

(** ** [app.use('*', globalLimiter)] in front of a handler *)

Definition behind_globalLimiter (xff : option string) (now : Z)
    (handler : state → response * state) (st : state) : response * state :=
  match RateLimit.globalLimiter xff now (rateLimitStore st) with
  | (RateLimit.Next, rl) => handler (set_rateLimitStore rl st)
  | (RateLimit.TooManyRequests r, rl) =>
      (RateLimited "Too many requests, please try again later." r,
       set_rateLimitStore rl st)
  | (RateLimit.Threw, rl) => (Unhandled, set_rateLimitStore rl st)
  end.

(** ** [app.get("/user/:username")] *)

Record user_request := mk_user_request {
  user_xff : option string;        (* the [x-forwarded-for] header *)
  user_username : string
}.

(** Answer of [xClient.users.getByUsername]. *)
Inductive x_api_answer :=
| XUser (userData : string)   (* [response.data], as the route reshapes it *)
| XNoData
| XFailed (status : Z).

(** What the outside answers while the request is served. *)
Record user_host := mk_user_host {
  xClient_configured : bool;       (* [X_BEARER_TOKEN] is set *)
  DISABLE_RATE_LIMIT : bool;       (* [process.env.DISABLE_RATE_LIMIT === 'true'] *)
  user_now_cache : Z;              (* [Date.now()] at the freshness test *)
  user_now_limit : Z;              (* [Date.now()] in the limiter *)
  x_api : x_api_answer;
  setCachedProfile_ok : bool;
  user_now_store : Z
}.

(** The part of the route after the limiter: the call to the X API. *)
Definition fetch_profile (e : user_host) (clean : string) (st : state)
  : response * state :=
  match x_api e with
  | XFailed status =>
      if status =? 404 then (JsonError 404 "User not found", st)
      else (JsonError 500 "Failed to fetch user data", st)
  | XNoData => (JsonError 404 "User not found", st)
  | XUser userData =>
      if setCachedProfile_ok e then
        (JsonData userData,
         set_db (Db.setCachedProfile (db st) clean userData
                   (user_now_store e)) st)
      else (JsonError 500 "Failed to fetch user data", st)
  end.

(** The route after a cache miss (or a stale entry): the 3-per-day
    limiter unless disabled, then the fetch. An exception raised here is
    caught by the route's [catch]. *)
Definition after_miss (e : user_host) (req : user_request) (clean : string)
    (st : state) : response * state :=
  if DISABLE_RATE_LIMIT e then fetch_profile e clean st
  else
    match RateLimit.profileLimiter (user_xff req) (user_now_limit e)
            (rateLimitStore st) with
    | (RateLimit.Next, rl) => fetch_profile e clean (set_rateLimitStore rl st)
    | (RateLimit.TooManyRequests r, rl) =>
        (RateLimited "Daily limit reached. Try again tomorrow or use a previously searched profile." r,
         set_rateLimitStore rl st)
    | (RateLimit.Threw, rl) =>
        (JsonError 500 "Failed to fetch user data", set_rateLimitStore rl st)
    end.

Definition user_route (e : user_host) (req : user_request) (st : state)
  : response * state :=
  if negb (xClient_configured e) then
    (JsonError 503 "X API service unavailable", st)
  else if negb (truthy (Some (user_username req))) then
    (JsonError 400 "Invalid username", st)
  else
    let clean := cleanUsername (user_username req) in
    if negb (is_handle clean) then
      (JsonError 400 "Invalid username format", st)
    else
      match Db.getCachedProfile (db st) clean with
      | Some (data, cached_at) =>
          if decide (user_now_cache e - cached_at < PROFILE_CACHE_TTL) then
            (* cache hit: answered before the limiter is reached *)
            (JsonData data, st)
          else after_miss e req clean st
      | None => after_miss e req clean st
      end.

(** A request for a profile as the server sees it: the global limiter,
    then the route. [now] is [Date.now()] inside the global limiter. *)
Definition serve_user (now : Z) (e : user_host) (req : user_request)
    (st : state) : response * state :=
  behind_globalLimiter (user_xff req) now (user_route e req) st.

(** ** [app.get("/qr/:username/image")] *)

Record image_request := mk_image_request {
  username : string;            (* [c.req.param("username")] *)
  query_w : option string;      (* [c.req.query("w")] *)
  query_h : option string;
  query_scale : option string;
  query_theme : option string
}.

Record image_host := mk_image_host {
  browser_host : Browser.host;
  now_probe : Z;                (* [Date.now()] at the freshness test *)
  newContext_ok : bool;         (* [browser.newContext] *)
  page_ok : bool;               (* [route], [addInitScript], [newPage], [goto] *)
  canvas_ok : bool;             (* [waitForSelector], fonts, settle delay *)
  screenshot : option Db.bytes; (* [page.screenshot]; [None]: it rejects *)
  close_ok : bool;              (* [context.close()] after the capture *)
  setCachedImage_ok : bool;     (* the [INSERT OR REPLACE] succeeds *)
  now_store : Z;                (* [Date.now()] in [setCachedImage] *)
  close_in_catch_ok : bool      (* [context.close()] in the catch block *)
}.

Definition width_of (req : image_request) : number :=
  parseInt (or_default (query_w req) "393").
Definition height_of (req : image_request) : number :=
  parseInt (or_default (query_h req) "852").
Definition scale_of (req : image_request) : number :=
  parseFloat (or_default (query_scale req) "3").
Definition theme_of (req : image_request) : string :=
  if bool_decide (query_theme req = Some "light") then "light" else "dark".

(** The negation of the condition of the [if] that answers
    "Invalid dimensions". *)
Definition validDimensions (width height scale : number) : bool :=
  negb (isNaN width || isNaN height || isNaN scale
        || lt width (of_Z 100) || gt width (of_Z 1200)
        || lt height (of_Z 100) || gt height (of_Z 1000)
        || lt scale (of_Z 1) || gt scale (of_Z 4)).

(** A number, not [NaN] and not infinite, between [lo] and [hi], both
    bounds included (used in statements only). *)
Definition in_range (lo hi : Z) (x : number) : Prop :=
  match x with
  | Fin q => (inject_Z lo <= q)%Q ∧ (q <= inject_Z hi)%Q
  | _ => False
  end.

(** [`${cleanUsername}_${width}x${height}_${scale}_${theme}`] *)
Definition cacheKey (clean : string) (width height scale : number)
    (theme : string) : string :=
  clean +:+ "_" +:+ numToString width +:+ "x" +:+ numToString height
    +:+ "_" +:+ numToString scale +:+ "_" +:+ theme.

Definition increment_screenshotCount (st : state) : state :=
  let b := browser st in
  set_browser
    (Browser.mk_state (Browser.playwright b) (Browser.persistentBrowser b)
       (S (Browser.screenshotCount b)) (Browser.connected b)
       (Browser.launches b)) st.

(** The [catch] block; [context] tells whether the variable is set. *)
Definition catch_block (e : image_host) (context : bool) (st : state)
  : response * state :=
  if context && negb (close_in_catch_ok e) then (Unhandled, st)
  else (JsonError 500 "Failed to generate image", st).

(** The [try] block. The target URL is built from the literal host
    [localhost], so the host-name test never answers "Invalid target". A
    failure while waiting for the canvas is caught on the spot and the
    capture goes on. *)
Definition try_block (e : image_host) (key : string) (st : state)
  : response * state :=
  if negb (newContext_ok e) then catch_block e false st
  else if negb (page_ok e) then catch_block e true st
  else
    match screenshot e with
    | None => catch_block e true st
    | Some png =>
        if negb (close_ok e) then catch_block e true st
        else
          let st1 := increment_screenshotCount st in
          if negb (setCachedImage_ok e) then catch_block e false st1
          else
            (Png png,
             set_db (Db.setCachedImage (db st1) key png (now_store e)) st1)
    end.

Definition image_route (e : image_host) (req : image_request) (st : state)
  : response * state :=
  let width := width_of req in
  let height := height_of req in
  let scale := scale_of req in
  let theme := theme_of req in
  if negb (validDimensions width height scale) then
    (JsonError 400 "Invalid dimensions", st)
  else
    let clean := cleanUsername (username req) in
    if negb (is_handle clean) then
      (JsonError 400 "Invalid username format", st)
    else
      match Db.getCachedProfile (db st) clean with
      | None =>
          (JsonError 404 "Profile not cached. View the profile first.", st)
      | Some _ =>
          let key := cacheKey clean width height scale theme in
          let fresh :=
            match Db.getCachedImage (db st) key with
            | Some (image, cached_at) =>
                if decide (now_probe e - cached_at < SCREENSHOT_CACHE_TTL)
                then Some image else None
            | None => None
            end in
          match fresh with
          | Some image => (Png image, st)
          | None =>
              match Browser.getBrowser (browser_host e) (browser st) with
              | (Browser.Rejected, b) => (Unhandled, set_browser b st)
              | (Browser.Returned None, b) =>
                  (JsonError 503 "Screenshot service unavailable",
                   set_browser b st)
              | (Browser.Returned (Some _), b) =>
                  try_block e key (set_browser b st)
              end
          end
      end.

End Server.

(** * Concrete servers and requests used in the examples *)

Module Fixtures.

Import Server.

Definition png : Db.bytes := [Byte.x89; Byte.x50; Byte.x4e; Byte.x47].

(** A client address, as sent in [x-forwarded-for]. *)
Definition ip : string := "203.0.113.7".

(** A server that has just started and whose profile cache holds one
    row, written at time 0. *)
Definition server_with_profile (handle : string) : state :=
  mk RateLimit.rateLimitStore Csrf.csrfTokenStore Browser.unstarted
     (Db.mk {[ handle := (handle +:+ "-profile", 0) ]} ∅).

(** Playwright is installed and every step of the capture succeeds;
    [write_ok] tells whether the write to [ImageCache] succeeds. *)
Definition capture_host (write_ok : bool) : image_host :=
  mk_image_host (Browser.mk_host true true) 5000 true true true (Some png)
    true write_ok 6000 true.

(** [GET /qr/<handle>/image] without query parameters. *)
Definition plain_image_request (handle : string) : image_request :=
  mk_image_request handle None None None None.

(** The X API is configured and answers with a profile; every
    [Date.now()] of the request reads [now]. *)
Definition profile_host (now : Z) : user_host :=
  mk_user_host true false now now (XUser "fetched-profile") true now.

Definition profile_request (handle : string) : user_request :=
  mk_user_request (Some ip) handle.

End Fixtures.

(** * Input validation: [escapeHtml], [validateEmail], [validatePassword],
      [validateName] *)

Module Validation.

Import JS.

(** The six characters that the regular expression of [escapeHtml] lists:
    ampersand, less-than, greater-than, double quote, apostrophe, slash. *)
Definition is_special (c : ascii) : bool :=
  bool_decide (code c ∈ [38; 60; 62; 34; 39; 47]).

(** The entity that [map] gives a listed character; any other character
    stays. *)
Definition escape_char (c : ascii) : list ascii :=
  let n := code c in
  if n =? 38 then chars "&amp;"
  else if n =? 60 then chars "&lt;"
  else if n =? 62 then chars "&gt;"
  else if n =? 34 then chars "&quot;"
  else if n =? 39 then chars "&#x27;"
  else if n =? 47 then chars "&#x2F;"
  else [c].

(** [escapeHtml(text)] for a string [text] *)
Definition escapeHtml (text : string) : string :=
  str (concat (escape_char <$> chars text)).

(** [[^\s@]] *)
Definition email_char (c : ascii) : bool :=
  negb (is_whitespace c) && negb (code c =? 64).

Definition is_at (c : ascii) : bool := code c =? 64.
Definition is_dot (c : ascii) : bool := code c =? 46.

(** What [/^[^\s@]+@[^\s@]+\.[^\s@]+$/] accepts: a non-empty run of
    [[^\s@]], an at sign, a non-empty run, a dot, a non-empty run. *)
Definition email_shape (l : list ascii) : Prop :=
  ∃ A B C : list ascii,
    l = A ++ "@"%char :: B ++ "."%char :: C
    ∧ A ≠ [] ∧ B ≠ [] ∧ C ≠ []
    ∧ forallb email_char (A ++ B ++ C) = true.

(** The test of the regular expression, computed: the run before the first
    character outside [[^\s@]] must be non-empty and end at an at sign; what
    follows must consist of [[^\s@]] only and hold a dot that is neither
    its first nor its last character. *)
Definition email_test (l : list ascii) : bool :=
  let a := take_while email_char l in
  match drop (length a) l with
  | c :: rest =>
      is_at c && negb (bool_decide (a = [])) && forallb email_char rest
      && existsb is_dot (removelast (tail rest))
  | [] => false
  end.

(** [validateEmail(email)] for a string [email] *)
Definition validateEmail (email : string) : bool :=
  negb (bool_decide (email = ""))
  && negb (254 <? Z.of_nat (length (chars email)))
  && email_test (chars email).

(** [validatePassword(password)] for a string, as a truth value *)
Definition validatePassword (password : string) : bool :=
  negb (bool_decide (password = ""))
  && (6 <=? Z.of_nat (length (chars password)))
  && (Z.of_nat (length (chars password)) <=? 72).

(** [validateName(name)] for a string, as a truth value *)
Definition validateName (name : string) : bool :=
  negb (bool_decide (name = ""))
  && (0 <? Z.of_nat (length (chars (trim name))))
  && (Z.of_nat (length (chars name)) <=? 100).

End Validation.

(** * Usage tracking: the [Users] table and the [/usage] route *)

Module Usage.

Import JS.

(** A row of [Users]; [None] is SQL [NULL]. *)
Record user_row := mk_user {
  email : string;
  name : string;
  created_at : Z;
  subscription_stripeID : option string;
  subscription_expires : option Z;
  subscription_status : option string;
  usage_count : option Z;
  usage_reset_at : option Z
}.

(** The table, keyed by [_id]. *)
Abbreviation users := (gmap string user_row).

(** Truthiness of a nullable integer column: [NULL] and [0] are falsy. *)
Definition truthy_Z (o : option Z) : bool :=
  match o with
  | Some z => negb (z =? 0)
  | None => false
  end.

(** [user.usage] as [findUser] builds it:
    [{ count: usage_count || 0, reset_at: usage_reset_at || null }] *)
Record usage := mk_usage { count : Z; reset_at : option Z }.

Definition found_usage (u : user_row) : usage :=
  mk_usage (if truthy_Z (usage_count u) then default 0 (usage_count u) else 0)
           (if truthy_Z (usage_reset_at u) then usage_reset_at u else None).

(** [findUser(db, { _id })]: no query without a truthy [_id]. *)
Definition findUser (db : users) (userID : option string) : option user_row :=
  if truthy userID then db !! default "" userID else None.

(** [user.subscription?.status === 'active' &&
     (!user.subscription?.expires || user.subscription.expires > now)];
    [findUser] builds [user.subscription] only for a truthy
    [subscription_stripeID]. *)
Definition isSubscriber (u : user_row) (now_s : Z) : bool :=
  truthy (subscription_stripeID u)
  && bool_decide (subscription_status u = Some "active")
  && (negb (truthy_Z (subscription_expires u))
      || bool_decide (now_s < default 0 (subscription_expires u))).

(** [updateUser(db, { _id }, { $set: { usage } })]:
    [UPDATE Users SET usage_count = ?, usage_reset_at = ? WHERE _id = ?] *)
Definition set_usage (userID : string) (u : usage) (db : users) : users :=
  alter (λ row,
    mk_user (email row) (name row) (created_at row)
      (subscription_stripeID row) (subscription_expires row)
      (subscription_status row) (Some (count u)) (reset_at u))
    userID db.

(** [a >= b] on numbers *)
Definition ge (a b : number) : bool :=
  negb (isNaN a) && negb (isNaN b) && negb (lt a b).

(** [limit - count] for an integer [count] below 2^53 *)
Definition minus (limit : number) (count : Z) : number :=
  match limit with
  | Fin q => Fin (q - inject_Z count)%Q
  | other => other
  end.

(** [Math.max(0, x)] *)
Definition max0 (x : number) : number :=
  match x with
  | NaN => NaN
  | Inf true => Fin 0
  | Inf false => Inf false
  | Fin q => if Qle_bool q 0 then Fin 0 else Fin q
  end.

Inductive response :=
| InvalidOperation                    (* 400 *)
| UserNotFound                        (* 404 *)
| Unlimited                           (* [{ remaining: -1, total: -1, isSubscriber: true }] *)
| LimitReached (total : number)       (* 429, [remaining: 0] *)
| Remaining (remaining total : number) (used : Z).

Definition THIRTY_DAYS : Z := 30 * 24 * 60 * 60.

(** [parseInt(process.env.FREE_USAGE_LIMIT || '20')] *)
Definition limit_of (FREE_USAGE_LIMIT : option string) : number :=
  parseInt (or_default FREE_USAGE_LIMIT "20").

(** The route, after [authMiddleware] has set [userID]; [now_ms] is
    [Date.now()] and the database calls succeed. *)
Definition usage_route (FREE_USAGE_LIMIT : option string) (now_ms : Z)
    (userID operation : option string) (db : users) : response * users :=
  if negb (truthy operation)
     || negb (bool_decide (operation = Some "check"
                           ∨ operation = Some "track")) then
    (InvalidOperation, db)
  else
    match findUser db userID with
    | None => (UserNotFound, db)
    | Some user =>
        let now := now_ms / 1000 in
        if isSubscriber user now then (Unlimited, db)
        else
          let uid := default "" userID in
          let limit := limit_of FREE_USAGE_LIMIT in
          let stored := found_usage user in
          let '(usage1, db1) :=
            if negb (truthy_Z (reset_at stored))
               || bool_decide (default 0 (reset_at stored) < now)
            then
              let fresh := mk_usage 0 (Some (now + THIRTY_DAYS)) in
              (fresh, set_usage uid fresh db)
            else (stored, db) in
          if bool_decide (operation = Some "track") then
            if ge (of_Z (count usage1)) limit then (LimitReached limit, db1)
            else
              let usage2 := mk_usage (count usage1 + 1) (reset_at usage1) in
              (Remaining (max0 (minus limit (count usage2))) limit
                 (count usage2),
               set_usage uid usage2 db1)
          else
            (Remaining (max0 (minus limit (count usage1))) limit
               (count usage1), db1)
    end.

(** Successive requests of one user: the operation and [Date.now()] of
    each. *)
Fixpoint requests (FREE_USAGE_LIMIT : option string) (userID : option string)
    (ops : list (string * Z)) (db : users) : list response * users :=
  match ops with
  | [] => ([], db)
  | (operation, now_ms) :: later =>
      let '(r, db1) :=
        usage_route FREE_USAGE_LIMIT now_ms userID (Some operation) db in
      let '(rs, db2) := requests FREE_USAGE_LIMIT userID later db1 in
      (r :: rs, db2)
  end.


(** A row without a Stripe customer: [findUser] builds no
    [user.subscription] for it. *)
Definition free (u : user_row) : Prop :=
  truthy (subscription_stripeID u) = false.


End Usage.

(** * Accounts: the [Auths] table, [/signup] and [/signin] *)

Module Accounts.

Import JS Validation Usage.

(** A row of [Auths], keyed by [email]: the bcrypt hash and the user. *)
Record auth_row := mk_auth { password : string; userID : string }.

Record state := mk {
  Users : users;
  Auths : gmap string auth_row;
  csrfTokenStore : Csrf.store
}.

(** What one request draws from its surroundings: the configured secret,
    the hash that [hashPassword] returns, [bcrypt.compare], the values of
    [crypto.randomUUID()] and [generateCSRFToken()], [jwt.sign] as a
    function of user and expiry, and the successive readings of
    [Date.now()]. *)
Record host := mk_host {
  JWT_SECRET : option string;
  hashed : string;
  bcrypt_compare : string → string → bool;
  uuid : string;
  csrf_token : string;
  jwt_sign : string → Z → string;
  now_insert : Z;
  now_sign : Z;
  now_csrf : Z;
  now_reply : Z
}.

Definition tokenExpirationDays : Z := 30.

(** [tokenExpireTimestamp()] when [Date.now()] reads [now] *)
Definition tokenExpireTimestamp (now : Z) : Z :=
  now / 1000 + tokenExpirationDays * 24 * 60 * 60.

(** [generateToken(userID)]; [None] when it throws *)
Definition generateToken (h : host) (userID : string) : option string :=
  if truthy (JWT_SECRET h)
  then Some (jwt_sign h userID (tokenExpireTimestamp (now_sign h)))
  else None.

(** [SELECT * FROM Users WHERE email = ?]: the row and its [_id] *)
Definition find_by_email (db : users) (e : string)
  : option (string * user_row) :=
  head (filter (λ p, email p.2 = e) (map_to_list db)).

(** [insertUser]; [None] when a UNIQUE constraint fails, on the primary
    key [_id] or on [email]. The columns not named take their defaults. *)
Definition insertUser (db : users) (_id e n : string) (created : Z)
  : option users :=
  if bool_decide (is_Some (db !! _id))
     || bool_decide (is_Some (find_by_email db e))
  then None
  else Some (<[_id := mk_user e n created None None None (Some 0) None]> db).

(** [insertAuth]; [None] when the primary key [email] exists. *)
Definition insertAuth (db : gmap string auth_row) (e hash uid : string)
  : option (gmap string auth_row) :=
  if bool_decide (is_Some (db !! e)) then None
  else Some (<[e := mk_auth hash uid]> db).

(** [user.subscription] as [findUser] builds it: stripeID, expires,
    status. *)
Definition found_subscription (u : user_row)
  : option (string * option Z * option string) :=
  if truthy (subscription_stripeID u)
  then Some (default "" (subscription_stripeID u),
             subscription_expires u, subscription_status u)
  else None.

Inductive response :=
| BadRequest (error : string)      (* 400 *)
| Unauthorized (error : string)    (* 401 *)
| NotFound (error : string)        (* 404 *)
| ServerError                      (* 500 *)
| Created (id e n : string) (tokenExpires : Z) (csrfToken cookie : string)
| SignedIn (id e n : string)
    (subscription : option (string * option Z * option string))
    (tokenExpires : Z) (csrfToken cookie : string).

Definition set_Users (u : users) (st : state) : state :=
  mk u (Auths st) (csrfTokenStore st).
Definition set_Auths (a : gmap string auth_row) (st : state) : state :=
  mk (Users st) a (csrfTokenStore st).
Definition set_csrfTokenStore (c : Csrf.store) (st : state) : state :=
  mk (Users st) (Auths st) c.

(** The handler of [/signup], behind [authLimiter]; the fields of the
    body are strings or missing. *)
Definition signup_route (h : host) (email_in password_in name_in : option string)
    (st : state) : response * state :=
  let email0 := default "" email_in in
  let password0 := default "" password_in in
  let name0 := default "" name_in in
  if negb (validateEmail email0) then
    (BadRequest "Invalid email format", st)
  else if negb (validatePassword password0) then
    (BadRequest "Password must be 6-72 characters", st)
  else if negb (validateName name0) then
    (BadRequest "Name required (max 100 characters)", st)
  else
    let e := trim (toLowerCase email0) in
    let n := escapeHtml (trim name0) in
    let insertID := uuid h in
    match insertUser (Users st) insertID e n (now_insert h) with
    | None =>
        (BadRequest "Unable to create account with provided credentials", st)
    | Some users1 =>
        let st1 := set_Users users1 st in
        match generateToken h insertID with
        | None => (ServerError, st1)
        | Some token =>
            match insertAuth (Auths st1) e (hashed h) insertID with
            | None =>
                (BadRequest
                   "Unable to create account with provided credentials", st1)
            | Some auths1 =>
                let st2 := set_Auths auths1 st1 in
                let st3 :=
                  set_csrfTokenStore
                    (Csrf.issue insertID (csrf_token h) (now_csrf h)
                       (csrfTokenStore st2)) st2 in
                (Created insertID e n (tokenExpireTimestamp (now_reply h))
                   (csrf_token h) token, st3)
            end
        end
    end.

(** The handler of [/signin], behind [authLimiter]. *)
Definition signin_route (h : host) (email_in password_in : option string)
    (st : state) : response * state :=
  let email0 := default "" email_in in
  if negb (validateEmail email0) || negb (truthy password_in) then
    (Unauthorized "Invalid credentials", st)
  else
    let e := trim (toLowerCase email0) in
    match Auths st !! e with
    | None => (Unauthorized "Invalid credentials", st)
    | Some auth =>
        if negb (bcrypt_compare h (default "" password_in) (password auth))
        then (Unauthorized "Invalid credentials", st)
        else
          match find_by_email (Users st) e with
          | None => (NotFound "User not found", st)
          | Some (id, user) =>
              match generateToken h id with
              | None => (ServerError, st)
              | Some token =>
                  (SignedIn id (email user) (name user)
                     (found_subscription user)
                     (tokenExpireTimestamp (now_reply h))
                     (csrf_token h) token,
                   set_csrfTokenStore
                     (Csrf.issue id (csrf_token h) (now_csrf h)
                        (csrfTokenStore st)) st)
              end
          end
    end.

(** ** [app.put("/me")], behind [authMiddleware] and [csrfProtection] *)

Inductive me_response :=
| MeForbidden (error : string)        (* 403, from [csrfProtection] *)
| MeNotFound                          (* 404 *)
| MeNoFields                          (* 400 *)
| MeUser (updatedUser : option user_row).

(** [updateUser(db, { _id }, { $set: { name } })]:
    [UPDATE Users SET name = ? WHERE _id = ?] *)
Definition set_name (userID n : string) (db : users) : users :=
  alter (λ row,
    mk_user (email row) n (created_at row)
      (subscription_stripeID row) (subscription_expires row)
      (subscription_status row) (usage_count row) (usage_reset_at row))
    userID db.

(** [csrfToken] is the [x-csrf-token] header, [userID] what
    [authMiddleware] has set, [body_name] the [name] of the body when it
    is a string; no other key of the body is looked at. *)
Definition me_put (csrfToken userID body_name : option string) (now : Z)
    (st : state) : me_response * state :=
  match Csrf.csrfProtection csrfToken userID now (csrfTokenStore st) with
  | (Csrf.Forbidden error, c) => (MeForbidden error, set_csrfTokenStore c st)
  | (Csrf.Next, c) =>
      let st1 := set_csrfTokenStore c st in
      match findUser (Users st1) userID with
      | None => (MeNotFound, st1)
      | Some _ =>
          match body_name with
          | None => (MeNoFields, st1)
          | Some value =>
              let users1 :=
                set_name (default "" userID) (escapeHtml (trim value))
                  (Users st1) in
              (MeUser (findUser users1 userID), set_Users users1 st1)
          end
      end
  end.

(** The UNIQUE constraint on [Users.email]. *)
Definition unique_emails (db : users) : Prop :=
  ∀ id1 id2 u1 u2,
    db !! id1 = Some u1 → db !! id2 = Some u2 → email u1 = email u2 →
    id1 = id2.

End Accounts.

(** * The disk tier: [cacheImage], [/images/:id],
      [cleanExpiredDiskCache] *)

Module Disk.

Import JS.

(** The files of [IMAGE_CACHE_DIR] by name: content and [mtimeMs]. *)
Abbreviation files := (gmap string (Db.bytes * Z)).

(** What [fetch(imageUrl)] gives: it throws, answers without [ok], or
    answers with a [content-type] header, if any, and a body. *)
Inductive fetched :=
| FetchThrows
| FetchNotOk
| FetchOk (contentType : option string) (body : Db.bytes).

(** [hay.includes(needle)] on character lists *)
Fixpoint includes_chars (needle hay : list ascii) : bool :=
  is_prefix_chars needle hay
  || match hay with
     | [] => false
     | _ :: rest => includes_chars needle rest
     end.

Definition includes (hay needle : string) : bool :=
  includes_chars (chars needle) (chars hay).

(** [contentType.includes('png') ? 'png' : 'jpg'] with
    [contentType = response.headers.get('content-type') || 'image/jpeg'] *)
Definition ext_of (contentType : option string) : string :=
  if includes (or_default contentType "image/jpeg") "png"
  then "png" else "jpg".

(** [cacheImage(imageUrl, cacheId)]: [write_ok] tells whether [writeFile]
    resolves, [now] is the modification time the file gets. The result is
    [cacheId] or [null]. *)
Definition cacheImage (imageUrl : option string) (cacheId : string)
    (response : fetched) (write_ok : bool) (now : Z) (disk : files)
  : option string * files :=
  if negb (truthy imageUrl) then (None, disk)
  else
    match response with
    | FetchThrows | FetchNotOk => (None, disk)
    | FetchOk contentType body =>
        if write_ok then
          (Some cacheId,
           <[cacheId +:+ "." +:+ ext_of contentType := (body, now)]> disk)
        else (None, disk)
    end.

(** [/^[a-zA-Z0-9_]+$/.test(id)] *)
Definition is_image_id (id : string) : bool :=
  negb (bool_decide (id = "")) && forallb is_word_char (chars id).

Inductive response :=
| Image (body : Db.bytes) (contentType : string)   (* 200 *)
| InvalidId                                        (* 400 *)
| ImageNotFound.                                   (* 404 *)

(** [app.get("/images/:id")], reading succeeds *)
Definition images_route (id : string) (disk : files) : response :=
  if negb (is_image_id id) then InvalidId
  else
    match disk !! (id +:+ ".jpg") with
    | Some (buffer, _) => Image buffer "image/jpeg"
    | None =>
        match disk !! (id +:+ ".png") with
        | Some (buffer, _) => Image buffer "image/png"
        | None => ImageNotFound
        end
    end.

(** [cleanExpiredDiskCache()] when [Date.now()] reads [now] and [statSync]
    and [unlinkSync] succeed: the number [deleted] and the files left. *)
Definition cleanExpiredDiskCache (now : Z) (disk : files) : nat * files :=
  let kept :=
    filter (λ file, ¬ Server.PROFILE_CACHE_TTL < now - file.2.2) disk in
  ((size disk - size kept)%nat, kept).

End Disk.

(** * The periodic clean-up jobs ([setInterval]) *)

Module Janitor.

(** [now - data.timestamp > CSRF_TOKEN_EXPIRY] *)
Definition expired (now : Z) (p : string * Csrf.entry) : Prop :=
  Csrf.CSRF_TOKEN_EXPIRY < now - Csrf.timestamp p.2.

#[global] Instance expired_dec (now : Z) (p : string * Csrf.entry) :
  Decision (expired now p).
Proof. unfold expired. apply _. Defined.

(** The hourly job over [csrfTokenStore]:
    [for (const [userID, data] of csrfTokenStore.entries())
       if (now - data.timestamp > CSRF_TOKEN_EXPIRY) csrfTokenStore.delete(userID)].
    The walk is over the live map; [pos] counts the entries before the
    iterator. A [delete] of the entry just handed out leaves the iterator
    at [pos]; an entry that is kept moves it to [pos + 1]. *)
Fixpoint csrf_sweep_loop (fuel : nat) (now : Z) (pos : nat) (st : Csrf.store)
  : option Csrf.store :=
  match fuel with
  | O => None
  | S fuel' =>
      match LRUMap.entries st !! pos with
      | None => Some st
      | Some (userID, data) =>
          if decide (expired now (userID, data)) then
            csrf_sweep_loop fuel' now pos (LRUMap.delete userID st)
          else csrf_sweep_loop fuel' now (S pos) st
      end
  end.

Definition csrf_sweep (fuel : nat) (now : Z) (st : Csrf.store)
  : option Csrf.store :=
  csrf_sweep_loop fuel now 0 st.

(** [cleanExpiredProfiles(db, maxAgeMs)]:
    [DELETE FROM ProfileCache WHERE cached_at < cutoff] with
    [cutoff = Date.now() - maxAgeMs]; the result is [result.changes], the
    number of rows deleted. *)
Definition cleanExpiredProfiles (db : Db.t) (maxAgeMs now : Z) : nat * Db.t :=
  let cutoff := now - maxAgeMs in
  let kept := filter (λ row, ¬ row.2.2 < cutoff) (Db.ProfileCache db) in
  ((size (Db.ProfileCache db) - size kept)%nat, Db.mk kept (Db.ImageCache db)).

(** [cleanExpiredImages(db, maxAgeMs)], the same on [ImageCache]. *)
Definition cleanExpiredImages (db : Db.t) (maxAgeMs now : Z) : nat * Db.t :=
  let cutoff := now - maxAgeMs in
  let kept := filter (λ row, ¬ row.2.2 < cutoff) (Db.ImageCache db) in
  ((size (Db.ImageCache db) - size kept)%nat, Db.mk (Db.ProfileCache db) kept).

(** The daily job on the two durable tiers: [Date.now()] reads [now1] in
    [cleanExpiredProfiles] and [now2] in [cleanExpiredImages]. The result
    holds [deletedProfiles] and [deletedImages]. *)
Definition daily_cleanup (now1 now2 : Z) (db : Db.t) : (nat * nat) * Db.t :=
  let '(deletedProfiles, db1) :=
    cleanExpiredProfiles db Server.PROFILE_CACHE_TTL now1 in
  let '(deletedImages, db2) :=
    cleanExpiredImages db1 Server.SCREENSHOT_CACHE_TTL now2 in
  ((deletedProfiles, deletedImages), db2).

End Janitor.

(** * Vocabulary for statements about sequences of calls *)

Module Traffic.

(** The times of the calls that were let through, given the outcome of
    each call. *)
Fixpoint allowed_times (times : list Z) (os : list RateLimit.outcome)
  : list Z :=
  match times, os with
  | t :: ts, RateLimit.Next :: os' => t :: allowed_times ts os'
  | _ :: ts, _ :: os' => allowed_times ts os'
  | _, _ => []
  end.

(** The events of [l] that lie in the window [(t - W, t]]. *)
Definition in_window (W t : Z) (l : list Z) : list Z :=
  filter (λ a, t - W < a ∧ a ≤ t) l.

End Traffic.

(** * Properties of [LRUMap] *)

Section LRUMapFacts.
Context {K V : Type} `{EqDecision K}.
Implicit Types (k : K) (v : V) (es : list (K * V)) (m : LRUMap.t K V).

Import LRUMap.

Lemma Map_get_None k es : Map_get k es = None ↔ k ∉ es.*1.
Proof.
  induction es as [|[k' v'] r IH]; simpl.
  - split; [intros _; apply not_elem_of_nil | done].
  - destruct (decide (k' = k)) as [->|Hne].
    + split; [done | intros Hn; exfalso; apply Hn; left].
    + rewrite IH, not_elem_of_cons. naive_solver.
Qed.

Lemma Map_has_true k es : Map_has k es = true ↔ k ∈ es.*1.
Proof.
  unfold Map_has. destruct (Map_get k es) eqn:E.
  - split; [intros _|done].
    destruct (decide (k ∈ es.*1)) as [|Hn]; [done|].
    apply Map_get_None in Hn. congruence.
  - split; [done|]. intros Hin. apply Map_get_None in E. done.
Qed.

Lemma Map_has_false k es : Map_has k es = false ↔ k ∉ es.*1.
Proof.
  rewrite <- Map_has_true. destruct (Map_has k es); naive_solver.
Qed.

Lemma Map_delete_keys k es :
  (Map_delete k es).*1 = filter (λ x, x ≠ k) es.*1.
Proof.
  unfold Map_delete. induction es as [|[k' v'] r IH]; [done|].
  rewrite fmap_cons, !filter_cons. cbn [fst].
  destruct (decide (k' ≠ k)); [rewrite fmap_cons; cbn [fst]; f_equal|];
    exact IH.
Qed.

Lemma Map_delete_absent k es : k ∉ es.*1 → Map_delete k es = es.
Proof.
  unfold Map_delete. induction es as [|[k' v'] r IH]; [done|].
  rewrite fmap_cons, not_elem_of_cons. simpl. intros [Hne Hr].
  rewrite filter_cons_True by (simpl; congruence). by rewrite IH.
Qed.

Lemma Map_delete_not_in k es : k ∉ (Map_delete k es).*1.
Proof.
  rewrite Map_delete_keys, list_elem_of_filter. naive_solver.
Qed.

Lemma Map_set_absent k v es : k ∉ es.*1 → Map_set k v es = es ++ [(k, v)].
Proof.
  induction es as [|[k' v'] r IH]; [done|].
  rewrite fmap_cons, not_elem_of_cons. simpl. intros [Hne Hr].
  destruct (decide (k' = k)); [congruence|]. by rewrite IH.
Qed.

Lemma Map_get_app_r k v es : k ∉ es.*1 → Map_get k (es ++ [(k, v)]) = Some v.
Proof.
  induction es as [|[k' v'] r IH]; simpl.
  - intros _. by rewrite decide_True.
  - rewrite not_elem_of_cons. intros [Hne Hr].
    rewrite decide_False by congruence. auto.
Qed.

Lemma Map_get_app_ne k k0 v es :
  k0 ≠ k → Map_get k0 (es ++ [(k, v)]) = Map_get k0 es.
Proof.
  intros Hne. induction es as [|[k' v'] r IH]; simpl.
  - by rewrite decide_False by congruence.
  - by rewrite IH.
Qed.

Lemma Map_get_delete_ne k k0 es :
  k0 ≠ k → Map_get k0 (Map_delete k es) = Map_get k0 es.
Proof.
  intros Hne. unfold Map_delete.
  induction es as [|[k' v'] r IH]; [done|].
  rewrite filter_cons. simpl.
  destruct (decide (k' ≠ k)) as [Hk|Hk]; simpl.
  - by rewrite IH.
  - apply dec_stable in Hk. subst k'.
    rewrite decide_False by congruence. done.
Qed.

Lemma touched_keys k v es :
  (touched k v es).*1 = filter (λ x, x ≠ k) es.*1 ++ [k].
Proof. unfold touched. by rewrite fmap_app, Map_delete_keys. Qed.

Lemma touched_length k v es :
  NoDup es.*1 → k ∈ es.*1 → length (touched k v es) = length es.
Proof.
  intros Hnd Hin. unfold touched. rewrite length_app. simpl.
  rewrite <- (length_fmap fst (Map_delete k es)), Map_delete_keys.
  rewrite <- (length_fmap fst es).
  clear -Hnd Hin. induction Hnd as [|x l Hx Hl IH]; [by inversion Hin|].
  rewrite filter_cons. destruct (decide (x ≠ k)) as [Hxk|Hxk]; simpl.
  - rewrite IH; [done|]. apply elem_of_cons in Hin as [->|]; done.
  - apply dec_stable in Hxk. subst x.
    assert (filter (λ x, x ≠ k) l = l) as ->; [|lia].
    clear -Hx. induction l as [|y l IH]; [done|].
    apply not_elem_of_cons in Hx as [? ?].
    rewrite filter_cons_True by congruence. by rewrite IH.
Qed.

Lemma touched_absent k v es :
  k ∉ es.*1 → touched k v es = es ++ [(k, v)].
Proof. intros Hk. unfold touched. by rewrite Map_delete_absent. Qed.

Lemma touched_NoDup k v es : NoDup es.*1 → NoDup (touched k v es).*1.
Proof.
  intros Hnd. rewrite touched_keys. apply NoDup_app. split_and!.
  - by apply NoDup_filter.
  - intros x Hx%list_elem_of_filter Hk%list_elem_of_singleton. naive_solver.
  - apply NoDup_singleton.
Qed.

Lemma evict_first_NoDup es : NoDup es.*1 → evict_first es = tail es.
Proof.
  destruct es as [|[k0 v0] r]; [done|]. simpl.
  rewrite NoDup_cons. intros [Hk0 _]. unfold Map_delete.
  rewrite filter_cons_False by (simpl; intros Hn; by apply Hn).
  by apply Map_delete_absent.
Qed.

(** [set] appends the key as most recent and, when the size exceeds
    [maxSize], drops the first entry. *)
Lemma set_entries k v m :
  wf m →
  entries (set k v m) =
    if decide (maxSize m < length (touched k v (entries m)))%nat
    then tail (touched k v (entries m)) else touched k v (entries m).
Proof.
  intros Hwf. unfold set. simpl.
  assert (Map_set k v
            (if Map_has k (entries m) then Map_delete k (entries m)
             else entries m) = touched k v (entries m)) as ->.
  { destruct (Map_has k (entries m)) eqn:E.
    - apply Map_set_absent, Map_delete_not_in.
    - apply Map_has_false in E.
      rewrite Map_set_absent by done. by rewrite touched_absent. }
  case_decide; [|done].
  apply evict_first_NoDup. by apply touched_NoDup.
Qed.

Lemma set_maxSize k v m : maxSize (set k v m) = maxSize m.
Proof. done. Qed.

Lemma get_present k v m :
  peek k m = Some v →
  get k m = (Some v, mk (maxSize m) (touched k v (entries m))).
Proof.
  unfold peek, get, Map_has. intros E. rewrite E.
  by rewrite Map_set_absent by apply Map_delete_not_in.
Qed.

Lemma get_absent k m : k ∉ keys m → get k m = (None, m).
Proof.
  intros Hk. apply Map_has_false in Hk. unfold get. by rewrite Hk.
Qed.

Lemma peek_Some_keys k m : is_Some (peek k m) ↔ k ∈ keys m.
Proof.
  unfold peek, keys. rewrite <- Map_has_true. unfold Map_has.
  destruct (Map_get k (entries m)); split; intros Hx; try done; eauto.
Qed.


(** ** Recency *)

Lemma last_access_from_snoc i ops (o : op K V) k acc :
  last_access_from i (ops ++ [o]) k acc =
    if decide (op_key o = k) then S (i + length ops)
    else last_access_from i ops k acc.
Proof.
  revert i acc. induction ops as [|o' r IH]; intros i acc; simpl.
  - rewrite Nat.add_0_r. by destruct (decide (op_key o = k)).
  - rewrite IH. replace (S i + length r)%nat with (i + S (length r))%nat by lia.
    done.
Qed.

Lemma last_access_snoc ops (o : op K V) k :
  last_access (ops ++ [o]) k =
    if decide (op_key o = k) then S (length ops) else last_access ops k.
Proof. unfold last_access. by rewrite last_access_from_snoc. Qed.

Lemma last_access_from_le i (ops : list (op K V)) k acc :
  (acc ≤ i → last_access_from i ops k acc ≤ i + length ops)%nat.
Proof.
  revert i acc. induction ops as [|o r IH]; intros i acc Hacc; simpl; [lia|].
  etrans; [apply IH; case_decide; lia | lia].
Qed.

Lemma last_access_le (ops : list (op K V)) k :
  (last_access ops k ≤ length ops)%nat.
Proof. apply (last_access_from_le 0 ops k 0). lia. Qed.

Lemma StronglySorted_filter {A} (R : relation A) (P : A → Prop)
    `{∀ x, Decision (P x)} (l : list A) :
  StronglySorted R l → StronglySorted R (filter P l).
Proof.
  induction 1 as [|x l Hl IH Hx]; [constructor|].
  rewrite filter_cons. case_decide; [|done].
  constructor; [done|].
  rewrite Forall_forall in Hx |- *.
  intros y Hy%list_elem_of_filter. naive_solver.
Qed.

Lemma StronglySorted_change {A} (R R' : relation A) (l : list A) :
  (∀ x y, x ∈ l → y ∈ l → R x y → R' x y) →
  StronglySorted R l → StronglySorted R' l.
Proof.
  intros HR. induction 1 as [|x l Hl IH Hx]; constructor.
  - apply IH. intros a b Ha Hb. apply HR; by right.
  - rewrite Forall_forall in Hx |- *. intros y Hy.
    apply HR; [by left | by right | auto].
Qed.

Lemma recency_sorted_untouched ops (o : op K V) ks :
  op_key o ∉ ks → recency_sorted ops ks → recency_sorted (ops ++ [o]) ks.
Proof.
  intros Hk. apply StronglySorted_change. intros x y Hx Hy.
  rewrite !last_access_snoc.
  destruct (decide (op_key o = x)) as [Ex|_]; [by rewrite Ex in Hk|].
  destruct (decide (op_key o = y)) as [Ey|_]; [by rewrite Ey in Hk|].
  done.
Qed.

Lemma recency_sorted_touch ops (o : op K V) ks :
  recency_sorted ops ks →
  recency_sorted (ops ++ [o]) (filter (λ x, x ≠ op_key o) ks ++ [op_key o]).
Proof.
  intros Hs. apply StronglySorted_app. split_and!.
  - intros x y Hx%list_elem_of_filter ->%list_elem_of_singleton.
    rewrite !last_access_snoc.
    destruct Hx as [Hx _].
    destruct (decide (op_key o = x)) as [Ex|_]; [by rewrite Ex in Hx|].
    rewrite decide_True by done.
    pose proof (last_access_le ops x). lia.
  - apply (recency_sorted_untouched ops o).
    + rewrite list_elem_of_filter. naive_solver.
    + by apply StronglySorted_filter.
  - repeat constructor.
Qed.

Lemma recency_sorted_tail (ops : list (op K V)) ks :
  recency_sorted ops ks → recency_sorted ops (tail ks).
Proof. destruct 1; [constructor | done]. Qed.

Lemma run_snoc n ops (o : op K V) :
  run n (ops ++ [o]) = apply_op (run n ops) o.
Proof. unfold run. by rewrite foldl_snoc. Qed.

Lemma touched_length_le k v es : (length (touched k v es) ≤ S (length es))%nat.
Proof.
  unfold touched, Map_delete. rewrite length_app. simpl.
  pose proof (length_filter (λ p : K * V, p.1 ≠ k) es). lia.
Qed.

(** What every map reached from [new LRUMap(n)] satisfies. *)
Lemma run_invariant n (ops : list (op K V)) :
  maxSize (run n ops) = n ∧ wf (run n ops)
  ∧ (size (run n ops) ≤ n)%nat ∧ recency_sorted ops (keys (run n ops)).
Proof.
  induction ops as [|o ops IH] using rev_ind.
  - unfold run, wf, keys, size, recency_sorted. simpl.
    split_and!; [done | constructor | lia | constructor].
  - rewrite run_snoc. destruct IH as (Hmax & Hwf & Hsz & Hso).
    set (m := run n ops) in *. destruct o as [k|k v]; cbn [apply_op].
    + (* get *)
      destruct (peek k m) as [v|] eqn:E.
      * rewrite (get_present k v m E). simpl.
        assert (k ∈ keys m) as Hin by (apply peek_Some_keys; eauto).
        unfold wf, keys, size in *. simpl. split_and!; [done|..].
        -- by apply touched_NoDup.
        -- rewrite touched_length by done. done.
        -- rewrite touched_keys.
           by apply (recency_sorted_touch ops (OpGet k)).
      * assert (k ∉ keys m) as Hk.
        { intros Hin%peek_Some_keys. rewrite E in Hin. by destruct Hin. }
        rewrite get_absent by done. simpl. split_and!; try done.
        by apply (recency_sorted_untouched ops (OpGet k)).
    + (* set *)
      pose proof (set_entries k v m Hwf) as He.
      pose proof (touched_NoDup k v (entries m) Hwf) as Hnd.
      pose proof (touched_length_le k v (entries m)) as Hle.
      assert (recency_sorted (ops ++ [OpSet k v])
                (touched k v (entries m)).*1) as Hso'.
      { rewrite touched_keys.
        apply (recency_sorted_touch ops (OpSet k v) _ Hso). }
      rewrite Hmax in He.
      split; [by rewrite set_maxSize|].
      unfold wf, keys, size in *. rewrite He.
      case_decide as Hc.
      * split_and!.
        -- rewrite fmap_tail.
           destruct ((touched k v (entries m)).*1); [constructor|].
           simpl. by apply NoDup_cons in Hnd as [_ ?].
        -- destruct (touched k v (entries m)); simpl in *; lia.
        -- rewrite fmap_tail. by apply recency_sorted_tail.
      * split_and!; [done | lia | done].
Qed.

Lemma recency_head_is_least (ops : list (op K V)) h r k0 :
  recency_sorted ops (h :: r) → k0 ∈ h :: r →
  k0 ∉ r ↔ ∀ k', k' ∈ h :: r → (last_access ops k0 ≤ last_access ops k')%nat.
Proof.
  intros Hs Hin. apply StronglySorted_cons in Hs as [Hh _].
  rewrite Forall_forall in Hh. split.
  - intros Hr k' Hk'. apply elem_of_cons in Hin as [->|]; [|done].
    apply elem_of_cons in Hk' as [->|Hk']; [lia|].
    specialize (Hh _ Hk'). simpl in Hh. lia.
  - intros Hmin Hr. specialize (Hh _ Hr). simpl in Hh.
    assert (h ∈ h :: r) as Hhin by left.
    specialize (Hmin h Hhin). lia.
Qed.

(** Inserting a new key into a full map: the entries are those of the
    map without its first entry, followed by the new pair. *)
Lemma set_full_entries k v m :
  wf m → size m = maxSize m → k ∉ keys m →
  entries (set k v m) = tail (entries m ++ [(k, v)]).
Proof.
  intros Hwf Hsz Hk. rewrite set_entries by done.
  rewrite touched_absent by done. unfold size in Hsz.
  rewrite decide_True; [done|]. rewrite length_app. simpl. lia.
Qed.

(** C6. A map built by [new LRUMap(n)] and any sequence of [get]/[set]
    calls holds at most [n] entries, and its keys are ordered by the time
    of their last access, where a [get] and a [set] of a key both count.
    Inserting a new key into the full map leaves [n] entries: the one key
    that disappears is the key whose last access is the oldest, every
    other key keeps its value, and the new key is present. A [get] of a
    present key returns its value and makes it the most recent entry; a
    [get] of an absent key returns nothing and leaves the map as it is. *)
Theorem lru_capacity_and_eviction (n : nat) (ops : list (op K V)) :
  let m := run n ops in
  (size m ≤ n)%nat
  ∧ recency_sorted ops (keys m)
  ∧ (∀ k v, size m = n → k ∉ keys m →
       size (set k v m) = n
       ∧ (∀ k0, k0 ∈ keys m →
            k0 ∉ keys (set k v m) ↔
            ∀ k', k' ∈ keys m →
                  (last_access ops k0 ≤ last_access ops k')%nat)
       ∧ (∀ k0, k0 ∈ keys m → k0 ∈ keys (set k v m) →
            peek k0 (set k v m) = peek k0 m)
       ∧ ((0 < n)%nat → peek k (set k v m) = Some v))
  ∧ (∀ k v, peek k m = Some v →
       get k m = (Some v, mk n (touched k v (entries m)))
       ∧ last (keys (get k m).2) = Some k)
  ∧ (∀ k, k ∉ keys m → get k m = (None, m)).
Proof.
  intros m. destruct (run_invariant n ops) as (Hmax & Hwf & Hsz & Hso).
  fold m in Hmax, Hwf, Hsz, Hso.
  split_and!; [done | done | | |].
  - intros k v Hfull Hk.
    pose proof (set_full_entries k v m Hwf) as He.
    rewrite Hmax in He. specialize (He Hfull Hk).
    unfold wf, size, keys, peek in *. rewrite He.
    destruct (entries m) as [|[h vh] r] eqn:Em; simpl in *.
    + split_and!; [done | | | lia].
      * intros k0 Hk0. by apply elem_of_nil in Hk0.
      * intros k0 Hk0. by apply elem_of_nil in Hk0.
    + split_and!.
      * rewrite length_app. simpl. lia.
      * intros k0 Hk0.
        rewrite <- (recency_head_is_least ops h (r.*1) k0 Hso Hk0).
        rewrite fmap_app. cbn [fmap list_fmap fst].
        rewrite elem_of_app, list_elem_of_singleton.
        split; [tauto|]. intros Hr [?| ->]; [done|].
        by apply Hk.
      * intros k0 Hk0 Hk0'.
        assert (k0 ≠ k) as Hne by (intros ->; by apply Hk).
        rewrite Map_get_app_ne by done.
        rewrite fmap_app in Hk0'. cbn [fmap list_fmap fst] in Hk0'.
        rewrite elem_of_app, list_elem_of_singleton in Hk0'.
        destruct Hk0' as [Hr|?]; [|done].
        apply NoDup_cons in Hwf as [Hh _].
        rewrite decide_False; [done|]. intros ->. done.
      * intros _. apply Map_get_app_r.
        intros Hr. apply Hk. by right.
  - intros k v E. rewrite (get_present k v m E), Hmax. split; [done|].
    unfold keys. simpl. rewrite touched_keys. apply last_snoc.
  - intros k Hk. by apply get_absent.
Qed.

End LRUMapFacts.

Section LRUMapStoreFacts.
Context {K V : Type} `{EqDecision K}.
Implicit Types (k : K) (v : V) (m : LRUMap.t K V).

Import LRUMap.

Lemma wf_set k v m : wf m → wf (set k v m).
Proof.
  intros Hwf. unfold wf, keys. rewrite set_entries by done.
  pose proof (touched_NoDup k v (entries m) Hwf) as Hnd.
  case_decide; [|done]. rewrite fmap_tail.
  destruct ((touched k v (entries m)).*1); [constructor|].
  simpl. by apply NoDup_cons in Hnd as [_ ?].
Qed.

Lemma wf_get k m : wf m → wf (get k m).2.
Proof.
  intros Hwf. destruct (peek k m) as [v|] eqn:E.
  - rewrite (get_present k v m E). by apply touched_NoDup.
  - rewrite get_absent; [done|].
    intros Hin%peek_Some_keys. rewrite E in Hin. by destruct Hin.
Qed.

Lemma wf_delete k m : wf m → wf (delete k m).
Proof.
  unfold wf, keys, delete. simpl. intros Hwf.
  rewrite Map_delete_keys. by apply NoDup_filter.
Qed.

Lemma maxSize_get k m : maxSize (get k m).2 = maxSize m.
Proof.
  unfold get. destruct (Map_has k (entries m)); [|done].
  by destruct (Map_get k (entries m)).
Qed.

Lemma peek_set_same k v m :
  wf m → (0 < maxSize m)%nat → peek k (set k v m) = Some v.
Proof.
  intros Hwf Hpos. unfold peek. rewrite set_entries by done.
  unfold touched.
  pose proof (Map_delete_not_in k (entries m)) as Hk.
  destruct (Map_delete k (entries m)) as [|[k' v'] r]; simpl in *.
  - rewrite decide_False by lia. simpl. by rewrite decide_True.
  - apply not_elem_of_cons in Hk as [Hne Hr].
    case_decide; simpl.
    + by apply Map_get_app_r.
    + rewrite decide_False by congruence. by apply Map_get_app_r.
Qed.

Lemma peek_get_same k v m : peek k m = Some v → peek k (get k m).2 = Some v.
Proof.
  intros E. rewrite (get_present k v m E). unfold peek. simpl.
  apply Map_get_app_r, Map_delete_not_in.
Qed.

Lemma peek_delete_same k m : peek k (delete k m) = None.
Proof. unfold peek, delete. simpl. apply Map_get_None, Map_delete_not_in. Qed.

End LRUMapStoreFacts.

(** Capacity 2: after [set a], [set b], [get a], inserting [c] evicts [b],
    the key touched least recently, and keeps [a]. *)
Example lru_get_protects :
  LRUMap.entries
    (LRUMap.run 2 [LRUMap.OpSet "a" 1; LRUMap.OpSet "b" 2; LRUMap.OpGet "a";
                   LRUMap.OpSet "c" 3])
  = [("a", 1); ("c", 3)].
Proof. reflexivity. Qed.

(** Without the [get], the same insertion evicts [a]. *)
Example lru_insert_evicts_oldest :
  LRUMap.entries
    (LRUMap.run 2 [LRUMap.OpSet "a" 1; LRUMap.OpSet "b" 2; LRUMap.OpSet "c" 3])
  = [("b", 2); ("c", 3)].
Proof. reflexivity. Qed.

Lemma lru_capacity_and_eviction_witness :
  let ops := [LRUMap.OpSet "a" 1; LRUMap.OpSet "b" 2; LRUMap.OpGet "a"] in
  let m := LRUMap.run 2 ops in
  LRUMap.size (LRUMap.set "c" 3 m) = 2%nat
  ∧ ("b" ∉ LRUMap.keys (LRUMap.set "c" 3 m))
  ∧ LRUMap.peek "a" (LRUMap.set "c" 3 m) = Some 1
  ∧ LRUMap.peek "c" (LRUMap.set "c" 3 m) = Some 3.
Proof.
  intros ops m.
  destruct (lru_capacity_and_eviction 2 ops) as (_ & _ & Hset & _ & _).
  fold m in Hset.
  destruct (Hset "c" 3) as (Hsz & Hev & Hkeep & Hnew).
  - reflexivity.
  - apply (bool_decide_unpack _). vm_compute. exact I.
  - split_and!.
    + exact Hsz.
    + apply (Hev "b"); [apply (bool_decide_unpack _); vm_compute; exact I|].
      apply Forall_forall.
      apply (bool_decide_unpack _). vm_compute. exact I.
    + rewrite (Hkeep "a"); [reflexivity | |];
        apply (bool_decide_unpack _); vm_compute; exact I.
    + apply Hnew. lia.
Defined.

(** * Properties of the rate limiter *)

Section RateLimitFacts.
Import RateLimit.
Implicit Types (st : store) (key : string).

Lemma ensure_key_spec key st :
  LRUMap.wf st → (0 < LRUMap.maxSize st)%nat →
  LRUMap.peek key (ensure_key key st) = Some (timestamps key st)
  ∧ LRUMap.wf (ensure_key key st)
  ∧ LRUMap.maxSize (ensure_key key st) = LRUMap.maxSize st.
Proof.
  intros Hwf Hpos. unfold ensure_key, LRUMap.has, timestamps, LRUMap.peek.
  unfold LRUMap.Map_has.
  destruct (LRUMap.Map_get key (LRUMap.entries st)) as [ts|] eqn:E.
  - by rewrite E.
  - split_and!; [|by apply wf_set|done].
    by apply (peek_set_same key [] st).
Qed.

(** One call: the decision, and the timestamps held afterwards. *)
Lemma rateLimiter_step (L W : Z) xff now st :
  LRUMap.wf st → (0 < LRUMap.maxSize st)%nat →
  let key := client_key xff in
  let valid := within (now - W) (timestamps key st) in
  ∃ st', LRUMap.wf st' ∧ LRUMap.maxSize st' = LRUMap.maxSize st ∧
    if decide (L ≤ Z.of_nat (length valid)) then
      rateLimiter L W xff now st = (TooManyRequests 0, st')
      ∧ timestamps key st' = timestamps key st
    else
      rateLimiter L W xff now st = (Next, st')
      ∧ timestamps key st' = valid ++ [now].
Proof.
  intros Hwf Hpos key valid.
  destruct (ensure_key_spec key st Hwf Hpos) as (Hpeek & Hwf1 & Hmax1).
  unfold rateLimiter. fold key.
  rewrite (get_present _ _ _ Hpeek).
  set (st2 := LRUMap.mk _ _).
  assert (LRUMap.wf st2) as Hwf2 by (by apply touched_NoDup).
  assert (LRUMap.maxSize st2 = LRUMap.maxSize st) as Hmax2 by done.
  fold valid. case_decide as HL.
  - exists st2. split_and!; [done..| |].
    + replace (now - W + W - now) with 0 by lia. done.
    + unfold timestamps at 1, LRUMap.peek. simpl. unfold LRUMap.touched.
      by rewrite Map_get_app_r by apply Map_delete_not_in.
  - exists (LRUMap.set key (valid ++ [now]) st2).
    split_and!; [by apply wf_set | by rewrite set_maxSize | done |].
    unfold timestamps at 1. rewrite peek_set_same; [done..|lia].
Qed.

Lemma within_all lo (ts : list Z) : Forall (λ t, lo < t) ts → within lo ts = ts.
Proof.
  unfold within. induction 1 as [|x l Hx Hl IH]; [done|].
  rewrite filter_cons_True by done. by rewrite IH.
Qed.

Lemma within_none lo (ts : list Z) : Forall (λ t, t ≤ lo) ts → within lo ts = [].
Proof.
  unfold within. induction 1 as [|x l Hx Hl IH]; [done|].
  rewrite filter_cons_False by lia. done.
Qed.

(** C5 (as amended). For a limiter with ceiling [L] and window [W], a call
    at time [now] keeps exactly the client's timestamps that are newer
    than [now - W] (a timestamp equal to [now - W] is dropped); the call
    is let through if and only if fewer than [L] of them remain, and then
    [now] is recorded after them; otherwise the answer is 429 with a
    [retryAfter] value and nothing is recorded. With ceiling 3, a client
    with no recorded event makes three calls within one window, all let
    through; a fourth call while the first is still inside the window is
    refused; a call made once [W] has elapsed since the last recorded
    event is let through again. *)
Theorem rateLimiter_sliding_window (L W : Z) (xff : option string)
    (now : Z) (st : store) :
  LRUMap.wf st → (0 < LRUMap.maxSize st)%nat →
  let key := client_key xff in
  let remaining := within (now - W) (timestamps key st) in
  let r := rateLimiter L W xff now st in
  (r.1 = Next ↔ Z.of_nat (length remaining) < L)
  ∧ (r.1 = Next → timestamps key r.2 = remaining ++ [now])
  ∧ (r.1 ≠ Next →
       r.1 = TooManyRequests 0 ∧ timestamps key r.2 = timestamps key st)
  ∧ (∀ t1 t2 t3 t4 t5,
       timestamps key st = [] →
       t1 ≤ t2 → t2 ≤ t3 → t3 ≤ t4 → t4 - W < t1 → t3 + W ≤ t5 →
       (calls 3 W xff [t1; t2; t3; t4; t5] st).1
       = [Next; Next; Next; TooManyRequests 0; Next]).
Proof.
  intros Hwf Hpos key remaining r.
  destruct (rateLimiter_step L W xff now st Hwf Hpos)
    as (st' & _ & _ & Hstep).
  fold key remaining in Hstep. split_and!.
  - subst r. case_decide; destruct Hstep as [-> _]; simpl; split;
      intros; try done; lia.
  - subst r. case_decide; destruct Hstep as [-> Hts]; simpl; [done|].
    intros _. exact Hts.
  - subst r. case_decide; destruct Hstep as [-> Hts]; simpl; [|done].
    intros _. by split.
  - clear st' Hstep remaining r. intros t1 t2 t3 t4 t5 Hts H12 H23 H34 H41 H35.
    cbn [calls].
    destruct (rateLimiter_step 3 W xff t1 st Hwf Hpos)
      as (st1 & Hwf1 & Hmax1 & Hs1).
    fold key in Hs1. rewrite Hts in Hs1. cbn in Hs1.
    destruct Hs1 as [-> Hts1]. rewrite <- Hmax1 in Hpos.
    destruct (rateLimiter_step 3 W xff t2 st1 Hwf1 Hpos)
      as (st2 & Hwf2 & Hmax2 & Hs2).
    fold key in Hs2. rewrite Hts1 in Hs2.
    rewrite within_all in Hs2 by (repeat constructor; lia). cbn in Hs2.
    destruct Hs2 as [-> Hts2]. rewrite <- Hmax2 in Hpos.
    destruct (rateLimiter_step 3 W xff t3 st2 Hwf2 Hpos)
      as (st3 & Hwf3 & Hmax3 & Hs3).
    fold key in Hs3. rewrite Hts2 in Hs3.
    rewrite within_all in Hs3 by (repeat constructor; lia). cbn in Hs3.
    destruct Hs3 as [-> Hts3]. rewrite <- Hmax3 in Hpos.
    destruct (rateLimiter_step 3 W xff t4 st3 Hwf3 Hpos)
      as (st4 & Hwf4 & Hmax4 & Hs4).
    fold key in Hs4. rewrite Hts3 in Hs4.
    rewrite within_all in Hs4 by (repeat constructor; lia). cbn in Hs4.
    destruct Hs4 as [-> Hts4]. rewrite <- Hmax4 in Hpos.
    destruct (rateLimiter_step 3 W xff t5 st4 Hwf4 Hpos)
      as (st5 & Hwf5 & Hmax5 & Hs5).
    fold key in Hs5. rewrite Hts4 in Hs5.
    rewrite within_none in Hs5 by (repeat constructor; lia). cbn in Hs5.
    destruct Hs5 as [-> Hts5]. done.
Qed.

End RateLimitFacts.

Lemma rateLimiter_sliding_window_witness :
  (RateLimit.calls 3 1000 (Some "10.0.0.1") [0; 100; 200; 300; 1200]
     RateLimit.rateLimitStore).1
  = [RateLimit.Next; RateLimit.Next; RateLimit.Next;
     RateLimit.TooManyRequests 0; RateLimit.Next].
Proof.
  assert (LRUMap.wf RateLimit.rateLimitStore) as Hwf by constructor.
  assert (0 < LRUMap.maxSize RateLimit.rateLimitStore)%nat as Hpos
    by (apply (bool_decide_unpack _); vm_compute; exact I).
  destruct (rateLimiter_sliding_window 3 1000 (Some "10.0.0.1") 0
              RateLimit.rateLimitStore Hwf Hpos) as (_ & _ & _ & Hrun).
  apply Hrun; [reflexivity | lia..].
Defined.

(** The same decision read with the words of the specification (discard
    what is older than [now - W], allow when fewer than [L] remain) differs
    from the code when a recorded event is exactly [W] old: the code lets
    the call through, the specification's window still counts the event. *)
Lemma rateLimiter_boundary_counterexample :
  let st := (RateLimit.rateLimiter 1 1000 (Some "10.0.0.1") 0
               RateLimit.rateLimitStore).2 in
  RateLimit.timestamps "10.0.0.1" st = [0]
  ∧ (RateLimit.rateLimiter 1 1000 (Some "10.0.0.1") 1000 st).1 = RateLimit.Next
  ∧ ¬ RateLimit.spec_allowed 1 1000 1000 (RateLimit.timestamps "10.0.0.1" st).
Proof.
  split_and!; [reflexivity | reflexivity |].
  unfold RateLimit.spec_allowed. vm_compute. intros Hlt. discriminate Hlt.
Qed.

(** * Properties of the anti-forgery token check *)

Section CsrfFacts.
Import Csrf.

Lemma truthy_nonempty (s : string) : s ≠ "" → JS.truthy (Some s) = true.
Proof. intros Hs. unfold JS.truthy. by rewrite bool_decide_eq_false_2. Qed.

(** C9. For a session whose stored token equals the presented one: when
    the token was issued more than 24 hours before the check, validation
    fails and the session has no entry in the token store afterwards; when
    it was issued less than 24 hours before, validation succeeds (and the
    entry stays). *)
Theorem csrf_expired_token_removed (userID tok : string) (issued now : Z)
    (st : store) :
  userID ≠ "" → tok ≠ "" →
  LRUMap.peek userID st = Some (mk_entry tok issued) →
  (CSRF_TOKEN_EXPIRY < now - issued →
     (validate userID tok now st).1 = false
     ∧ LRUMap.has userID (validate userID tok now st).2 = false
     ∧ LRUMap.peek userID (validate userID tok now st).2 = None)
  ∧ (now - issued < CSRF_TOKEN_EXPIRY →
       (validate userID tok now st).1 = true
       ∧ LRUMap.peek userID (validate userID tok now st).2
         = Some (mk_entry tok issued)).
Proof.
  intros Hu Ht Hpeek. unfold validate, csrfProtection.
  rewrite !truthy_nonempty by done.
  cbn [negb orb default from_option id].
  rewrite (get_present _ _ _ Hpeek). cbn [token timestamp].
  rewrite bool_decide_eq_true_2 by done. cbn [negb].
  split; intros Hage.
  - rewrite decide_True by done. cbn [fst snd].
    split_and!; [done | | apply peek_delete_same].
    unfold LRUMap.has. apply Map_has_false. apply Map_delete_not_in.
  - rewrite decide_False by lia. cbn [fst snd]. split; [done|].
    unfold LRUMap.peek. cbn [LRUMap.entries]. unfold LRUMap.touched.
    apply Map_get_app_r, Map_delete_not_in.
Qed.

End CsrfFacts.

(** A token issued at time 0 and presented 24 h and 1 s later. *)
Lemma csrf_expired_token_removed_witness :
  let st := Csrf.issue "user-1" "c0ffee" 0 Csrf.csrfTokenStore in
  let late := 24 * 60 * 60 * 1000 + 1000 in
  (Csrf.validate "user-1" "c0ffee" late st).1 = false
  ∧ LRUMap.has "user-1" (Csrf.validate "user-1" "c0ffee" late st).2 = false.
Proof.
  intros st late.
  destruct (csrf_expired_token_removed "user-1" "c0ffee" 0 late st)
    as [Hexpired _]; [discriminate | discriminate | reflexivity |].
  destruct Hexpired as (Hv & Hh & _); [reflexivity|].
  split; [exact Hv | exact Hh].
Defined.

(** * Properties of the shared rendering process *)

Section BrowserFacts.
Import Browser.
Variable h : host.
Hypothesis Hinstalled : playwright_installed h = true.
Hypothesis Hlaunch : launch_succeeds h = true.

(** A loaded module and a connected handle below the restart threshold:
    the call returns that handle and launches nothing. *)
Lemma getBrowser_reuses b c conn l :
  (c < MAX_SCREENSHOTS_BEFORE_RESTART)%nat → b ∈ conn →
  getBrowser h (mk_state true (Some b) c conn l)
  = (Returned (Some b), mk_state true (Some b) c conn l).
Proof.
  intros Hc Hb. unfold getBrowser. cbn [run_alone resume playwright].
  cbn [negb persistentBrowser screenshotCount].
  rewrite decide_False by lia.
  unfold reuse_or_launch, isConnected. cbn [persistentBrowser connected].
  by rewrite bool_decide_eq_true_2 by done.
Qed.

(** The first call against the unstarted process launches handle 0. *)
Lemma getBrowser_first :
  getBrowser h unstarted = (Returned (Some 0%nat), mk_state true (Some 0%nat) 0 [0%nat] 1).
Proof.
  unfold getBrowser, unstarted. cbn [run_alone resume playwright].
  rewrite Hinstalled. cbn [run_alone resume negb persistentBrowser].
  unfold reuse_or_launch, launch. cbn [persistentBrowser]. rewrite Hlaunch.
  reflexivity.
Qed.

Lemma acquire_in_turn_reuses n b c conn l :
  (c < MAX_SCREENSHOTS_BEFORE_RESTART)%nat → b ∈ conn →
  acquire_in_turn h n (mk_state true (Some b) c conn l)
  = (replicate n (Returned (Some b)), mk_state true (Some b) c conn l).
Proof.
  intros Hc Hb. induction n as [|n IH]; [done|].
  cbn [acquire_in_turn]. rewrite getBrowser_reuses by done.
  by rewrite IH.
Qed.

(** ** Calls in flight together, turn by turn *)

Lemma turn_start n pb c conn l :
  turn h (replicate n Start) (mk_state false pb c conn l)
  = (replicate n AwaitImport, mk_state false pb c conn l).
Proof. induction n as [|n IH]; [done|]. cbn. by rewrite IH. Qed.

Lemma turn_import n pw pb c conn l :
  turn h (replicate n AwaitImport) (mk_state pw pb c conn l)
  = (replicate n (AwaitPlaywright true),
     mk_state (pw || negb (Nat.eqb n 0)) pb c conn l).
Proof.
  revert pw. induction n as [|n IH]; intros pw.
  - cbn. by rewrite orb_false_r.
  - cbn [replicate turn resume]. rewrite Hinstalled.
    cbn [persistentBrowser screenshotCount connected launches].
    rewrite IH. cbn. by rewrite orb_true_r.
Qed.

Lemma turn_launch n pw c conn l :
  turn h (replicate n (AwaitPlaywright true)) (mk_state pw None c conn l)
  = ((λ i, AwaitLaunch (Some i)) <$> seq l n,
     mk_state pw None c (conn ++ seq l n) (l + n)).
Proof.
  revert conn l. induction n as [|n IH]; intros conn l.
  - cbn. by rewrite app_nil_r, Nat.add_0_r.
  - cbn [replicate turn resume negb persistentBrowser].
    unfold reuse_or_launch, launch. cbn [persistentBrowser]. rewrite Hlaunch.
    cbn [playwright persistentBrowser screenshotCount connected launches].
    rewrite IH. cbn [seq fmap list_fmap].
    rewrite <- app_assoc. cbn [app].
    by replace (S l + n)%nat with (l + S n)%nat by lia.
Qed.

Lemma turn_assign (bs : list handle) pw pb c conn l :
  turn h ((λ i, AwaitLaunch (Some i)) <$> bs) (mk_state pw pb c conn l)
  = ((λ i, Done (Returned (Some i))) <$> bs,
     mk_state pw (from_option Some pb (last bs)) c conn l).
Proof.
  revert pb. induction bs as [|b bs IH]; intros pb; [done|].
  cbn [fmap list_fmap turn resume].
  cbn [playwright persistentBrowser screenshotCount connected launches].
  fold (fmap (M := list) (λ i, AwaitLaunch (Some i)) bs).
  rewrite IH. f_equal. f_equal.
  destruct bs as [|b' bs]; [done|]. rewrite last_cons_cons.
  destruct (last (b' :: bs)) eqn:E; [done|]. by apply last_None in E.
Qed.

Lemma turn_done (bs : list handle) st :
  turn h ((λ i, Done (Returned (Some i))) <$> bs) st
  = ((λ i, Done (Returned (Some i))) <$> bs, st).
Proof.
  induction bs as [|b bs IH]; [done|].
  cbn [fmap list_fmap turn resume].
  fold (fmap (M := list) (λ i, Done (Returned (Some i))) bs).
  by rewrite IH.
Qed.

Lemma acquire_together_unstarted n :
  acquire_together h n unstarted
  = ((λ i, Done (Returned (Some i))) <$> seq 0 n,
     mk_state (negb (Nat.eqb n 0)) (last (seq 0 n)) 0 (seq 0 n) n).
Proof.
  unfold acquire_together, unstarted. cbn [turns].
  rewrite turn_start, turn_import, turn_launch, turn_assign.
  cbn [orb app Nat.add].
  rewrite !turn_done.
  assert (∀ o : option handle, from_option Some None o = o) as ->
    by (by intros []).
  reflexivity.
Qed.

(** C4 (as amended). With the rendering module installed and launches
    succeeding, starting from the unstarted process: calls of
    [getBrowser()] made in turn, each awaited before the next, cause
    exactly one launch and all receive its handle; calls in flight
    together each find no handle and each start a launch of their own, so
    [n] such calls cause [n] launches and the [i]-th caller receives the
    handle of the [i]-th launch. *)
Theorem launch_once_only_in_turn (n : nat) :
  ((0 < n)%nat →
     (acquire_in_turn h n unstarted).1 = replicate n (Returned (Some 0%nat))
     ∧ launches (acquire_in_turn h n unstarted).2 = 1%nat)
  ∧ (acquire_together h n unstarted).1
    = (λ i, Done (Returned (Some i))) <$> seq 0 n
  ∧ launches (acquire_together h n unstarted).2 = n.
Proof.
  split; [|by rewrite acquire_together_unstarted].
  destruct n as [|n]; [lia|]. intros _.
  cbn [acquire_in_turn]. rewrite getBrowser_first.
  rewrite acquire_in_turn_reuses;
    [done | unfold MAX_SCREENSHOTS_BEFORE_RESTART; lia | by left].
Qed.

End BrowserFacts.

Lemma launch_once_only_in_turn_witness :
  let h := Browser.mk_host true true in
  (Browser.acquire_in_turn h 10 Browser.unstarted).1
  = replicate 10 (Browser.Returned (Some 0%nat))
  ∧ Browser.launches (Browser.acquire_in_turn h 10 Browser.unstarted).2 = 1%nat.
Proof.
  intros h.
  destruct (launch_once_only_in_turn h eq_refl eq_refl 10) as [Hturn _].
  apply Hturn. lia.
Defined.

(** Ten calls made together against the unstarted process: ten launches,
    and each caller holds the handle of its own launch. *)
Lemma single_flight_counterexample :
  let h := Browser.mk_host true true in
  let r := Browser.acquire_together h 10 Browser.unstarted in
  Browser.launches r.2 = 10%nat
  ∧ r.1 = (λ i, Browser.Done (Browser.Returned (Some i))) <$> seq 0 10
  ∧ Browser.launches r.2 ≠ 1%nat.
Proof.
  vm_compute. split_and!; [reflexivity | reflexivity |].
  intros Hone. discriminate Hone.
Qed.

(** * Properties of the screenshot route *)

Section ImageRouteFacts.
Import JS Server.

Lemma lt_spec (q : Q) (z : Z) : lt (Fin q) (of_Z z) = false ↔ (inject_Z z <= q)%Q.
Proof.
  unfold lt, of_Z, Qlt_bool. rewrite negb_false_iff. apply Qle_bool_iff.
Qed.

Lemma gt_spec (q : Q) (z : Z) : gt (Fin q) (of_Z z) = false ↔ (q <= inject_Z z)%Q.
Proof.
  unfold gt, lt, of_Z, Qlt_bool. rewrite negb_false_iff. apply Qle_bool_iff.
Qed.

Lemma range_check (lo hi : Z) (x : number) :
  isNaN x || lt x (of_Z lo) || gt x (of_Z hi) = false ↔ in_range lo hi x.
Proof.
  destruct x as [|[]|q]; cbn [isNaN orb in_range].
  - split; [discriminate | intros []].
  - split; [discriminate | intros []].
  - split; [|intros []]. unfold gt, lt, of_Z. cbn [orb]. discriminate.
  - rewrite orb_false_iff. by rewrite lt_spec, gt_spec.
Qed.

(** The dimension test is the conjunction of three inclusive ranges. *)
Lemma validDimensions_spec (width height scale : number) :
  validDimensions width height scale = true ↔
  in_range 100 1200 width ∧ in_range 100 1000 height ∧ in_range 1 4 scale.
Proof.
  rewrite <- !range_check. unfold validDimensions.
  rewrite negb_true_iff.
  destruct (isNaN width), (isNaN height), (isNaN scale),
    (lt width (of_Z 100)), (gt width (of_Z 1200)),
    (lt height (of_Z 100)), (gt height (of_Z 1000)),
    (lt scale (of_Z 1)), (gt scale (of_Z 4)); simpl; naive_solver.
Qed.

(** Once the dimension test has passed, no later answer is
    "Invalid dimensions". *)
Lemma past_validation e req st :
  validDimensions (width_of req) (height_of req) (scale_of req) = true →
  (image_route e req st).1 ≠ JsonError 400 "Invalid dimensions".
Proof.
  intros Hv. unfold image_route. rewrite Hv. cbn [negb].
  unfold try_block, catch_block.
  repeat case_match; simpl; discriminate.
Qed.

(** C8. The route goes past its dimension test if and only if the width
    lies in [100, 1200], the height in [100, 1000] and the scale in
    [1, 4], all bounds included; otherwise it answers 400 "Invalid
    dimensions" and changes nothing. A width of 50 fails whatever the
    rest, a scale of 5 fails whatever the rest, and 1200 x 1000 at scale
    4 passes. *)
Theorem render_validation_inclusive (e : image_host) (req : image_request)
    (st : state) :
  let width := width_of req in
  let height := height_of req in
  let scale := scale_of req in
  ((image_route e req st).1 ≠ JsonError 400 "Invalid dimensions" ↔
     in_range 100 1200 width ∧ in_range 100 1000 height ∧ in_range 1 4 scale)
  ∧ (¬ (in_range 100 1200 width ∧ in_range 100 1000 height
        ∧ in_range 1 4 scale) →
     image_route e req st = (JsonError 400 "Invalid dimensions", st))
  ∧ (∀ h s, validDimensions (of_Z 50) h s = false)
  ∧ (∀ w h, validDimensions w h (of_Z 5) = false)
  ∧ validDimensions (of_Z 1200) (of_Z 1000) (of_Z 4) = true.
Proof.
  intros width height scale.
  assert (¬ (in_range 100 1200 width ∧ in_range 100 1000 height
             ∧ in_range 1 4 scale) →
          image_route e req st = (JsonError 400 "Invalid dimensions", st))
    as Hreject.
  { rewrite <- validDimensions_spec. intros Hn%not_true_is_false.
    unfold image_route. fold width height scale. by rewrite Hn. }
  split_and!.
  - split.
    + intros Hne.
      destruct (validDimensions width height scale) eqn:Hv.
      * by apply validDimensions_spec.
      * exfalso. apply Hne. rewrite Hreject; [done|].
        rewrite <- validDimensions_spec. congruence.
    + intros Hr%validDimensions_spec. by apply past_validation.
  - exact Hreject.
  - intros h s. destruct (validDimensions (of_Z 50) h s) eqn:Hv; [|done].
    apply validDimensions_spec in Hv as [[Hlo _] _].
    exfalso. revert Hlo. by vm_compute.
  - intros w h. destruct (validDimensions w h (of_Z 5)) eqn:Hv; [|done].
    apply validDimensions_spec in Hv as (_ & _ & [_ Hhi]).
    exfalso. revert Hhi. by vm_compute.
  - reflexivity.
Qed.

(** C7. When the dimensions pass the test and the cleaned user name is a
    well-formed handle with no row in the profile cache, the route
    answers 404 "Profile not cached" and leaves every store, the browser
    state included, as it was: nothing is rendered. *)
Theorem render_requires_cached_profile (e : image_host)
    (req : image_request) (st : state) :
  validDimensions (width_of req) (height_of req) (scale_of req) = true →
  is_handle (cleanUsername (username req)) = true →
  Db.getCachedProfile (db st) (cleanUsername (username req)) = None →
  image_route e req st
  = (JsonError 404 "Profile not cached. View the profile first.", st).
Proof.
  intros Hv Hh Hc. unfold image_route. by rewrite Hv, Hh, Hc.
Qed.

(** C10. An absent [w], [h] or [scale] parameter is replaced by 393, 852
    or 3 before the dimension test; the theme is "light" exactly when the
    [theme] parameter is the string "light" and "dark" in every other
    case; the three defaults lie within their ranges, a request without
    dimension parameters goes past the test, and its cache key is built
    from the defaults. *)
Theorem render_defaults (req : image_request) :
  (query_w req = None → width_of req = of_Z 393)
  ∧ (query_h req = None → height_of req = of_Z 852)
  ∧ (query_scale req = None → scale_of req = of_Z 3)
  ∧ (theme_of req = "light" ↔ query_theme req = Some "light")
  ∧ (query_theme req ≠ Some "light" → theme_of req = "dark")
  ∧ (in_range 100 1200 (of_Z 393) ∧ in_range 100 1000 (of_Z 852)
     ∧ in_range 1 4 (of_Z 3))
  ∧ (query_w req = None → query_h req = None → query_scale req = None →
     validDimensions (width_of req) (height_of req) (scale_of req) = true
     ∧ ∀ clean,
         cacheKey clean (width_of req) (height_of req) (scale_of req)
           (theme_of req)
         = clean +:+ "_393x852_3_" +:+ theme_of req).
Proof.
  unfold width_of, height_of, scale_of, theme_of.
  refine (conj _ (conj _ (conj _ (conj _ (conj _
            (conj (conj (conj _ _) (conj (conj _ _) (conj _ _))) _))))));
    try (unfold Qle; simpl; lia).
  - by intros ->.
  - by intros ->.
  - by intros ->.
  - case_bool_decide; naive_solver.
  - intros Hn. by rewrite bool_decide_eq_false_2.
  - intros -> -> ->. split; [reflexivity|].
    intros clean. unfold cacheKey. cbn [or_default].
    change (numToString (parseInt "393")) with "393".
    change (numToString (parseInt "852")) with "852".
    change (numToString (parseFloat "3")) with "3".
    reflexivity.
Qed.

End ImageRouteFacts.

(** ** The capture succeeds and the cache write fails *)

(** C1. Evaluation at the failing input: the profile is cached, the
    screenshot is captured, and the write to [ImageCache] throws. The
    exception reaches the route's [catch], which answers 500 "Failed to
    generate image": the captured bytes are not returned (with a successful
    write the same request returns them). *)
Lemma cache_write_failure_loses_render :
  let req := Fixtures.plain_image_request "jack" in
  let st := Fixtures.server_with_profile "jack" in
  (Server.image_route (Fixtures.capture_host false) req st).1
  = Server.JsonError 500 "Failed to generate image"
  ∧ Browser.screenshotCount
      (Server.browser (Server.image_route (Fixtures.capture_host false) req st).2)
    = 1%nat
  ∧ (Server.image_route (Fixtures.capture_host true) req st).1
    = Server.Png Fixtures.png.
Proof. vm_compute. split_and!; reflexivity. Qed.

Lemma render_requires_cached_profile_witness :
  Server.image_route (Fixtures.capture_host true)
    (Fixtures.plain_image_request "nobody") (Fixtures.server_with_profile "jack")
  = (Server.JsonError 404 "Profile not cached. View the profile first.",
     Fixtures.server_with_profile "jack").
Proof.
  apply render_requires_cached_profile; vm_compute; reflexivity.
Defined.

Lemma render_validation_inclusive_witness :
  let req := Server.mk_image_request "jack" (Some "50") None None None in
  Server.image_route (Fixtures.capture_host true) req
    (Fixtures.server_with_profile "jack")
  = (Server.JsonError 400 "Invalid dimensions",
     Fixtures.server_with_profile "jack").
Proof.
  intros req.
  destruct (render_validation_inclusive (Fixtures.capture_host true) req
              (Fixtures.server_with_profile "jack")) as (_ & Hreject & _).
  apply Hreject. intros [[Hlo _] _]. revert Hlo. vm_compute.
  intros Hlo. apply Hlo. reflexivity.
Defined.

Lemma render_defaults_witness :
  let req := Fixtures.plain_image_request "jack" in
  Server.validDimensions (Server.width_of req) (Server.height_of req)
    (Server.scale_of req) = true
  ∧ Server.cacheKey "jack" (Server.width_of req) (Server.height_of req)
      (Server.scale_of req) (Server.theme_of req)
    = "jack_393x852_3_dark".
Proof.
  intros req.
  destruct (render_defaults req) as (_ & _ & _ & _ & _ & _ & Hdef).
  destruct Hdef as [Hv Hkey]; [reflexivity..|].
  split; [exact Hv | apply (Hkey "jack")].
Defined.

(** Requests as they arrive: [scale=5] is refused, the largest admitted
    dimensions are served, and a request without parameters finds the image
    cached under the key built from the defaults. *)
Example image_route_scale_5 :
  (Server.image_route (Fixtures.capture_host true)
     (Server.mk_image_request "jack" None None (Some "5") None)
     (Fixtures.server_with_profile "jack")).1
  = Server.JsonError 400 "Invalid dimensions".
Proof. vm_compute. reflexivity. Qed.

Example image_route_largest :
  (Server.image_route (Fixtures.capture_host true)
     (Server.mk_image_request "jack" (Some "1200") (Some "1000") (Some "4")
        (Some "light"))
     (Fixtures.server_with_profile "jack")).1
  = Server.Png Fixtures.png.
Proof. vm_compute. reflexivity. Qed.

Example image_route_default_key_hit :
  let st := Fixtures.server_with_profile "jack" in
  let cached :=
    Server.set_db
      (Db.setCachedImage (Server.db st) "jack_393x852_3_dark" [Byte.x01] 4000)
      st in
  Server.image_route (Fixtures.capture_host true)
    (Fixtures.plain_image_request "@Jack") cached
  = (Server.Png [Byte.x01], cached).
Proof. vm_compute. reflexivity. Qed.

(** ** One store for every limiter *)

(** C2. Evaluation at the failing input: one client sends two profile
    requests answered from the cache and then a request for a profile that
    is not cached. The global limiter has recorded the three requests under
    the client's key in the shared store, the 3-per-day limiter counts them,
    and the third request is refused with 429 although the 3-per-day
    limiter has recorded nothing; on a store without those events it lets
    the same call through. The cache hits themselves changed the list the
    3-per-day limiter reads. *)
Lemma broad_events_count_toward_profile_limit :
  let st0 := Fixtures.server_with_profile "alice" in
  let r1 := Server.serve_user 1000 (Fixtures.profile_host 1000)
              (Fixtures.profile_request "alice") st0 in
  let r2 := Server.serve_user 2000 (Fixtures.profile_host 2000)
              (Fixtures.profile_request "alice") r1.2 in
  let r3 := Server.serve_user 3000 (Fixtures.profile_host 3000)
              (Fixtures.profile_request "bob") r2.2 in
  r1.1 = Server.JsonData "alice-profile"
  ∧ r2.1 = Server.JsonData "alice-profile"
  ∧ RateLimit.timestamps Fixtures.ip (Server.rateLimitStore st0) = []
  ∧ RateLimit.timestamps Fixtures.ip (Server.rateLimitStore r2.2) = [1000; 2000]
  ∧ r3.1 = Server.RateLimited
             "Daily limit reached. Try again tomorrow or use a previously searched profile."
             86398
  ∧ (RateLimit.profileLimiter (Some Fixtures.ip) 3000 RateLimit.rateLimitStore).1
    = RateLimit.Next.
Proof. vm_compute. split_and!; reflexivity. Qed.

(** ** The sweep and the 24-hour window *)

(** C3. Evaluation at the failing input: a client fetches a profile that
    is not cached at time 0, so the 3-per-day limiter records the event
    (next to the one of the global limiter); the sweep that runs one hour
    later keeps only what is newer than 15 minutes and removes the key with
    both events, although the fetch is one hour old. For the limiter
    taken alone: with three fetches recorded at 0, 1 and 2 ms the client is
    refused one hour later, and let through once the sweep has run. *)
Lemma sweep_forgets_profile_events :
  let hour := 60 * 60 * 1000 in
  let r1 := Server.serve_user 0 (Fixtures.profile_host 0)
              (Fixtures.profile_request "bob")
              (Fixtures.server_with_profile "alice") in
  let xff := Some Fixtures.ip in
  let s1 := (RateLimit.profileLimiter xff 0 RateLimit.rateLimitStore).2 in
  let s2 := (RateLimit.profileLimiter xff 1 s1).2 in
  let s3 := (RateLimit.profileLimiter xff 2 s2).2 in
  r1.1 = Server.JsonData "fetched-profile"
  ∧ RateLimit.timestamps Fixtures.ip (Server.rateLimitStore r1.2) = [0; 0]
  ∧ RateLimit.sweep 2 hour (Server.rateLimitStore r1.2)
    = Some RateLimit.rateLimitStore
  ∧ LRUMap.has Fixtures.ip RateLimit.rateLimitStore = false
  ∧ RateLimit.timestamps Fixtures.ip s3 = [0; 1; 2]
  ∧ (RateLimit.profileLimiter xff (hour + 1) s3).1
    = RateLimit.TooManyRequests 82800
  ∧ RateLimit.sweep 2 hour s3 = Some RateLimit.rateLimitStore
  ∧ (RateLimit.profileLimiter xff (hour + 1) RateLimit.rateLimitStore).1
    = RateLimit.Next.
Proof. vm_compute. split_and!; reflexivity. Qed.

(** ** The walk of the sweep over the live map *)

Section SweepFacts.
Import RateLimit.
Implicit Types (st : store).

Lemma within_idem lo (ts : list Z) : within lo (within lo ts) = within lo ts.
Proof.
  unfold within. induction ts as [|t ts IH]; [done|].
  rewrite (filter_cons _ t ts). case_decide; [|done].
  rewrite filter_cons_True by done. by rewrite IH.
Qed.

(** A key with a fresh event is re-inserted behind the iterator each time it
    is reached, so the walk never ends: whatever the number of iterations
    allowed, the sweep has not returned. *)
Lemma sweep_loop_spins fuel now st :
  LRUMap.wf st → (LRUMap.size st ≤ LRUMap.maxSize st)%nat →
  holds_fresh now st → sweep_loop fuel now 0 st = None.
Proof.
  revert st. induction fuel as [|fuel IH]; intros st Hwf Hsz Hfresh; [done|].
  cbn [sweep_loop].
  destruct (LRUMap.entries st) as [|[ip requests] r] eqn:Es.
  { destruct Hfresh as (key & ts & Hpeek & _).
    unfold LRUMap.peek in Hpeek. by rewrite Es in Hpeek. }
  cbn [lookup list_lookup].
  assert (LRUMap.peek ip st = Some requests) as Hip.
  { unfold LRUMap.peek. rewrite Es. cbn. by rewrite decide_True. }
  case_decide as Hvalid.
  - apply IH.
    + exact (wf_delete ip st Hwf).
    + unfold LRUMap.size, LRUMap.delete, LRUMap.Map_delete in *. cbn.
      pose proof (length_filter (λ p : string * list Z, p.1 ≠ ip)
                    (LRUMap.entries st)). lia.
    + destruct Hfresh as (key & ts & Hpeek & Hne).
      exists key, ts. split; [|done].
      assert (key ≠ ip) as Hk.
      { intros ->. rewrite Hip in Hpeek. injection Hpeek as <-.
        apply Hne. by apply nil_length_inv. }
      unfold LRUMap.peek, LRUMap.delete. cbn.
      by rewrite Map_get_delete_ne.
  - rewrite bool_decide_eq_false_2 by lia.
    assert (ip ∈ LRUMap.keys st) as Hin by (apply peek_Some_keys; eauto).
    assert (LRUMap.entries (LRUMap.set ip (within (now - maxWindow) requests) st)
            = LRUMap.touched ip (within (now - maxWindow) requests)
                (LRUMap.entries st)) as Hset.
    { rewrite set_entries by done. rewrite decide_False; [done|].
      rewrite touched_length by done. unfold LRUMap.size in Hsz. lia. }
    apply IH.
    + by apply wf_set.
    + unfold LRUMap.size. rewrite Hset, touched_length by done. done.
    + exists ip, (within (now - maxWindow) requests). split.
      * apply peek_set_same; [done|].
        unfold LRUMap.size in Hsz. rewrite Es in Hsz. cbn in Hsz. lia.
      * rewrite within_idem. intros Hnil. apply Hvalid. by rewrite Hnil.
Qed.

End SweepFacts.

(** One hour after start-up, with a client that sent a request ten minutes
    ago, the sweep callback does not return. *)
Example sweep_spins_after_recent_request :
  let st := (RateLimit.globalLimiter (Some Fixtures.ip) 3000000
               RateLimit.rateLimitStore).2 in
  ∀ fuel, RateLimit.sweep fuel 3600000 st = None.
Proof.
  intros st fuel. apply sweep_loop_spins.
  - unfold LRUMap.wf. apply (bool_decide_unpack _). vm_compute. exact I.
  - apply (bool_decide_unpack _). vm_compute. exact I.
  - exists Fixtures.ip, [3000000]. split; [reflexivity|]. vm_compute. discriminate.
Qed.

(** ** Two calls of [getBrowser()] under explicit schedules *)

(** Alternating the two calls: both find no handle, both launch. *)
Example two_calls_alternating :
  let r := Browser.interleave (Browser.mk_host true true) [0; 1; 0; 1; 0; 1; 0; 1]%nat
             ([Browser.Start; Browser.Start], Browser.unstarted) in
  r.1 = [Browser.Done (Browser.Returned (Some 0%nat));
         Browser.Done (Browser.Returned (Some 1%nat))]
  ∧ Browser.launches r.2 = 2%nat
  ∧ Browser.persistentBrowser r.2 = Some 1%nat.
Proof. vm_compute. split_and!; reflexivity. Qed.

(** The second call resumed only after the first has finished: one launch. *)
Example two_calls_one_after_the_other :
  let r := Browser.interleave (Browser.mk_host true true) [0; 0; 0; 0; 1; 1; 1; 1]%nat
             ([Browser.Start; Browser.Start], Browser.unstarted) in
  r.1 = [Browser.Done (Browser.Returned (Some 0%nat));
         Browser.Done (Browser.Returned (Some 0%nat))]
  ∧ Browser.launches r.2 = 1%nat.
Proof. vm_compute. split_and!; reflexivity. Qed.

(** * Further properties of [LRUMap] *)

Section LRUMapMore.
Context {K V : Type} `{EqDecision K}.
Implicit Types (k : K) (v : V) (m : LRUMap.t K V).

Import LRUMap.

Lemma get_keeps_contents k m :
  wf m →
  (∀ k', peek k' (get k m).2 = peek k' m)
  ∧ size (get k m).2 = size m
  ∧ maxSize (get k m).2 = maxSize m
  ∧ (get k m).1 = peek k m.
Proof.
  intros Hwf. destruct (peek k m) as [v|] eqn:E.
  - rewrite (get_present k v m E). cbn [fst snd maxSize].
    split_and!; [| |done..].
    + intros k'. unfold peek. cbn [entries]. unfold touched.
      destruct (decide (k' = k)) as [->|Hne].
      * rewrite Map_get_app_r by apply Map_delete_not_in. by symmetry.
      * rewrite Map_get_app_ne by done. by apply Map_get_delete_ne.
    + unfold size. cbn [entries]. apply touched_length; [done|].
      apply peek_Some_keys. eauto.
  - rewrite get_absent; [done|].
    intros Hin%peek_Some_keys. rewrite E in Hin. by destruct Hin.
Qed.

(** X1. A [get] reorders the entries and nothing else: every key reads as
    before, and the size and [maxSize] are unchanged. *)
Theorem lru_get_keeps_contents k m :
  wf m →
  (∀ k', peek k' (get k m).2 = peek k' m)
  ∧ size (get k m).2 = size m
  ∧ maxSize (get k m).2 = maxSize m
  ∧ (get k m).1 = peek k m.
Proof. intros; eapply get_keeps_contents; eauto. Qed.

Lemma set_lookup k v m :
  wf m → (0 < maxSize m)%nat → (size m ≤ maxSize m)%nat →
  peek k (set k v m) = Some v
  ∧ last (keys (set k v m)) = Some k
  ∧ wf (set k v m)
  ∧ (size (set k v m) ≤ maxSize m)%nat
  ∧ (k ∈ keys m ∨ (size m < maxSize m)%nat →
     ∀ k', k' ≠ k → peek k' (set k v m) = peek k' m).
Proof.
  intros Hwf Hpos Hsz.
  pose proof (set_entries k v m Hwf) as He.
  pose proof (touched_length_le k v (entries m)) as Hle.
  split_and!.
  - by apply peek_set_same.
  - unfold keys. rewrite He.
    assert (last (touched k v (entries m)).*1 = Some k) as Hlast.
    { rewrite touched_keys. apply last_snoc. }
    case_decide; [|done]. rewrite fmap_tail.
    destruct ((touched k v (entries m)).*1) as [|a [|b l]] eqn:Et;
      [done| |done].
    exfalso. apply (f_equal length) in Et. rewrite length_fmap in Et.
    cbn in Et. lia.
  - by apply wf_set.
  - unfold size in *. rewrite He. case_decide; [|lia].
    destruct (touched k v (entries m)); cbn in *; lia.
  - intros Hroom k' Hne. unfold peek. rewrite He.
    rewrite decide_False.
    + unfold touched. rewrite Map_get_app_ne by done.
      by apply Map_get_delete_ne.
    + unfold size in *. destruct Hroom as [Hin|Hlt]; [|lia].
      rewrite touched_length by done. lia.
Qed.

(** X2. After [set(k, v)] on a map of capacity at least one, [k] reads [v], is
    the most recent key and occurs once. A key other than [k] reads as
    before whenever [k] was already present or the map was below capacity:
    only the insertion of a new key into a full map evicts. *)
Theorem lru_set_lookup k v m :
  wf m → (0 < maxSize m)%nat → (size m ≤ maxSize m)%nat →
  peek k (set k v m) = Some v
  ∧ last (keys (set k v m)) = Some k
  ∧ wf (set k v m)
  ∧ (size (set k v m) ≤ maxSize m)%nat
  ∧ (k ∈ keys m ∨ (size m < maxSize m)%nat →
     ∀ k', k' ≠ k → peek k' (set k v m) = peek k' m).
Proof. intros; eapply set_lookup; eauto. Qed.

End LRUMapMore.

Lemma lru_get_keeps_contents_witness :
  let m := LRUMap.run 2 [LRUMap.OpSet "a" 1; LRUMap.OpSet "b" 2] in
  LRUMap.peek "b" (LRUMap.get "a" m).2 = Some 2
  ∧ LRUMap.size (LRUMap.get "a" m).2 = 2%nat.
Proof.
  intros m.
  assert (LRUMap.wf m) as Hwf
    by (unfold LRUMap.wf; apply (bool_decide_unpack _); vm_compute; exact I).
  destruct (lru_get_keeps_contents "a" m Hwf) as (Hpeek & Hsize & _).
  split; [rewrite (Hpeek "b"); reflexivity | rewrite Hsize; reflexivity].
Defined.

Lemma lru_set_lookup_witness :
  let m := LRUMap.run 2 [LRUMap.OpSet "a" 1; LRUMap.OpSet "b" 2] in
  LRUMap.peek "a" (LRUMap.set "a" 7 m) = Some 7
  ∧ LRUMap.peek "b" (LRUMap.set "a" 7 m) = Some 2.
Proof.
  intros m.
  assert (LRUMap.wf m) as Hwf
    by (unfold LRUMap.wf; apply (bool_decide_unpack _); vm_compute; exact I).
  destruct (lru_set_lookup "a" 7 m Hwf) as (Hk & _ & _ & _ & Hother).
  - apply (bool_decide_unpack _). vm_compute. exact I.
  - apply (bool_decide_unpack _). vm_compute. exact I.
  - split; [exact Hk|]. rewrite Hother; [reflexivity | | discriminate].
    left. apply (bool_decide_unpack _). vm_compute. exact I.
Defined.

(** * Further properties of the rate limiter *)

Section RateLimitMore.
Import RateLimit Traffic.
Implicit Types (st : store) (key : string).

Lemma within_within lo lo' (l : list Z) :
  lo ≤ lo' → within lo' (within lo l) = within lo' l.
Proof.
  intros Hlo. unfold within. induction l as [|x l IH]; [done|].
  rewrite (filter_cons (λ time, lo < time)).
  rewrite (filter_cons (λ time, lo' < time) x l).
  destruct (decide (lo < x)) as [H1|H1].
  - rewrite filter_cons. by rewrite IH.
  - rewrite decide_False by lia. done.
Qed.

Lemma filter_length_mono {A} (P Q : A → Prop) `{∀ x, Decision (P x)}
    `{∀ x, Decision (Q x)} (l : list A) :
  Forall (λ x, P x → Q x) l → (length (filter P l) ≤ length (filter Q l))%nat.
Proof.
  induction 1 as [|x l Hx Hl IH]; [done|].
  rewrite !filter_cons.
  destruct (decide (P x)), (decide (Q x)); cbn; try lia. tauto.
Qed.

Lemma calls_window_gen (L W : Z) xff times : ∀ st A last,
  0 ≤ L → LRUMap.wf st → (0 < LRUMap.maxSize st)%nat →
  StronglySorted Z.le times → Forall (λ t, last ≤ t) times →
  Forall (λ a, a ≤ last) A →
  (∀ now, last ≤ now →
     within (now - W) (timestamps (client_key xff) st) = within (now - W) A) →
  (∀ t, Z.of_nat (length (in_window W t A)) ≤ L) →
  ∀ t, Z.of_nat (length (in_window W t
         (A ++ allowed_times times (calls L W xff times st).1))) ≤ L.
Proof.
  induction times as [|now rest IH];
    intros st A last HL Hwf Hpos Hsorted Hge HA HJ Hwin t.
  - cbn. rewrite app_nil_r. apply Hwin.
  - apply StronglySorted_cons in Hsorted as [Hrest Hsorted].
    apply Forall_cons in Hge as [Hnow Hge].
    destruct (rateLimiter_step L W xff now st Hwf Hpos)
      as (st' & Hwf' & Hmax' & Hstep).
    cbn zeta in Hstep. cbn [calls].
    rewrite <- Hmax' in Hpos.
    assert (Forall (λ a, a ≤ now) A) as HA'.
    { eapply Forall_impl; [exact HA|]. cbn. intros; lia. }
    case_decide as Hfull; destruct Hstep as [-> Hts].
    + destruct (calls L W xff rest st') as [os st''] eqn:Ecalls.
      cbn [fst allowed_times].
      specialize (IH st' A now HL Hwf' Hpos Hsorted Hrest HA').
      rewrite Ecalls in IH. apply IH; [|done].
      intros now' Hnow'. rewrite Hts. apply HJ. lia.
    + destruct (calls L W xff rest st') as [os st''] eqn:Ecalls.
      cbn [fst allowed_times].
      replace (A ++ now :: allowed_times rest os)
        with ((A ++ [now]) ++ allowed_times rest os)
        by (by rewrite <- app_assoc).
      specialize (IH st' (A ++ [now]) now HL Hwf' Hpos Hsorted Hrest).
      rewrite Ecalls in IH. apply IH.
      * apply Forall_app. split; [done|]. repeat constructor. lia.
      * intros now' Hnow'. rewrite Hts. unfold within at 1 3.
        rewrite !filter_app. f_equal.
        fold (within (now' - W)
                (within (now - W) (timestamps (client_key xff) st))).
        fold (within (now' - W) A).
        rewrite HJ by done. apply within_within. lia.
      * intros t'. unfold in_window. rewrite filter_app, length_app.
        fold (in_window W t' A). fold (in_window W t' [now]).
        destruct (decide (t' - W < now ∧ now ≤ t')) as [Hin|Hout].
        -- assert (length (in_window W t' A)
                   ≤ length (within (now - W) A))%nat as Hle.
           { unfold in_window, within. apply filter_length_mono.
             apply Forall_forall. intros a _. lia. }
           rewrite <- HJ in Hle by done.
           unfold in_window at 2. rewrite filter_cons_True by done.
           cbn [length filter]. rewrite filter_nil. cbn [length]. lia.
        -- unfold in_window at 2. rewrite filter_cons_False by done.
           rewrite filter_nil. cbn [length]. rewrite Nat.add_0_r. apply Hwin.
Qed.

(** X3. The guarantee of the sliding window. A client with no recorded event
    calls one limiter at non-decreasing times: whatever the instant [t],
    at most [L] of the calls that were let through lie in the window
    [(t - W, t]]. *)
Theorem rateLimiter_window_guarantee (L W : Z) xff (times : list Z) st :
  0 ≤ L → LRUMap.wf st → (0 < LRUMap.maxSize st)%nat →
  timestamps (client_key xff) st = [] →
  StronglySorted Z.le times →
  ∀ t, Z.of_nat (length (in_window W t
         (allowed_times times (calls L W xff times st).1))) ≤ L.
Proof.
  intros HL Hwf Hpos Hts Hsorted t.
  destruct times as [|t0 rest]; [cbn; lia|].
  apply (calls_window_gen L W xff (t0 :: rest) st [] t0); try done.
  - apply StronglySorted_cons in Hsorted as [Hrest _].
    constructor; [lia|]. done.
  - intros now _. by rewrite Hts.
Qed.

End RateLimitMore.

Lemma rateLimiter_window_guarantee_witness :
  Z.of_nat (length (Traffic.in_window 1000 1200
    (Traffic.allowed_times [0; 100; 200; 300; 1200]
       (RateLimit.calls 3 1000 (Some "10.0.0.1") [0; 100; 200; 300; 1200]
          RateLimit.rateLimitStore).1))) ≤ 3.
Proof.
  apply rateLimiter_window_guarantee.
  - lia.
  - constructor.
  - apply (bool_decide_unpack _). vm_compute. exact I.
  - reflexivity.
  - repeat (constructor; [repeat constructor; lia|]). constructor.
Defined.

Section RateLimitClients.
Import RateLimit.
Implicit Types (st : store) (key : string).

Lemma has_true_keys key st : LRUMap.has key st = true ↔ key ∈ LRUMap.keys st.
Proof. apply Map_has_true. Qed.

(** What [ensure_key] and the following [get] leave behind: the key is
    present and most recent, the other keys read as in the store after
    [ensure_key]. *)
Lemma after_ensure_get key st :
  LRUMap.wf st → (0 < LRUMap.maxSize st)%nat →
  (LRUMap.size st ≤ LRUMap.maxSize st)%nat →
  let st2 := (LRUMap.get key (ensure_key key st)).2 in
  LRUMap.wf st2 ∧ LRUMap.maxSize st2 = LRUMap.maxSize st
  ∧ (LRUMap.size st2 ≤ LRUMap.maxSize st)%nat
  ∧ key ∈ LRUMap.keys st2
  ∧ (∀ key', LRUMap.peek key' st2 = LRUMap.peek key' (ensure_key key st)).
Proof.
  intros Hwf Hpos Hsz st2.
  destruct (ensure_key_spec key st Hwf Hpos) as (Hpeek & Hwf1 & Hmax1).
  assert (LRUMap.size (ensure_key key st) ≤ LRUMap.maxSize st)%nat as Hsz1.
  { unfold ensure_key. destruct (LRUMap.has key st); [done|].
    by apply set_lookup. }
  destruct (get_keeps_contents key (ensure_key key st) Hwf1)
    as (Hsame & Hsize & Hmax & _).
  fold st2 in Hsame, Hsize, Hmax. split_and!.
  - by apply wf_get.
  - congruence.
  - lia.
  - apply peek_Some_keys. rewrite Hsame, Hpeek. eauto.
  - exact Hsame.
Qed.

(** X4. Clients do not disturb each other while the store has room: a call by
    one client, whose key is present or inserted below capacity, leaves
    the recorded events of every other client as they were. *)
Theorem rateLimiter_other_clients (L W : Z) xff now st key' :
  LRUMap.wf st → (0 < LRUMap.maxSize st)%nat →
  (LRUMap.size st ≤ LRUMap.maxSize st)%nat →
  key' ≠ client_key xff →
  LRUMap.has (client_key xff) st = true
  ∨ (LRUMap.size st < LRUMap.maxSize st)%nat →
  timestamps key' (rateLimiter L W xff now st).2 = timestamps key' st.
Proof.
  intros Hwf Hpos Hsz Hne Hroom. set (key := client_key xff) in *.
  destruct (after_ensure_get key st Hwf Hpos Hsz)
    as (Hwf2 & Hmax2 & Hsz2 & Hin2 & Hsame2).
  assert (LRUMap.peek key' (ensure_key key st) = LRUMap.peek key' st) as He.
  { unfold ensure_key. destruct (LRUMap.has key st) eqn:Eh; [done|].
    destruct Hroom as [?|Hlt]; [done|].
    apply set_lookup; auto. }
  unfold timestamps, rateLimiter. fold key.
  destruct (LRUMap.get key (ensure_key key st)) as [[requests|] st2] eqn:Eg;
    cbn [snd] in *.
  - case_decide; cbn [snd].
    + by rewrite Hsame2, He.
    + destruct (set_lookup key (within (now - W) requests ++ [now]) st2)
        as (_ & _ & _ & _ & Hother); [done|lia|lia|].
      rewrite Hother by auto. by rewrite Hsame2, He.
  - by rewrite Hsame2, He.
Qed.

(** X5. Eviction is by recency, not by time: when the store is full, the first
    call of a client that has no entry removes the entry of the least
    recently seen client, whatever the age of its events. *)
Theorem rateLimiter_evicts_oldest_client (L W : Z) xff now st k0 ts0 r :
  LRUMap.wf st → (0 < LRUMap.maxSize st)%nat →
  LRUMap.size st = LRUMap.maxSize st →
  LRUMap.entries st = (k0, ts0) :: r →
  LRUMap.has (client_key xff) st = false →
  LRUMap.has k0 (rateLimiter L W xff now st).2 = false
  ∧ timestamps k0 (rateLimiter L W xff now st).2 = [].
Proof.
  intros Hwf Hpos Hfull Hes Hnew. set (key := client_key xff) in *.
  assert (key ∉ LRUMap.keys st) as Hout by (by apply Map_has_false).
  assert (k0 ≠ key) as Hk0.
  { intros ->. apply Hout. unfold LRUMap.keys. rewrite Hes. by left. }
  set (st1 := LRUMap.set key [] st).
  assert (ensure_key key st = st1) as He by (unfold ensure_key; by rewrite Hnew).
  assert (LRUMap.peek k0 st1 = None) as Hgone.
  { unfold LRUMap.peek, st1. rewrite set_full_entries by done.
    rewrite Hes. cbn [app tail]. rewrite Map_get_app_ne by done.
    apply Map_get_None. unfold LRUMap.wf, LRUMap.keys in Hwf.
    rewrite Hes in Hwf. by apply NoDup_cons in Hwf as [? _]. }
  assert (LRUMap.wf st1) as Hwf1 by (by apply wf_set).
  assert (LRUMap.size st1 ≤ LRUMap.maxSize st)%nat as Hsz1
    by (apply set_lookup; [done|done|lia]).
  destruct (get_keeps_contents key st1 Hwf1) as (Hsame & Hsize & Hmax & _).
  pose proof (wf_get key st1 Hwf1) as Hwf2.
  assert (LRUMap.peek k0 (rateLimiter L W xff now st).2 = None) as Hnone.
  { unfold rateLimiter. fold key. rewrite He.
    destruct (LRUMap.get key st1) as [[requests|] st2] eqn:Eg; cbn [snd] in *.
    - case_decide; cbn [snd]; [by rewrite Hsame|].
      destruct (set_lookup key (within (now - W) requests ++ [now]) st2)
        as (_ & _ & _ & _ & Hother).
      + done.
      + rewrite Hmax. done.
      + rewrite Hsize, Hmax. done.
      + rewrite Hother; [by rewrite Hsame| |done].
        left. apply peek_Some_keys. rewrite Hsame.
        unfold st1. rewrite peek_set_same by done. eauto.
    - by rewrite Hsame. }
  split.
  - unfold LRUMap.has. apply Map_has_false.
    intros Hin. apply peek_Some_keys in Hin. rewrite Hnone in Hin.
    by destruct Hin.
  - unfold timestamps. by rewrite Hnone.
Qed.

End RateLimitClients.

Lemma rateLimiter_other_clients_witness :
  let st := (RateLimit.rateLimiter 3 1000 (Some "10.0.0.1") 0
               RateLimit.rateLimitStore).2 in
  RateLimit.timestamps "10.0.0.1"
    (RateLimit.rateLimiter 3 1000 (Some "10.0.0.2") 5 st).2
  = RateLimit.timestamps "10.0.0.1" st.
Proof.
  intros st. apply rateLimiter_other_clients.
  - unfold LRUMap.wf. apply (bool_decide_unpack _). vm_compute. exact I.
  - apply (bool_decide_unpack _). vm_compute. exact I.
  - apply (bool_decide_unpack _). vm_compute. exact I.
  - discriminate.
  - right. apply (bool_decide_unpack _). vm_compute. exact I.
Defined.

Lemma rateLimiter_evicts_oldest_client_witness :
  let st := LRUMap.mk 1 [("10.0.0.1", [0])] in
  LRUMap.has "10.0.0.1" (RateLimit.rateLimiter 3 1000 (Some "10.0.0.2") 5 st).2
  = false
  ∧ RateLimit.timestamps "10.0.0.1"
      (RateLimit.rateLimiter 3 1000 (Some "10.0.0.2") 5 st).2 = [].
Proof.
  intros st.
  apply (rateLimiter_evicts_oldest_client 3 1000 (Some "10.0.0.2") 5 st
           "10.0.0.1" [0] []).
  - unfold LRUMap.wf. apply (bool_decide_unpack _). vm_compute. exact I.
  - cbn. lia.
  - reflexivity.
  - reflexivity.
  - reflexivity.
Defined.

(** ** When the hourly sweep returns *)

Section SweepReturns.
Import RateLimit.
Implicit Types (st : store).

(** No client key holds an event newer than [now - maxWindow]. *)
Lemma not_fresh_stale now st :
  ¬ holds_fresh now st ↔
  ∀ key ts, LRUMap.peek key st = Some ts → within (now - maxWindow) ts = [].
Proof.
  unfold holds_fresh. split.
  - intros Hn key ts Hpeek.
    destruct (within (now - maxWindow) ts) eqn:E; [done|].
    exfalso. apply Hn. exists key, ts. split; [done|]. by rewrite E.
  - intros Hall (key & ts & Hpeek & Hne). by apply Hne, (Hall key).
Qed.

Lemma delete_head st ip requests r :
  LRUMap.wf st → LRUMap.entries st = (ip, requests) :: r →
  LRUMap.entries (LRUMap.delete ip st) = r.
Proof.
  intros Hwf Hes. unfold LRUMap.delete, LRUMap.Map_delete. cbn. rewrite Hes.
  rewrite filter_cons_False by (cbn; intros Hn; by apply Hn).
  apply Map_delete_absent. unfold LRUMap.wf, LRUMap.keys in Hwf.
  rewrite Hes in Hwf. by apply NoDup_cons in Hwf as [? _].
Qed.

Lemma sweep_loop_stale fuel now : ∀ st,
  LRUMap.wf st →
  (∀ key ts, LRUMap.peek key st = Some ts →
             within (now - maxWindow) ts = []) →
  sweep_loop fuel now 0 st =
    if decide (LRUMap.size st < fuel)%nat
    then Some (LRUMap.empty (LRUMap.maxSize st)) else None.
Proof.
  induction fuel as [|fuel IH]; intros st Hwf Hstale.
  - cbn. by rewrite decide_False by lia.
  - cbn [sweep_loop].
    destruct (LRUMap.entries st) as [|[ip requests] r] eqn:Es.
    + cbn. unfold LRUMap.size. rewrite Es. cbn.
      rewrite decide_True by lia. destruct st. cbn in *. by subst.
    + cbn [lookup list_lookup].
      assert (LRUMap.peek ip st = Some requests) as Hip.
      { unfold LRUMap.peek. rewrite Es. cbn. by rewrite decide_True. }
      rewrite (Hstale ip requests Hip). cbn [length].
      rewrite decide_True by done.
      pose proof (delete_head st ip requests r Hwf Es) as Hdel.
      rewrite IH.
      * unfold LRUMap.size. rewrite Hdel, Es. cbn [length LRUMap.delete LRUMap.maxSize].
        destruct (decide (length r < fuel)%nat);
          [rewrite decide_True by lia | rewrite decide_False by lia]; done.
      * by apply wf_delete.
      * intros key ts Hpeek. apply (Hstale key).
        destruct (decide (key = ip)) as [->|Hne].
        -- by rewrite peek_delete_same in Hpeek.
        -- unfold LRUMap.peek, LRUMap.delete in *. cbn in Hpeek.
           by rewrite Map_get_delete_ne in Hpeek.
Qed.

(** X6. The sweep over the rate-limit store returns exactly when no client key
    holds an event of the last 15 minutes, and the store it then leaves is
    empty; as soon as one key holds such an event the walk re-inserts it
    behind the iterator for ever. *)
Theorem sweep_returns_iff_all_stale now st :
  LRUMap.wf st → (LRUMap.size st ≤ LRUMap.maxSize st)%nat →
  (holds_fresh now st → ∀ fuel, sweep fuel now st = None)
  ∧ (¬ holds_fresh now st →
     sweep (S (LRUMap.size st)) now st
     = Some (LRUMap.empty (LRUMap.maxSize st)))
  ∧ (∀ fuel st', sweep fuel now st = Some st' →
     ¬ holds_fresh now st ∧ st' = LRUMap.empty (LRUMap.maxSize st)).
Proof.
  intros Hwf Hsz. split_and!.
  - intros Hfresh fuel. by apply sweep_loop_spins.
  - intros Hn. pose proof (proj1 (not_fresh_stale now st) Hn) as Hstale.
    unfold sweep.
    rewrite sweep_loop_stale by done. by rewrite decide_True by lia.
  - intros fuel st' Hret.
    assert (¬ holds_fresh now st) as Hn.
    { intros Hfresh. unfold sweep in Hret.
      by rewrite sweep_loop_spins in Hret. }
    split; [done|].
    pose proof (proj1 (not_fresh_stale now st) Hn) as Hstale.
    unfold sweep in Hret. rewrite sweep_loop_stale in Hret by done.
    case_decide; congruence.
Qed.

(** ** The retry hints *)

(** X7. The 429 of [rateLimiter] always carries [retryAfter = 0]; the 429 of
    the 3-per-day limiter carries at least one second, and at most 86400
    when no recorded event lies in the future. *)
Theorem retry_hints (L W : Z) xff now st :
  LRUMap.wf st → (0 < LRUMap.maxSize st)%nat →
  (∀ r, (rateLimiter L W xff now st).1 = TooManyRequests r → r = 0)
  ∧ (∀ r, (profileLimiter xff now st).1 = TooManyRequests r →
       1 ≤ r
       ∧ (Forall (λ t, t ≤ now) (timestamps (client_key xff) st) →
          r ≤ 86400)).
Proof.
  intros Hwf Hpos. split.
  - intros r Hr.
    destruct (rateLimiter_step L W xff now st Hwf Hpos) as (st' & _ & _ & Hs).
    cbn zeta in Hs. case_decide; destruct Hs as [Hs _]; rewrite Hs in Hr;
      cbn in Hr; congruence.
  - intros r Hr. set (key := client_key xff) in *.
    destruct (ensure_key_spec key st Hwf Hpos) as (Hpeek & _ & _).
    unfold profileLimiter in Hr. fold key in Hr.
    rewrite (get_present _ _ _ Hpeek) in Hr. cbn zeta in Hr.
    set (requests := within (now - profile_windowMs) (timestamps key st)) in *.
    case_decide as Hfull; cbn [fst] in Hr; [|discriminate].
    injection Hr as <-.
    destruct requests as [|t0 rest] eqn:Er;
      [unfold profile_maxRequests in Hfull; cbn in Hfull; lia|].
    assert (t0 ∈ within (now - profile_windowMs) (timestamps key st)) as Hin
      by (fold requests; rewrite Er; left).
    apply list_elem_of_filter in Hin as [Hlo Hin].
    cbn [head default from_option id]. unfold ceil_div, profile_windowMs in *.
    split.
    + assert ((- (t0 + 24 * 60 * 60 * 1000 - now)) `div` 1000 < 0); [|lia].
      apply Z.div_lt_upper_bound; lia.
    + intros Hpast. rewrite Forall_forall in Hpast. specialize (Hpast _ Hin).
      assert (-86400 ≤ (- (t0 + 24 * 60 * 60 * 1000 - now)) `div` 1000); [|lia].
      apply Z.div_le_lower_bound; lia.
Qed.

End SweepReturns.

Lemma sweep_returns_iff_all_stale_witness :
  let st := (RateLimit.globalLimiter (Some Fixtures.ip) 0
               RateLimit.rateLimitStore).2 in
  RateLimit.sweep 2 3600000 st = Some (LRUMap.empty 10000).
Proof.
  intros st.
  assert (LRUMap.wf st) as Hwf
    by (unfold LRUMap.wf; apply (bool_decide_unpack _); vm_compute; exact I).
  assert (LRUMap.size st ≤ LRUMap.maxSize st)%nat as Hsz
    by (apply (bool_decide_unpack _); vm_compute; exact I).
  destruct (sweep_returns_iff_all_stale 3600000 st Hwf Hsz) as (_ & Hret & _).
  apply Hret. apply not_fresh_stale. intros key ts Hpeek.
  assert (LRUMap.entries st = [(Fixtures.ip, [0])]) as Hes
    by (vm_compute; reflexivity).
  unfold LRUMap.peek in Hpeek. rewrite Hes in Hpeek.
  cbn [LRUMap.Map_get] in Hpeek.
  destruct (decide (Fixtures.ip = key)); [|discriminate Hpeek].
  injection Hpeek as <-. reflexivity.
Defined.

Lemma retry_hints_witness :
  (RateLimit.rateLimiter 0 1000 (Some "10.0.0.1") 5 RateLimit.rateLimitStore).1
  = RateLimit.TooManyRequests 0.
Proof.
  assert (LRUMap.wf RateLimit.rateLimitStore) as Hwf by constructor.
  assert (0 < LRUMap.maxSize RateLimit.rateLimitStore)%nat as Hpos
    by (apply (bool_decide_unpack _); vm_compute; exact I).
  destruct (retry_hints 0 1000 (Some "10.0.0.1") 5 RateLimit.rateLimitStore
              Hwf Hpos) as [Hzero _].
  destruct (RateLimit.rateLimiter 0 1000 (Some "10.0.0.1") 5
              RateLimit.rateLimitStore).1 as [|r|] eqn:E;
    [discriminate E | | discriminate E].
  f_equal. by apply Hzero.
Defined.

(** * Further properties of the anti-forgery tokens *)

Section CsrfMore.
Import Csrf.
Implicit Types (st : store).

(** X8. After a sign-in has stored [tok] for the user at time [t0], a presented
    token passes [csrfProtection] exactly when it is [tok] and no more than
    24 hours have passed; whatever was stored for the user before no longer
    counts, and a wrong token leaves the stored one in place. *)
Theorem csrf_issue_validate (userID tok presented : string) (t0 now : Z) st :
  LRUMap.wf st → (0 < LRUMap.maxSize st)%nat →
  userID ≠ "" → presented ≠ "" →
  let st1 := issue userID tok t0 st in
  ((validate userID presented now st1).1 = true ↔
     presented = tok ∧ now - t0 ≤ CSRF_TOKEN_EXPIRY)
  ∧ (presented ≠ tok →
     LRUMap.peek userID (validate userID presented now st1).2
     = Some (mk_entry tok t0)).
Proof.
  intros Hwf Hpos Hu Hp st1.
  assert (LRUMap.peek userID st1 = Some (mk_entry tok t0)) as Hpeek
    by (by apply peek_set_same).
  unfold validate, csrfProtection.
  rewrite !truthy_nonempty by done.
  cbn [negb orb default from_option id].
  rewrite (get_present _ _ _ Hpeek). cbn [token timestamp].
  case_bool_decide as Htok; cbn [negb].
  - assert (presented = tok) as Heq by congruence. split; [|done].
    case_decide; cbn [fst]; (split; [intros Hv|intros [_ Hage]]);
      try done; try lia.
    split; [done|lia].
  - split.
    + cbn [fst]. split; [done|]. intros [-> _]. done.
    + intros _. cbn [snd]. unfold LRUMap.peek. cbn [LRUMap.entries].
      unfold LRUMap.touched. apply Map_get_app_r, Map_delete_not_in.
Qed.

(** After a sign-out ([csrfTokenStore.delete(userID)]) no token passes for
    that user. *)
Theorem csrf_signout_invalidates (userID presented : string) (now : Z) st :
  (validate userID presented now (LRUMap.delete userID st)).1 = false.
Proof.
  unfold validate, csrfProtection.
  destruct (negb (JS.truthy (Some presented))
            || negb (JS.truthy (Some userID))); [done|].
  cbn [default from_option id].
  rewrite get_absent; [done|]. apply Map_delete_not_in.
Qed.

End CsrfMore.

Lemma csrf_issue_validate_witness :
  let st1 := Csrf.issue "user-1" "c0ffee" 0 Csrf.csrfTokenStore in
  (Csrf.validate "user-1" "c0ffee" 86400000 st1).1 = true.
Proof.
  intros st1.
  destruct (csrf_issue_validate "user-1" "c0ffee" "c0ffee" 0 86400000
              Csrf.csrfTokenStore) as [Hiff _].
  - constructor.
  - apply (bool_decide_unpack _). vm_compute. exact I.
  - discriminate.
  - discriminate.
  - apply Hiff. split; [reflexivity|]. unfold Csrf.CSRF_TOKEN_EXPIRY. lia.
Defined.

(** ** The hourly sweep of the token store *)

Section CsrfSweep.
Import Csrf Janitor.
Implicit Types (st : store).

Lemma Map_delete_middle {K V} `{EqDecision K} (l1 l2 : list (K * V)) u d :
  NoDup (l1 ++ (u, d) :: l2).*1 →
  LRUMap.Map_delete u (l1 ++ (u, d) :: l2) = l1 ++ l2.
Proof.
  rewrite fmap_app, fmap_cons. cbn [fst].
  intros (_ & Hl1 & [Hl2 _]%NoDup_cons)%NoDup_app.
  assert (u ∉ l1.*1) as Hu1.
  { intros Hin. apply (Hl1 u Hin). left. }
  unfold LRUMap.Map_delete. rewrite filter_app.
  rewrite filter_cons_False by (cbn; intros Hn; by apply Hn).
  fold (LRUMap.Map_delete u l1). fold (LRUMap.Map_delete u l2).
  by rewrite !Map_delete_absent.
Qed.

Lemma Map_get_filter {K V} `{EqDecision K} (P : K * V → Prop)
    `{∀ p, Decision (P p)} (es : list (K * V)) k v :
  NoDup es.*1 → LRUMap.Map_get k es = Some v →
  LRUMap.Map_get k (filter P es) = if decide (P (k, v)) then Some v else None.
Proof.
  induction es as [|[k' v'] r IH]; [done|].
  rewrite fmap_cons. cbn [fst LRUMap.Map_get].
  intros [Hk' Hr]%NoDup_cons Hget. rewrite filter_cons.
  destruct (decide (k' = k)) as [->|Hne].
  - injection Hget as ->. destruct (decide (P (k, v))).
    + cbn. by rewrite decide_True.
    + apply Map_get_None. intros Hin. apply Hk'.
      apply list_elem_of_fmap in Hin as ([k2 v2] & -> & Hin).
      apply list_elem_of_filter in Hin as [_ Hin].
      apply list_elem_of_fmap. by exists (k2, v2).
  - destruct (decide (P (k', v'))); [|by apply IH].
    cbn. rewrite decide_False by done. by apply IH.
Qed.

Lemma csrf_sweep_loop_spec fuel now : ∀ pos st,
  LRUMap.wf st → (pos ≤ LRUMap.size st)%nat →
  (LRUMap.size st - pos < fuel)%nat →
  csrf_sweep_loop fuel now pos st
  = Some (LRUMap.mk (LRUMap.maxSize st)
            (take pos (LRUMap.entries st)
             ++ filter (λ p, ¬ expired now p) (drop pos (LRUMap.entries st)))).
Proof.
  induction fuel as [|fuel IH]; intros pos st Hwf Hpos Hfuel; [lia|].
  cbn [csrf_sweep_loop]. unfold LRUMap.size in *.
  destruct (LRUMap.entries st !! pos) as [[u d]|] eqn:El.
  - pose proof (lookup_lt_Some _ _ _ El) as Hlt.
    pose proof (take_drop_middle _ _ _ El) as Hmid.
    rewrite (drop_S _ _ _ El).
    case_decide as Hexp.
    + rewrite filter_cons_False by (intros Hn; by apply Hn).
      assert (LRUMap.entries (LRUMap.delete u st)
              = take pos (LRUMap.entries st) ++ drop (S pos) (LRUMap.entries st))
        as Hdel.
      { unfold LRUMap.delete. cbn [LRUMap.entries]. rewrite <- Hmid at 1.
        apply Map_delete_middle. rewrite Hmid. exact Hwf. }
      rewrite IH.
      * rewrite Hdel. cbn [LRUMap.delete LRUMap.maxSize]. do 2 f_equal.
        rewrite take_app_length' by (by rewrite length_take_le by lia).
        by rewrite drop_app_length' by (by rewrite length_take_le by lia).
      * by apply wf_delete.
      * rewrite Hdel, length_app, length_take_le, length_drop by lia. lia.
      * rewrite Hdel, length_app, length_take_le, length_drop by lia. lia.
    + rewrite filter_cons_True by done.
      rewrite IH by (done || lia).
      rewrite (take_S_r _ _ _ El). by rewrite <- app_assoc.
  - apply lookup_ge_None in El.
    rewrite take_ge, drop_ge by lia. rewrite filter_nil, app_nil_r.
    by destruct st.
Qed.

(** X9. The sweep of the token store returns after one pass and leaves, in
    their order, exactly the entries that are not older than 24 hours: a
    stored token is still there afterwards if and only if it was issued at
    most 24 hours before the sweep. *)
Theorem csrf_sweep_keeps_live_tokens now st :
  LRUMap.wf st →
  ∃ st', csrf_sweep (S (LRUMap.size st)) now st = Some st'
    ∧ LRUMap.entries st'
      = filter (λ p, ¬ expired now p) (LRUMap.entries st)
    ∧ LRUMap.maxSize st' = LRUMap.maxSize st
    ∧ ∀ userID tok t0,
        LRUMap.peek userID st = Some (mk_entry tok t0) →
        (LRUMap.peek userID st' = Some (mk_entry tok t0) ↔
           now - t0 ≤ CSRF_TOKEN_EXPIRY)
        ∧ (LRUMap.peek userID st' = None ↔ CSRF_TOKEN_EXPIRY < now - t0).
Proof.
  intros Hwf.
  exists (LRUMap.mk (LRUMap.maxSize st)
            (filter (λ p, ¬ expired now p) (LRUMap.entries st))).
  split_and!.
  - unfold csrf_sweep. rewrite csrf_sweep_loop_spec by (done || lia).
    by rewrite take_0, drop_0.
  - done.
  - done.
  - intros userID tok t0 Hpeek. unfold LRUMap.peek in *. cbn [LRUMap.entries].
    rewrite (Map_get_filter _ _ _ _ Hwf Hpeek).
    unfold expired. cbn [snd timestamp].
    case_decide; split; split; intros; try done; lia.
Qed.

End CsrfSweep.

Lemma csrf_sweep_keeps_live_tokens_witness :
  let st := Csrf.issue "user-2" "beef" 90000000
              (Csrf.issue "user-1" "c0ffee" 0 Csrf.csrfTokenStore) in
  ∃ st', Janitor.csrf_sweep 3 90000000 st = Some st'
         ∧ LRUMap.keys st' = ["user-2"].
Proof.
  intros st.
  assert (LRUMap.wf st) as Hwf
    by (unfold LRUMap.wf; apply (bool_decide_unpack _); vm_compute; exact I).
  destruct (csrf_sweep_keeps_live_tokens 90000000 st Hwf)
    as (st' & Hrun & Hes & _).
  exists st'. split; [exact Hrun|]. unfold LRUMap.keys. rewrite Hes.
  vm_compute. reflexivity.
Defined.

(** ** The daily clean-up of the durable caches *)

Section DbJanitor.
Import Janitor.

(** [cleanExpiredImages] removes exactly the rows written before
    [now - maxAgeMs], returns how many they were, and leaves the profile
    cache alone; in particular a screenshot that the image route would
    still serve at [now] survives a clean-up run at [now] with the route's
    time-to-live. *)
Theorem cleanExpiredImages_spec (db : Db.t) (maxAgeMs now : Z) :
  let r := cleanExpiredImages db maxAgeMs now in
  (∀ key row, Db.ImageCache r.2 !! key = Some row ↔
      Db.ImageCache db !! key = Some row ∧ now - maxAgeMs ≤ row.2)
  ∧ (r.1 + size (Db.ImageCache r.2) = size (Db.ImageCache db))%nat
  ∧ Db.ProfileCache r.2 = Db.ProfileCache db
  ∧ (∀ key image cached_at,
       Db.ImageCache db !! key = Some (image, cached_at) →
       now - cached_at < maxAgeMs →
       Db.ImageCache r.2 !! key = Some (image, cached_at)).
Proof.
  intros r.
  assert (∀ key row, Db.ImageCache r.2 !! key = Some row ↔
            Db.ImageCache db !! key = Some row ∧ now - maxAgeMs ≤ row.2)
    as Hlookup.
  { intros key row. unfold r, cleanExpiredImages. cbn [snd Db.ImageCache].
    rewrite map_lookup_filter_Some. cbn [snd]. split; intros [? ?]; split;
      try done; lia. }
  split_and!; [done| |done|].
  - unfold r, cleanExpiredImages. cbn [fst snd Db.ImageCache].
    pose proof (map_subseteq_size _ _
                  (map_filter_subseteq (λ row : string * (Db.bytes * Z),
                     ¬ row.2.2 < now - maxAgeMs) (Db.ImageCache db))).
    lia.
  - intros key image cached_at Hrow Hfresh. apply Hlookup. split; [done|].
    cbn. lia.
Qed.

End DbJanitor.

Lemma cleanExpiredImages_spec_witness :
  let db := Db.setCachedImage (Db.mk ∅ ∅) "jack_393x852_3_dark" [Byte.x01] 4000 in
  Db.ImageCache (Janitor.cleanExpiredImages db 3600000 5000).2
    !! "jack_393x852_3_dark" = Some ([Byte.x01], 4000).
Proof.
  intros db.
  destruct (cleanExpiredImages_spec db 3600000 5000) as (_ & _ & _ & Hfresh).
  apply Hfresh; [vm_compute; reflexivity | lia].
Defined.

(** * Further properties of the shared rendering process *)

Section BrowserPolicy.
Import Browser.

(** X10. The restart policy, for a host where the module loads and launches
    succeed. With a handle stored: at 100 screenshots or more the stored
    process is closed, the counter is reset and a new process is launched;
    below that a connected handle is returned as it is, and a disconnected
    one is replaced by a new launch without touching the counter. With no
    handle stored a process is launched and the counter is left alone,
    even at 100 or more. *)
Theorem getBrowser_policy (h : host) (pw : bool) (pb : option handle)
    (c : nat) (conn : list handle) (l : nat) :
  launch_succeeds h = true → pw || playwright_installed h = true →
  getBrowser h (mk_state pw pb c conn l) =
    match pb with
    | Some b =>
        if decide (MAX_SCREENSHOTS_BEFORE_RESTART ≤ c)%nat then
          (Returned (Some l),
           mk_state true (Some l) 0 (filter (λ x, x ≠ b) conn ++ [l]) (S l))
        else if decide (b ∈ conn) then
          (Returned (Some b), mk_state true (Some b) c conn l)
        else
          (Returned (Some l), mk_state true (Some l) c (conn ++ [l]) (S l))
    | None =>
        (Returned (Some l), mk_state true (Some l) c (conn ++ [l]) (S l))
    end.
Proof.
  intros Hlaunch Hpw. unfold getBrowser.
  destruct h as [inst ok]. cbn [launch_succeeds playwright_installed] in *.
  subst ok.
  assert (pw = true ∨ (pw = false ∧ inst = true)) as [-> | [-> ->]]
    by (destruct pw, inst; auto; discriminate).
  all: destruct pb as [b|];
    cbn [run_alone resume negb playwright persistentBrowser screenshotCount
         connected launches playwright_installed launch_succeeds];
    unfold reuse_or_launch, launch, isConnected;
    cbn [persistentBrowser connected launches launch_succeeds playwright
         screenshotCount];
    try reflexivity.
  all: destruct (decide (MAX_SCREENSHOTS_BEFORE_RESTART ≤ c)%nat);
    cbn [run_alone resume negb playwright persistentBrowser screenshotCount
         connected launches playwright_installed launch_succeeds];
    unfold reuse_or_launch, launch, isConnected;
    cbn [persistentBrowser connected launches launch_succeeds playwright
         screenshotCount];
    try reflexivity.
  all: case_bool_decide;
    [rewrite decide_True by done | rewrite decide_False by done];
    reflexivity.
Qed.

Lemma getBrowser_null_cases (h : host) (st : state) :
  (launches (getBrowser h st).2 ≤ S (launches st))%nat
  ∧ (∀ b, (getBrowser h st).1 = Returned (Some b) →
       persistentBrowser (getBrowser h st).2 = Some b
       ∧ b ∈ connected (getBrowser h st).2)
  ∧ (playwright st = false → playwright_installed h = false →
     getBrowser h st = (Returned None, st)).
Proof.
  destruct st as [pw pb c conn l], h as [inst ok].
  unfold getBrowser. split_and!.
  - destruct pw, inst, ok, pb as [b|];
      cbn [run_alone resume negb playwright persistentBrowser screenshotCount
           playwright_installed launch_succeeds connected launches];
      unfold reuse_or_launch, launch, isConnected;
      cbn [persistentBrowser connected launches launch_succeeds];
      repeat (case_decide || case_bool_decide);
      cbn [run_alone resume negb playwright persistentBrowser screenshotCount
           playwright_installed launch_succeeds connected launches
           reuse_or_launch launch snd default from_option];
      unfold reuse_or_launch, launch;
      cbn [persistentBrowser connected launches launch_succeeds snd run_alone
           resume playwright screenshotCount];
      lia.
  - intros b.
    destruct pw, inst, ok, pb as [b'|];
      cbn [run_alone resume negb playwright persistentBrowser screenshotCount
           playwright_installed launch_succeeds connected launches];
      unfold reuse_or_launch, launch, isConnected;
      cbn [persistentBrowser connected launches launch_succeeds];
      repeat (case_decide || case_bool_decide);
      cbn [run_alone resume negb playwright persistentBrowser screenshotCount
           playwright_installed launch_succeeds connected launches
           reuse_or_launch launch snd fst default from_option];
      unfold reuse_or_launch, launch;
      cbn [persistentBrowser connected launches launch_succeeds snd fst
           run_alone resume playwright screenshotCount default from_option id];
      intros Hr; try discriminate Hr; injection Hr as <-;
      (split; [reflexivity|]);
      try done; rewrite elem_of_app, list_elem_of_singleton; by right.
  - cbn [playwright playwright_installed]. intros -> ->. reflexivity.
Qed.

(** X11. Whatever the host and the state, one call makes at most one launch,
    and a handle it returns is stored in [persistentBrowser] and
    connected. When the module cannot be loaded the call returns [null]
    and changes nothing. *)
Theorem getBrowser_never (h : host) (st : state) :
  (launches (getBrowser h st).2 ≤ S (launches st))%nat
  ∧ (∀ b, (getBrowser h st).1 = Returned (Some b) →
       persistentBrowser (getBrowser h st).2 = Some b
       ∧ b ∈ connected (getBrowser h st).2)
  ∧ (playwright st = false → playwright_installed h = false →
     getBrowser h st = (Returned None, st)).
Proof. intros; eapply getBrowser_null_cases; eauto. Qed.

End BrowserPolicy.

Lemma getBrowser_policy_witness :
  Browser.getBrowser (Browser.mk_host true true)
    (Browser.mk_state true (Some 0%nat) 100 [0%nat] 1)
  = (Browser.Returned (Some 1%nat),
     Browser.mk_state true (Some 1%nat) 0 [1%nat] 2).
Proof.
  rewrite (getBrowser_policy (Browser.mk_host true true) true (Some 0%nat)
             100 [0%nat] 1 eq_refl eq_refl).
  reflexivity.
Defined.

Lemma getBrowser_never_witness :
  Browser.getBrowser (Browser.mk_host false true) Browser.unstarted
  = (Browser.Returned None, Browser.unstarted).
Proof.
  destruct (getBrowser_never (Browser.mk_host false true) Browser.unstarted)
    as (_ & _ & Hnull).
  apply Hnull; reflexivity.
Defined.

(** * Further properties of the screenshot route *)

Section ImageRouteMore.
Import JS Server.

(** The key of the request, as the route builds it. *)
Lemma image_route_past_checks e req st row :
  validDimensions (width_of req) (height_of req) (scale_of req) = true →
  is_handle (cleanUsername (username req)) = true →
  Db.getCachedProfile (db st) (cleanUsername (username req)) = Some row →
  image_route e req st =
    let key := cacheKey (cleanUsername (username req)) (width_of req)
                 (height_of req) (scale_of req) (theme_of req) in
    match
      match Db.getCachedImage (db st) key with
      | Some (image, cached_at) =>
          if decide (now_probe e - cached_at < SCREENSHOT_CACHE_TTL)
          then Some image else None
      | None => None
      end
    with
    | Some image => (Png image, st)
    | None =>
        match Browser.getBrowser (browser_host e) (browser st) with
        | (Browser.Rejected, b) => (Unhandled, set_browser b st)
        | (Browser.Returned None, b) =>
            (JsonError 503 "Screenshot service unavailable", set_browser b st)
        | (Browser.Returned (Some _), b) => try_block e key (set_browser b st)
        end
    end.
Proof.
  intros Hv Hh Hp. unfold image_route. by rewrite Hv, Hh, Hp.
Qed.

Lemma image_cache_hit e req st row image cached_at :
  validDimensions (width_of req) (height_of req) (scale_of req) = true →
  is_handle (cleanUsername (username req)) = true →
  Db.getCachedProfile (db st) (cleanUsername (username req)) = Some row →
  Db.getCachedImage (db st)
    (cacheKey (cleanUsername (username req)) (width_of req) (height_of req)
       (scale_of req) (theme_of req)) = Some (image, cached_at) →
  now_probe e - cached_at < SCREENSHOT_CACHE_TTL →
  image_route e req st = (Png image, st).
Proof.
  intros Hv Hh Hp Hi Hfresh.
  rewrite (image_route_past_checks e req st row Hv Hh Hp). cbn zeta.
  rewrite Hi. by rewrite decide_True.
Qed.

(** A screenshot cached less than one hour ago is served from the cache:
    the cached bytes are the answer and the server state, the browser
    included, is left as it was. *)
Theorem image_route_cache_hit e req st row image cached_at :
  validDimensions (width_of req) (height_of req) (scale_of req) = true →
  is_handle (cleanUsername (username req)) = true →
  Db.getCachedProfile (db st) (cleanUsername (username req)) = Some row →
  Db.getCachedImage (db st)
    (cacheKey (cleanUsername (username req)) (width_of req) (height_of req)
       (scale_of req) (theme_of req)) = Some (image, cached_at) →
  now_probe e - cached_at < SCREENSHOT_CACHE_TTL →
  image_route e req st = (Png image, st).
Proof. intros; eapply image_cache_hit; eauto. Qed.

(** X12. A capture that succeeds and is stored answers with the captured bytes,
    counts one more screenshot, and the same request repeated less than one
    hour after the write is served those bytes from the cache without
    going to the browser. *)
Theorem image_route_render_then_hit e e' req st row png b :
  validDimensions (width_of req) (height_of req) (scale_of req) = true →
  is_handle (cleanUsername (username req)) = true →
  Db.getCachedProfile (db st) (cleanUsername (username req)) = Some row →
  Db.getCachedImage (db st)
    (cacheKey (cleanUsername (username req)) (width_of req) (height_of req)
       (scale_of req) (theme_of req)) = None →
  (Browser.getBrowser (browser_host e) (browser st)).1
    = Browser.Returned (Some b) →
  newContext_ok e = true → page_ok e = true → screenshot e = Some png →
  close_ok e = true → setCachedImage_ok e = true →
  now_probe e' - now_store e < SCREENSHOT_CACHE_TTL →
  let r := image_route e req st in
  r.1 = Png png
  ∧ Browser.screenshotCount (browser r.2)
    = S (Browser.screenshotCount
           (Browser.getBrowser (browser_host e) (browser st)).2)
  ∧ image_route e' req r.2 = (Png png, r.2).
Proof.
  intros Hv Hh Hp Hi Hb Hctx Hpage Hshot Hclose Hwrite Hfresh r.
  assert (r = (Png png,
               set_db (Db.setCachedImage
                         (db (increment_screenshotCount
                                (set_browser
                                   (Browser.getBrowser (browser_host e)
                                      (browser st)).2 st)))
                         (cacheKey (cleanUsername (username req))
                            (width_of req) (height_of req) (scale_of req)
                            (theme_of req)) png (now_store e))
                 (increment_screenshotCount
                    (set_browser
                       (Browser.getBrowser (browser_host e) (browser st)).2
                       st)))) as Hr.
  { unfold r. rewrite (image_route_past_checks e req st row Hv Hh Hp).
    cbn zeta. rewrite Hi.
    destruct (Browser.getBrowser (browser_host e) (browser st))
      as [res bs] eqn:Eb.
    cbn [fst] in Hb. subst res. cbn [snd].
    unfold try_block. by rewrite Hctx, Hpage, Hshot, Hclose, Hwrite. }
  rewrite Hr. cbn [fst snd]. split_and!; [done|done|].
  apply (image_cache_hit e' req _ row png (now_store e)); try done.
  unfold Db.getCachedImage, Db.setCachedImage, set_db. cbn.
  apply lookup_insert_eq.
Qed.


(** X14. When the rendering module is not available the route answers 503 and
    leaves the server state as it was. *)
Theorem image_route_unavailable e req st row :
  validDimensions (width_of req) (height_of req) (scale_of req) = true →
  is_handle (cleanUsername (username req)) = true →
  Db.getCachedProfile (db st) (cleanUsername (username req)) = Some row →
  Db.getCachedImage (db st)
    (cacheKey (cleanUsername (username req)) (width_of req) (height_of req)
       (scale_of req) (theme_of req)) = None →
  Browser.playwright (browser st) = false →
  Browser.playwright_installed (browser_host e) = false →
  image_route e req st
  = (JsonError 503 "Screenshot service unavailable", st).
Proof.
  intros Hv Hh Hp Hi Hpw Hinst.
  rewrite (image_route_past_checks e req st row Hv Hh Hp). cbn zeta.
  rewrite Hi.
  destruct (getBrowser_null_cases (browser_host e) (browser st)) as (_ & _ & Hnull).
  rewrite Hnull by done. by destruct st.
Qed.

End ImageRouteMore.

Lemma image_route_cache_hit_witness :
  let st := Fixtures.server_with_profile "jack" in
  let cached :=
    Server.set_db
      (Db.setCachedImage (Server.db st) "jack_393x852_3_dark" [Byte.x01] 4000)
      st in
  Server.image_route (Fixtures.capture_host true)
    (Fixtures.plain_image_request "jack") cached
  = (Server.Png [Byte.x01], cached).
Proof.
  intros st cached.
  apply (image_route_cache_hit _ _ _ ("jack-profile", 0) [Byte.x01] 4000);
    vm_compute; reflexivity.
Defined.

Lemma image_route_render_then_hit_witness :
  let st := Fixtures.server_with_profile "jack" in
  let r := Server.image_route (Fixtures.capture_host true)
             (Fixtures.plain_image_request "jack") st in
  r.1 = Server.Png Fixtures.png
  ∧ Server.image_route (Fixtures.capture_host true)
      (Fixtures.plain_image_request "jack") r.2 = (Server.Png Fixtures.png, r.2).
Proof.
  intros st r.
  destruct (image_route_render_then_hit (Fixtures.capture_host true)
              (Fixtures.capture_host true)
              (Fixtures.plain_image_request "jack") st ("jack-profile", 0)
              Fixtures.png 0%nat) as (H1 & _ & H3);
    try (vm_compute; reflexivity).
  split; [exact H1 | exact H3].
Defined.

Lemma image_route_unavailable_witness :
  Server.image_route
    (Server.mk_image_host (Browser.mk_host false true) 5000 true true true
       (Some Fixtures.png) true true 6000 true)
    (Fixtures.plain_image_request "jack") (Fixtures.server_with_profile "jack")
  = (Server.JsonError 503 "Screenshot service unavailable",
     Fixtures.server_with_profile "jack").
Proof.
  apply (image_route_unavailable _ _ _ ("jack-profile", 0));
    vm_compute; reflexivity.
Defined.

(** * Further properties of the profile route *)

Section UserRouteMore.
Import JS Server.

Lemma profile_cache_hit e req st data cached_at :
  xClient_configured e = true → user_username req ≠ "" →
  is_handle (cleanUsername (user_username req)) = true →
  Db.getCachedProfile (db st) (cleanUsername (user_username req))
    = Some (data, cached_at) →
  user_now_cache e - cached_at < PROFILE_CACHE_TTL →
  user_route e req st = (JsonData data, st).
Proof.
  intros Hx Hu Hh Hc Hfresh. unfold user_route.
  rewrite Hx, truthy_nonempty, Hh, Hc by done. cbn [negb].
  by rewrite decide_True.
Qed.

(** A profile cached less than seven days ago is answered from the cache:
    the route returns the cached data and leaves the whole server state
    as it was; the 3-per-day limiter is not consulted and records
    nothing. *)
Theorem user_route_cache_hit e req st data cached_at :
  xClient_configured e = true → user_username req ≠ "" →
  is_handle (cleanUsername (user_username req)) = true →
  Db.getCachedProfile (db st) (cleanUsername (user_username req))
    = Some (data, cached_at) →
  user_now_cache e - cached_at < PROFILE_CACHE_TTL →
  user_route e req st = (JsonData data, st).
Proof. intros; eapply profile_cache_hit; eauto. Qed.

(** X15. A profile that is fetched is cached: after a miss that the limiter
    lets through (or with the limiter disabled) and a successful fetch and
    write, the answer is the fetched profile, and the same request
    repeated less than seven days after the write is answered with it from
    the cache, whatever the X API would say then. *)
Theorem user_route_fetch_then_hit e e' req st userData :
  xClient_configured e = true → xClient_configured e' = true →
  user_username req ≠ "" →
  is_handle (cleanUsername (user_username req)) = true →
  Db.getCachedProfile (db st) (cleanUsername (user_username req)) = None →
  DISABLE_RATE_LIMIT e = true
  ∨ (RateLimit.profileLimiter (user_xff req) (user_now_limit e)
       (rateLimitStore st)).1 = RateLimit.Next →
  x_api e = XUser userData → setCachedProfile_ok e = true →
  user_now_cache e' - user_now_store e < PROFILE_CACHE_TTL →
  let r := user_route e req st in
  r.1 = JsonData userData
  ∧ user_route e' req r.2 = (JsonData userData, r.2).
Proof.
  intros Hx Hx' Hu Hh Hc Hlim Hapi Hwrite Hfresh r.
  assert (∃ st1, r = (JsonData userData,
                      set_db (Db.setCachedProfile (db st1)
                                (cleanUsername (user_username req)) userData
                                (user_now_store e)) st1)) as [st1 Hr].
  { unfold r, user_route.
    rewrite Hx, truthy_nonempty, Hh, Hc by done. cbn [negb].
    unfold after_miss, fetch_profile. rewrite Hapi, Hwrite.
    destruct (DISABLE_RATE_LIMIT e) eqn:Ed; [by eexists|].
    destruct Hlim as [?|Hlim]; [done|].
    destruct (RateLimit.profileLimiter (user_xff req) (user_now_limit e)
                (rateLimitStore st)) as [o rl].
    cbn [fst] in Hlim. subst o. by eexists. }
  rewrite Hr. cbn [fst snd]. split; [done|].
  apply (profile_cache_hit e' req _ userData (user_now_store e));
    try done.
  unfold Db.getCachedProfile, Db.setCachedProfile, set_db. cbn.
  apply lookup_insert_eq.
Qed.

(** X16. The profile cache changes only through a successful fetch: whenever
    the route leaves a different database behind, the X API had answered
    with a profile and that profile is the answer. A refusal by the
    limiter, an unknown user or a failed call write nothing. *)
Theorem user_route_writes_only_fetched e req st :
  db (user_route e req st).2 = db st
  ∨ ∃ userData, x_api e = XUser userData
                ∧ (user_route e req st).1 = JsonData userData.
Proof.
  unfold user_route, after_miss, fetch_profile.
  repeat case_match; cbn; eauto.
Qed.

(** Lower-casing is idempotent, so the second normalisation done by the
    database layer changes nothing: a cleaned name is looked up under
    itself. *)
Lemma lower_char_idem (c : ascii) : lower_char (lower_char c) = lower_char c.
Proof. destruct c as [[] [] [] [] [] [] [] []]; reflexivity. Qed.

Lemma chars_str (l : list ascii) : chars (str l) = l.
Proof. apply String.list_ascii_of_string_of_list_ascii. Qed.

Theorem cleaned_name_is_its_own_key (db : Db.t) (username : string) :
  toLowerCase (cleanUsername username) = cleanUsername username
  ∧ Db.getCachedProfile db (cleanUsername username)
    = Db.ProfileCache db !! cleanUsername username
  ∧ (∀ data now,
       Db.getCachedProfile
         (Db.setCachedProfile db (cleanUsername username) data now)
         (cleanUsername username) = Some (data, now)).
Proof.
  assert (toLowerCase (cleanUsername username) = cleanUsername username) as Hl.
  { unfold cleanUsername, toLowerCase. rewrite chars_str. f_equal.
    rewrite <- list_fmap_compose. apply list_fmap_ext.
    intros _ c _. apply lower_char_idem. }
  split_and!; [done| |].
  - unfold Db.getCachedProfile. by rewrite Hl.
  - intros data now. unfold Db.getCachedProfile, Db.setCachedProfile. cbn.
    apply lookup_insert_eq.
Qed.

End UserRouteMore.

Lemma user_route_cache_hit_witness :
  Server.user_route (Fixtures.profile_host 1000)
    (Fixtures.profile_request "Alice") (Fixtures.server_with_profile "alice")
  = (Server.JsonData "alice-profile", Fixtures.server_with_profile "alice").
Proof.
  apply (user_route_cache_hit _ _ _ "alice-profile" 0);
    try (vm_compute; reflexivity).
  discriminate.
Defined.

Lemma user_route_fetch_then_hit_witness :
  let st := Fixtures.server_with_profile "alice" in
  let r := Server.user_route (Fixtures.profile_host 1000)
             (Fixtures.profile_request "bob") st in
  r.1 = Server.JsonData "fetched-profile"
  ∧ Server.user_route (Fixtures.profile_host 2000)
      (Fixtures.profile_request "bob") r.2
    = (Server.JsonData "fetched-profile", r.2).
Proof.
  intros st r.
  apply (user_route_fetch_then_hit (Fixtures.profile_host 1000)
           (Fixtures.profile_host 2000) (Fixtures.profile_request "bob") st
           "fetched-profile"); try (vm_compute; reflexivity).
  - discriminate.
  - right. vm_compute. reflexivity.
Defined.


(** * Properties of the input validation *)

Section ValidationProps.

Import JS Validation.

Lemma str_chars (s : string) : str (chars s) = s.
Proof. apply String.string_of_list_ascii_of_string. Qed.

Lemma escape_char_safe (c : ascii) :
  Forall (λ d, code d ∉ [60; 62; 34; 39; 47]) (escape_char c).
Proof.
  destruct c as [[] [] [] [] [] [] [] []];
    apply (bool_decide_unpack _); vm_compute; exact I.
Qed.

Lemma escape_char_plain (c : ascii) :
  is_special c = false → escape_char c = [c].
Proof.
  destruct c as [[] [] [] [] [] [] [] []]; vm_compute; intros Hs;
    first [reflexivity | discriminate Hs].
Qed.

Lemma escape_char_special (c : ascii) :
  is_special c = true →
  (2 ≤ length (escape_char c))%nat
  ∧ ∃ rest, escape_char c = "&"%char :: rest.
Proof.
  destruct c as [[] [] [] [] [] [] [] []]; vm_compute; intros Hs;
    first [discriminate Hs | split; [lia | eexists; reflexivity]].
Qed.

Lemma escape_char_length (c : ascii) : (1 ≤ length (escape_char c))%nat.
Proof.
  destruct (is_special c) eqn:E.
  - apply escape_char_special in E as [? _]. lia.
  - by rewrite escape_char_plain.
Qed.

Lemma escaped_length (l : list ascii) :
  (length l ≤ length (concat (escape_char <$> l)))%nat.
Proof.
  induction l as [|c l IH]; [done|]. cbn. rewrite length_app.
  pose proof (escape_char_length c). lia.
Qed.

Lemma escaped_same_length (l : list ascii) :
  length (concat (escape_char <$> l)) = length l →
  Forall (λ c, is_special c = false) l.
Proof.
  induction l as [|c l IH]; [constructor|]. cbn. rewrite length_app.
  intros Hlen. pose proof (escape_char_length c).
  pose proof (escaped_length l).
  constructor; [|apply IH; lia].
  destruct (is_special c) eqn:E; [|done].
  apply escape_char_special in E as [? _]. lia.
Qed.

Lemma escaped_plain (l : list ascii) :
  Forall (λ c, is_special c = false) l → concat (escape_char <$> l) = l.
Proof.
  induction 1 as [|c l Hc _ IH]; [done|]. cbn.
  by rewrite escape_char_plain, IH.
Qed.

Lemma escaped_clean_source (l : list ascii) :
  Forall (λ c, is_special c = false) (concat (escape_char <$> l)) →
  Forall (λ c, is_special c = false) l.
Proof.
  induction l as [|c l IH]; [constructor|]. cbn.
  rewrite Forall_app. intros [Hc Hl]. constructor; [|by apply IH].
  destruct (is_special c) eqn:E; [|done].
  apply escape_char_special in E as (_ & rest & Heq).
  rewrite Heq in Hc. apply Forall_cons in Hc as [Hamp _].
  vm_compute in Hamp. discriminate Hamp.
Qed.

(** ** [escapeHtml] *)

(** X21. The result of [escapeHtml] holds none of the characters less-than,
    greater-than, double quote, apostrophe and slash, and it is never
    shorter than the text. The text comes back unchanged exactly when it
    holds none of the six listed characters; escaping a second time changes
    the result again unless the first time changed nothing, so a text with
    a listed character grows each time it is escaped. *)
Theorem escapeHtml_spec (text : string) :
  Forall (λ c, code c ∉ [60; 62; 34; 39; 47]) (chars (escapeHtml text))
  ∧ (length (chars text) ≤ length (chars (escapeHtml text)))%nat
  ∧ (escapeHtml text = text
     ↔ Forall (λ c, is_special c = false) (chars text))
  ∧ (escapeHtml (escapeHtml text) = escapeHtml text
     ↔ escapeHtml text = text).
Proof.
  assert (∀ t, escapeHtml t = t
               ↔ Forall (λ c, is_special c = false) (chars t)) as Hfix.
  { intros t. unfold escapeHtml. split.
    - intros Heq. apply escaped_same_length.
      apply (f_equal chars) in Heq. rewrite chars_str in Heq.
      by rewrite Heq.
    - intros Hall. rewrite escaped_plain by done. apply str_chars. }
  split_and!.
  - unfold escapeHtml. rewrite chars_str.
    induction (chars text) as [|c l IH]; [constructor|]. cbn.
    apply Forall_app. split; [apply escape_char_safe | exact IH].
  - unfold escapeHtml. rewrite chars_str. apply escaped_length.
  - apply Hfix.
  - split.
    + intros Htwice. apply Hfix. apply Hfix in Htwice.
      unfold escapeHtml in Htwice. rewrite chars_str in Htwice.
      by apply escaped_clean_source.
    + intros Heq. by rewrite !Heq.
Qed.

(** ** [validateEmail] *)

Lemma is_at_eq (c : ascii) : is_at c = true → c = "@"%char.
Proof.
  destruct c as [[] [] [] [] [] [] [] []]; vm_compute; intros Hc;
    first [reflexivity | discriminate Hc].
Qed.

Lemma is_dot_eq (c : ascii) : is_dot c = true → c = "."%char.
Proof.
  destruct c as [[] [] [] [] [] [] [] []]; vm_compute; intros Hc;
    first [reflexivity | discriminate Hc].
Qed.

Lemma email_char_spec (c : ascii) :
  email_char c = true → is_whitespace c = false ∧ is_at c = false.
Proof.
  unfold email_char, is_at. intros [? ?]%andb_prop.
  split; by apply negb_true_iff.
Qed.

Lemma take_while_stop {A} (p : A → bool) (a : list A) x r :
  forallb p a = true → p x = false → take_while p (a ++ x :: r) = a.
Proof.
  intros Ha Hx. induction a as [|y a IH]; cbn in *.
  - by rewrite Hx.
  - apply andb_prop in Ha as [Hy Ha]. rewrite Hy. f_equal. by apply IH.
Qed.

Lemma take_while_all {A} (p : A → bool) (l : list A) :
  forallb p (take_while p l) = true.
Proof.
  induction l as [|x l IH]; [done|]. cbn. destruct (p x) eqn:E; [|done].
  cbn. by rewrite E, IH.
Qed.

Lemma take_while_split {A} (p : A → bool) (l : list A) :
  l = take_while p l ++ drop (length (take_while p l)) l.
Proof.
  induction l as [|x l IH]; [done|]. cbn. destruct (p x); [|done].
  cbn. by f_equal.
Qed.

Lemma inner_dot (rest : list ascii) :
  existsb is_dot (removelast (tail rest)) = true
  ↔ ∃ B C, rest = B ++ "."%char :: C ∧ B ≠ [] ∧ C ≠ [].
Proof.
  split.
  - intros (x & Hin & Hx)%existsb_exists.
    apply is_dot_eq in Hx as ->.
    apply list_elem_of_In, list_elem_of_split in Hin
      as (B' & C' & Hmid).
    destruct rest as [|b t]; [by destruct B'|]. cbn [tail] in Hmid.
    assert (t ≠ []) as Hne by (intros ->; by destruct B').
    rewrite (app_removelast_last "."%char Hne), Hmid.
    exists (b :: B'), (C' ++ [List.last t "."%char]).
    split_and!; [|done|by destruct C'].
    cbn. by rewrite <- app_assoc.
  - intros (B & C & -> & HB & HC).
    destruct B as [|b B']; [done|]. cbn [tail app].
    rewrite removelast_app by done.
    destruct C as [|c C']; [done|]. cbn [removelast].
    rewrite existsb_app. cbn. by rewrite orb_true_r.
Qed.

Lemma email_test_shape (l : list ascii) :
  email_test l = true ↔ email_shape l.
Proof.
  unfold email_test, email_shape. split.
  - pose proof (take_while_split email_char l) as Hsplit.
    pose proof (take_while_all email_char l) as Hall.
    destruct (drop (length (take_while email_char l)) l) as [|c rest];
      [done|].
    intros [[[Hat Hne]%andb_prop Hrest]%andb_prop Hdot]%andb_prop.
    apply is_at_eq in Hat as ->.
    apply negb_true_iff, bool_decide_eq_false in Hne.
    apply inner_dot in Hdot as (B & C & -> & HB & HC).
    exists (take_while email_char l), B, C.
    split_and!; try done.
    rewrite forallb_app in Hrest. cbn [forallb] in Hrest.
    apply andb_prop in Hrest as [HfB [_ HfC]%andb_prop].
    by rewrite !forallb_app, Hall, HfB, HfC.
  - intros (A & B & C & -> & HA & HB & HC & Hok).
    rewrite !forallb_app in Hok.
    apply andb_prop in Hok as [HfA [HfB HfC]%andb_prop].
    rewrite take_while_stop by done.
    rewrite drop_app_length.
    apply andb_true_intro. split; [|apply inner_dot; eauto].
    apply andb_true_intro. split.
    + apply andb_true_intro. split; [done|].
      apply negb_true_iff, bool_decide_eq_false. done.
    + rewrite forallb_app. cbn [forallb]. by rewrite HfB, HfC.
Qed.

Lemma accepted_iff_shape (email : string) :
  validateEmail email = true
  ↔ (length (chars email) ≤ 254)%nat ∧ email_shape (chars email).
Proof.
  unfold validateEmail. rewrite !andb_true_iff, email_test_shape.
  rewrite negb_true_iff, bool_decide_eq_false, negb_true_iff, Z.ltb_ge.
  split.
  - intros [[_ ?] ?]. split; [lia|done].
  - intros [? Hshape]. split_and!; [|lia|done].
    intros ->. destruct Hshape as (A & ? & ? & Heq & _).
    by destruct A.
Qed.

(** X22. [validateEmail] accepts exactly the strings of at most 254 characters
    that consist of a non-empty local part, an at sign, and a domain with a
    dot that is neither its first nor its last character, where neither
    part holds white space or a further at sign. *)
Theorem validateEmail_shape (email : string) :
  validateEmail email = true
  ↔ (length (chars email) ≤ 254)%nat ∧ email_shape (chars email).
Proof. apply accepted_iff_shape. Qed.

Lemma lower_char_whitespace (c : ascii) :
  is_whitespace (lower_char c) = is_whitespace c.
Proof. destruct c as [[] [] [] [] [] [] [] []]; reflexivity. Qed.

Lemma drop_while_head {A} (p : A → bool) (l : list A) :
  Forall (λ x, p x = false) l → drop_while p l = l.
Proof. destruct 1 as [|x l Hx _]; [done|]. cbn. by rewrite Hx. Qed.

Lemma accepted_email_clean (email : string) :
  validateEmail email = true →
  Forall (λ c, is_whitespace c = false) (chars email)
  ∧ length (filter (λ c, is_at c = true) (chars email)) = 1%nat
  ∧ trim (toLowerCase email) = toLowerCase email.
Proof.
  intros (_ & A & B & C & Heq & _ & _ & _ & Hok)%accepted_iff_shape.
  rewrite !forallb_app in Hok.
  apply andb_prop in Hok as [HfA [HfB HfC]%andb_prop].
  assert (∀ l, forallb email_char l = true →
               Forall (λ c, is_whitespace c = false) l
               ∧ filter (λ c, is_at c = true) l = []) as Hpart.
  { induction l as [|c l IH]; [done|]. cbn [forallb].
    intros [Hc Hl]%andb_prop. apply email_char_spec in Hc as [Hw Ha].
    destruct (IH Hl) as [? Hnil]. split; [by constructor|].
    rewrite filter_cons, Hnil. case_decide; [congruence|done]. }
  destruct (Hpart A HfA) as [HwA HaA].
  destruct (Hpart B HfB) as [HwB HaB].
  destruct (Hpart C HfC) as [HwC HaC].
  assert (Forall (λ c, is_whitespace c = false) (chars email)) as Hclean.
  { rewrite Heq. apply Forall_app. split; [done|].
    constructor; [done|]. apply Forall_app. split; [done|].
    by constructor. }
  split_and!; [done| |].
  - rewrite Heq. rewrite filter_app, HaA, filter_cons, filter_app, HaB,
      filter_cons, HaC. reflexivity.
  - unfold trim, toLowerCase. rewrite chars_str.
    assert (Forall (λ c, is_whitespace c = false)
              (lower_char <$> chars email)) as Hlow.
    { apply Forall_fmap. eapply Forall_impl; [exact Hclean|].
      intros c Hc. cbn. by rewrite lower_char_whitespace. }
    rewrite (drop_while_head _ _ Hlow).
    rewrite drop_while_head by (by apply Forall_reverse).
    by rewrite reverse_involutive.
Qed.

(** X23. An address that [validateEmail] accepts holds no white space and
    exactly one at sign; the [trim()] that the sign-up and sign-in routes
    apply after the check therefore never removes anything: an address
    typed with a space around it is refused, not repaired. *)
Theorem validateEmail_accepted (email : string) :
  validateEmail email = true →
  Forall (λ c, is_whitespace c = false) (chars email)
  ∧ length (filter (λ c, is_at c = true) (chars email)) = 1%nat
  ∧ trim (toLowerCase email) = toLowerCase email.
Proof. intros; eapply accepted_email_clean; eauto. Qed.

End ValidationProps.

Lemma validateEmail_accepted_witness :
  JS.trim (JS.toLowerCase "Jack@Example.com") = "jack@example.com".
Proof.
  destruct (validateEmail_accepted "Jack@Example.com") as (_ & _ & Htrim).
  - vm_compute. reflexivity.
  - rewrite Htrim. vm_compute. reflexivity.
Defined.

(** * Properties of the usage quota *)

Section UsageProps.

Import JS Usage.

Variable FREE_USAGE_LIMIT : option string.
Variable uid : string.
Hypothesis uid_truthy : uid ≠ "".

Lemma ge_of_Z (c n : Z) : ge (of_Z c) (of_Z n) = (n <=? c).
Proof.
  unfold ge, of_Z, lt, Qlt_bool, Qle_bool. cbn.
  by rewrite negb_involutive, !Z.mul_1_r.
Qed.

Lemma findUser_uid (db : users) : findUser db (Some uid) = db !! uid.
Proof.
  unfold findUser. cbn. by rewrite bool_decide_eq_false_2.
Qed.

Lemma free_not_subscriber u now : free u → isSubscriber u now = false.
Proof. unfold free, isSubscriber. by intros ->. Qed.

Lemma valid_operation (operation : string) :
  negb (truthy (Some operation))
  || negb (bool_decide (Some operation = Some "check"
                        ∨ Some operation = Some "track")) = false
  ↔ operation = "check" ∨ operation = "track".
Proof.
  rewrite orb_false_iff, !negb_false_iff, bool_decide_eq_true.
  cbn. rewrite negb_true_iff, bool_decide_eq_false. split.
  - intros [_ [?|?]]; simplify_eq; auto.
  - intros [->| ->]; split; auto; discriminate.
Qed.

Lemma set_usage_lookup (u : usage) (db : users) row :
  db !! uid = Some row →
  set_usage uid u db !! uid
  = Some (mk_user (email row) (name row) (created_at row)
            (subscription_stripeID row) (subscription_expires row)
            (subscription_status row) (Some (count u)) (reset_at u)).
Proof. intros Hrow. unfold set_usage. by rewrite lookup_alter_eq, Hrow. Qed.


Lemma found_count_stored (c : Z) : 
  (if truthy_Z (Some c) then default 0 (Some c) else 0) = c.
Proof. cbn. destruct (c =? 0) eqn:E; cbn; [|done]. lia. Qed.



(** X25. Once the stored end of the period has passed, or when none is stored,
    the first valid operation of a free user starts a period of thirty
    days at the time of the request and counts from zero: afterwards the
    row holds 1 after a [track] under a positive limit, 0 otherwise. *)
Theorem usage_period_restarts (n : Z) (operation : string) (now_ms : Z)
    db u :
  limit_of FREE_USAGE_LIMIT = of_Z n →
  db !! uid = Some u → free u →
  operation = "check" ∨ operation = "track" →
  truthy_Z (usage_reset_at u) = false
  ∨ default 0 (usage_reset_at u) < now_ms / 1000 →
  let res :=
    usage_route FREE_USAGE_LIMIT now_ms (Some uid) (Some operation) db in
  ∃ u', res.2 !! uid = Some u'
        ∧ usage_reset_at u' = Some (now_ms / 1000 + 2592000)
        ∧ usage_count u'
          = Some (if bool_decide (operation = "track" ∧ 0 < n)
                  then 1 else 0)
        ∧ (operation = "track" → n ≤ 0 → res.1 = LimitReached (of_Z n)).
Proof.
  intros Hlimit Hrow Hfree Hop Hover. unfold usage_route.
  apply valid_operation in Hop as Hvalid. rewrite Hvalid.
  rewrite findUser_uid, Hrow, (free_not_subscriber _ _ Hfree), Hlimit.
  assert (negb (truthy_Z (reset_at (found_usage u)))
          || bool_decide
               (default 0 (reset_at (found_usage u)) < now_ms / 1000)
          = true) as ->.
  { unfold found_usage. cbn [reset_at].
    destruct (truthy_Z (usage_reset_at u)) eqn:E; [|done].
    destruct Hover as [?|Hlt]; [done|].
    rewrite E. cbn. by rewrite bool_decide_eq_true_2. }
  cbn [count reset_at default]. rewrite ge_of_Z.
  destruct Hop as [->| ->].
  - rewrite bool_decide_eq_false_2 by discriminate.
    eexists. cbn [fst snd]. split; [by apply set_usage_lookup|].
    cbn. split_and!; done.
  - rewrite bool_decide_eq_true_2 by done.
    destruct (Z.leb_spec n 0) as [Hle|Hlt].
    + eexists. cbn [fst snd]. split; [by apply set_usage_lookup|].
      cbn. split_and!; try done.
      rewrite bool_decide_eq_false_2; [done|]. lia.
    + eexists. cbn [fst snd]. split.
      { apply set_usage_lookup. by apply set_usage_lookup. }
      cbn. split_and!; try done.
      * rewrite bool_decide_eq_true_2; [done|]. split; [done|lia].
      * lia.
Qed.


End UsageProps.


Lemma usage_period_restarts_witness :
  let db : Usage.users :=
    {[ "user-1" := Usage.mk_user "jack@example.com" "Jack" 0 None None None
                     (Some 0) None ]} in
  ∃ u', (Usage.usage_route None 1000000 (Some "user-1") (Some "track") db).2
          !! "user-1" = Some u'
        ∧ Usage.usage_reset_at u' = Some 2593000
        ∧ Usage.usage_count u' = Some 1.
Proof.
  intros db.
  destruct (usage_period_restarts None "user-1" ltac:(discriminate) 20
              "track" 1000000 db
              (Usage.mk_user "jack@example.com" "Jack" 0 None None None
                 (Some 0) None))
    as (u' & Hrow & Hreset & Hcount & _).
  - vm_compute. reflexivity.
  - vm_compute. reflexivity.
  - vm_compute. reflexivity.
  - right. reflexivity.
  - left. reflexivity.
  - exists u'. split; [exact Hrow|]. split; [exact Hreset | exact Hcount].
Defined.


(** * Properties of sign-up and sign-in *)

Section AccountsProps.

Import JS Validation Usage Accounts.

Lemma find_by_email_Some db e id u :
  find_by_email db e = Some (id, u) → db !! id = Some u ∧ email u = e.
Proof.
  unfold find_by_email. intros Hhead.
  assert ((id, u) ∈ filter (λ p : string * user_row, email p.2 = e)
                      (map_to_list db)) as Hin.
  { destruct (filter _ _) as [|x l]; [done|]. cbn in Hhead.
    injection Hhead as ->. left. }
  apply list_elem_of_filter in Hin as [He Hin].
  by apply elem_of_map_to_list in Hin.
Qed.

Lemma find_by_email_None db e :
  find_by_email db e = None ↔ ∀ id u, db !! id = Some u → email u ≠ e.
Proof.
  unfold find_by_email. split.
  - intros Hhead id u Hrow He.
    assert ((id, u) ∈ filter (λ p : string * user_row, email p.2 = e)
                        (map_to_list db)) as Hin.
    { apply list_elem_of_filter. split; [done|].
      by apply elem_of_map_to_list. }
    destruct (filter _ _) as [|x l]; [by apply not_elem_of_nil in Hin|done].
  - intros Hnone.
    destruct (filter _ _) as [|[id u] l] eqn:E; [done|]. exfalso.
    assert ((id, u) ∈ filter (λ p : string * user_row, email p.2 = e)
                        (map_to_list db)) as Hin by (rewrite E; left).
    apply list_elem_of_filter in Hin as [He Hin].
    apply elem_of_map_to_list in Hin. by eapply Hnone.
Qed.

Lemma find_by_email_unique db id u :
  unique_emails db → db !! id = Some u →
  find_by_email db (email u) = Some (id, u).
Proof.
  intros Huniq Hrow.
  destruct (find_by_email db (email u)) as [[id' u']|] eqn:E.
  - apply find_by_email_Some in E as [Hrow' He].
    assert (id' = id) as -> by (by eapply Huniq).
    congruence.
  - exfalso. by eapply (proj1 (find_by_email_None _ _) E).
Qed.

Lemma insertUser_Some db id e n created db' :
  insertUser db id e n created = Some db'
  ↔ db !! id = None ∧ find_by_email db e = None
    ∧ db' = <[id := mk_user e n created None None None (Some 0) None]> db.
Proof.
  unfold insertUser. split.
  - destruct (bool_decide (is_Some (db !! id))) eqn:E1; [done|].
    destruct (bool_decide (is_Some (find_by_email db e))) eqn:E2; [done|].
    cbn. intros [= <-].
    apply bool_decide_eq_false in E1, E2.
    apply eq_None_not_Some in E1. apply eq_None_not_Some in E2. done.
  - intros (H1 & H2 & ->). by rewrite H1, H2.
Qed.

Lemma insertUser_taken db id e n created :
  is_Some (find_by_email db e) → insertUser db id e n created = None.
Proof.
  intros Htaken. unfold insertUser.
  rewrite (bool_decide_eq_true_2 _ Htaken). by rewrite orb_true_r.
Qed.

Lemma unique_emails_insert db id row :
  unique_emails db → db !! id = None →
  find_by_email db (email row) = None →
  unique_emails (<[id := row]> db).
Proof.
  intros Huniq Hfresh Hfree id1 id2 u1 u2 H1 H2 He.
  pose proof (proj1 (find_by_email_None _ _) Hfree) as Hno.
  destruct (decide (id1 = id)) as [->|Hne1];
    destruct (decide (id2 = id)) as [->|Hne2]; [done| | |].
  - rewrite lookup_insert_eq in H1. rewrite lookup_insert_ne in H2 by done.
    injection H1 as <-. exfalso. by eapply Hno.
  - rewrite lookup_insert_eq in H2. rewrite lookup_insert_ne in H1 by done.
    injection H2 as <-. exfalso. by eapply Hno.
  - rewrite lookup_insert_ne in H1, H2 by done. by eapply Huniq.
Qed.

Lemma generateToken_Some h id :
  truthy (JWT_SECRET h) = true →
  generateToken h id
  = Some (jwt_sign h id (tokenExpireTimestamp (now_sign h))).
Proof. unfold generateToken. by intros ->. Qed.

Lemma accepted_email_key (e : string) :
  validateEmail e = true → trim (toLowerCase e) = toLowerCase e.
Proof. intros He. by apply accepted_email_clean. Qed.

Lemma validatePassword_truthy (p : string) :
  validatePassword p = true → truthy (Some p) = true.
Proof. unfold validatePassword. cbn. by intros [[? _]%andb_prop _]%andb_prop. Qed.

(** X27. A sign-up with valid fields, a configured secret, a fresh identifier
    and an address not yet in [Users] or [Auths] answers 201, stores the
    anti-forgery token under the new identifier and keeps addresses
    unique. A sign-in that follows with an address equal up to case is
    decided by [bcrypt.compare] against the hash stored at sign-up: it
    answers with the same identifier, address and escaped name when the
    comparison holds, and with 401 when it does not. *)
Theorem signup_then_signin (h : host) (e p n : string) (st : state) :
  validateEmail e = true → validatePassword p = true →
  validateName n = true →
  truthy (JWT_SECRET h) = true →
  Users st !! uuid h = None →
  find_by_email (Users st) (toLowerCase e) = None →
  Auths st !! toLowerCase e = None →
  unique_emails (Users st) →
  LRUMap.wf (csrfTokenStore st) →
  (0 < LRUMap.maxSize (csrfTokenStore st))%nat →
  let r := signup_route h (Some e) (Some p) (Some n) st in
  r.1 = Created (uuid h) (toLowerCase e) (escapeHtml (trim n))
          (tokenExpireTimestamp (now_reply h)) (csrf_token h)
          (jwt_sign h (uuid h) (tokenExpireTimestamp (now_sign h)))
  ∧ LRUMap.peek (uuid h) (csrfTokenStore r.2)
    = Some (Csrf.mk_entry (csrf_token h) (now_csrf h))
  ∧ unique_emails (Users r.2)
  ∧ ∀ (h2 : host) (e2 p2 : string),
      validateEmail e2 = true → toLowerCase e2 = toLowerCase e →
      p2 ≠ "" → truthy (JWT_SECRET h2) = true →
      (signin_route h2 (Some e2) (Some p2) r.2).1
      = if bcrypt_compare h2 p2 (hashed h)
        then SignedIn (uuid h) (toLowerCase e) (escapeHtml (trim n)) None
               (tokenExpireTimestamp (now_reply h2)) (csrf_token h2)
               (jwt_sign h2 (uuid h) (tokenExpireTimestamp (now_sign h2)))
        else Unauthorized "Invalid credentials".
Proof.
  intros He Hp Hn Hjwt Hid Hfree Hauth Huniq Hwf Hpos r.
  set (row := mk_user (toLowerCase e) (escapeHtml (trim n)) (now_insert h)
                None None None (Some 0) None).
  assert (r = (Created (uuid h) (toLowerCase e) (escapeHtml (trim n))
                 (tokenExpireTimestamp (now_reply h)) (csrf_token h)
                 (jwt_sign h (uuid h) (tokenExpireTimestamp (now_sign h))),
               mk (<[uuid h := row]> (Users st))
                  (<[toLowerCase e := mk_auth (hashed h) (uuid h)]>
                     (Auths st))
                  (Csrf.issue (uuid h) (csrf_token h) (now_csrf h)
                     (csrfTokenStore st)))) as ->.
  { unfold r, signup_route. cbn [default from_option id].
    rewrite He, Hp, Hn. cbn [negb]. rewrite (accepted_email_key e He).
    rewrite (proj2 (insertUser_Some _ _ _ _ _ _)
               (conj Hid (conj Hfree eq_refl))).
    rewrite (generateToken_Some _ _ Hjwt).
    unfold insertAuth. cbn [set_Users Auths].
    rewrite Hauth. rewrite bool_decide_eq_false_2 by (by intros [? ?]).
    reflexivity. }
  cbn [fst snd Users Auths csrfTokenStore].
  split_and!; [done| | |].
  - unfold Csrf.issue. by apply peek_set_same.
  - by apply unique_emails_insert.
  - intros h2 e2 p2 He2 Hsame Hp2 Hjwt2.
    unfold signin_route. cbn [default from_option id Users Auths].
    rewrite He2. cbn [negb orb truthy].
    rewrite bool_decide_eq_false_2 by done. cbn [negb].
    rewrite (accepted_email_key e2 He2), Hsame.
    rewrite lookup_insert_eq. cbn [password].
    destruct (bcrypt_compare h2 p2 (hashed h)); cbn [negb fst]; [|done].
    rewrite (find_by_email_unique _ (uuid h) row).
    + rewrite (generateToken_Some _ _ Hjwt2). reflexivity.
    + by apply unique_emails_insert.
    + apply lookup_insert_eq.
Qed.

(** X28. Without a configured secret a valid sign-up answers 500 after the row
    of [Users] has been written: the row stays, no row of [Auths] and no
    anti-forgery token is written. From then on the address can neither
    be signed up again, which answers 400, nor signed in, which answers
    401. *)
Theorem signup_without_secret (h : host) (e p n : string) (st : state) :
  validateEmail e = true → validatePassword p = true →
  validateName n = true →
  truthy (JWT_SECRET h) = false →
  Users st !! uuid h = None →
  find_by_email (Users st) (toLowerCase e) = None →
  Auths st !! toLowerCase e = None →
  let r := signup_route h (Some e) (Some p) (Some n) st in
  r.1 = ServerError
  ∧ (∃ row, Users r.2 !! uuid h = Some row ∧ email row = toLowerCase e)
  ∧ Auths r.2 = Auths st
  ∧ csrfTokenStore r.2 = csrfTokenStore st
  ∧ (∀ (h2 : host) (p2 n2 : string),
       validatePassword p2 = true → validateName n2 = true →
       signup_route h2 (Some e) (Some p2) (Some n2) r.2
       = (BadRequest "Unable to create account with provided credentials",
          r.2))
  ∧ (∀ (h2 : host) (p2 : option string),
       signin_route h2 (Some e) p2 r.2
       = (Unauthorized "Invalid credentials", r.2)).
Proof.
  intros He Hp Hn Hjwt Hid Hfree Hauth r.
  set (row := mk_user (toLowerCase e) (escapeHtml (trim n)) (now_insert h)
                None None None (Some 0) None).
  assert (r = (ServerError,
               mk (<[uuid h := row]> (Users st)) (Auths st)
                  (csrfTokenStore st))) as ->.
  { unfold r, signup_route. cbn [default from_option id].
    rewrite He, Hp, Hn. cbn [negb]. rewrite (accepted_email_key e He).
    rewrite (proj2 (insertUser_Some _ _ _ _ _ _)
               (conj Hid (conj Hfree eq_refl))).
    unfold generateToken. rewrite Hjwt. reflexivity. }
  cbn [fst snd Users Auths csrfTokenStore].
  split_and!; try done.
  - exists row. split; [apply lookup_insert_eq | done].
  - intros h2 p2 n2 Hp2 Hn2. unfold signup_route.
    cbn [default from_option id Users].
    rewrite He, Hp2, Hn2. cbn [negb]. rewrite (accepted_email_key e He).
    rewrite insertUser_taken; [done|].
    destruct (find_by_email (<[uuid h := row]> (Users st)) (toLowerCase e))
      eqn:E; [done|].
    exfalso. eapply (proj1 (find_by_email_None _ _) E).
    + apply lookup_insert_eq.
    + done.
  - intros h2 p2. unfold signin_route.
    cbn [default from_option id Auths].
    rewrite He. cbn [negb orb].
    destruct (negb (truthy p2)); [done|].
    by rewrite (accepted_email_key e He), Hauth.
Qed.

(** Sign-in never writes [Users] or [Auths], and it leaves the whole
    state alone unless it answers 200. Sign-up writes [Auths] and the
    token store only together with a 201, and nothing at all when it
    refuses a field. *)
Theorem accounts_writes (h : host) (e p n : option string) (st : state) :
  let r := signin_route h e p st in
  let s := signup_route h e p n st in
  Users r.2 = Users st ∧ Auths r.2 = Auths st
  ∧ match r.1 with
    | SignedIn _ _ _ _ _ _ _ => True
    | _ => r.2 = st
    end
  ∧ match s.1 with
    | Created _ _ _ _ _ _ => True
    | _ => Auths s.2 = Auths st ∧ csrfTokenStore s.2 = csrfTokenStore st
    end
  ∧ (if validateEmail (default "" e) && validatePassword (default "" p)
        && validateName (default "" n)
     then True else s.2 = st).
Proof.
  cbn zeta. unfold signin_route, signup_route.
  split_and!.
  - repeat case_match; done.
  - repeat case_match; done.
  - repeat case_match; done.
  - repeat case_match; done.
  - destruct (validateEmail (default "" e)); [|done].
    destruct (validatePassword (default "" p)); [|done].
    destruct (validateName (default "" n)); [|done]. done.
Qed.

End AccountsProps.

Lemma signup_then_signin_witness :
  let h := Accounts.mk_host (Some "secret") "stored-hash"
             (λ p hash, bool_decide (p = "hunter22" ∧ hash = "stored-hash"))
             "uuid-1" "c0ffee" (λ uid _, uid) 1000 1000 1000 1000 in
  let st := Accounts.mk ∅ ∅ Csrf.csrfTokenStore in
  let r := Accounts.signup_route h (Some "Jack@Example.com")
             (Some "hunter22") (Some "Jack") st in
  r.1 = Accounts.Created "uuid-1" "jack@example.com" "Jack" 2592001
          "c0ffee" "uuid-1"
  ∧ (Accounts.signin_route h (Some "JACK@example.com") (Some "wrong") r.2).1
    = Accounts.Unauthorized "Invalid credentials".
Proof.
  intros h st r.
  destruct (signup_then_signin h "Jack@Example.com" "hunter22" "Jack" st)
    as (Hcreated & _ & _ & Hsignin).
  - vm_compute. reflexivity.
  - vm_compute. reflexivity.
  - vm_compute. reflexivity.
  - vm_compute. reflexivity.
  - vm_compute. reflexivity.
  - vm_compute. reflexivity.
  - vm_compute. reflexivity.
  - intros id1 id2 u1 u2 H1. unfold st in H1.
    cbn [Accounts.Users] in H1. rewrite lookup_empty in H1.
    discriminate H1.
  - constructor.
  - vm_compute. lia.
  - split; [exact Hcreated|]. unfold r.
    rewrite (Hsignin h "JACK@example.com" "wrong");
      [reflexivity | vm_compute; reflexivity | vm_compute; reflexivity
      | discriminate | vm_compute; reflexivity].
Defined.

Lemma signup_without_secret_witness :
  let h := Accounts.mk_host None "stored-hash" (λ _ _, true)
             "uuid-1" "c0ffee" (λ uid _, uid) 1000 1000 1000 1000 in
  let st := Accounts.mk ∅ ∅ Csrf.csrfTokenStore in
  let r := Accounts.signup_route h (Some "jack@example.com")
             (Some "hunter22") (Some "Jack") st in
  r.1 = Accounts.ServerError
  ∧ (Accounts.signin_route h (Some "jack@example.com") (Some "hunter22")
       r.2).1
    = Accounts.Unauthorized "Invalid credentials".
Proof.
  intros h st r.
  destruct (signup_without_secret h "jack@example.com" "hunter22" "Jack" st)
    as (Herror & _ & _ & _ & _ & Hsignin).
  - vm_compute. reflexivity.
  - vm_compute. reflexivity.
  - vm_compute. reflexivity.
  - vm_compute. reflexivity.
  - vm_compute. reflexivity.
  - vm_compute. reflexivity.
  - vm_compute. reflexivity.
  - split; [exact Herror|]. unfold r.
    rewrite (Hsignin h (Some "hunter22")). reflexivity.
Defined.

(** * Further properties of the durable cache tiers *)

Section CacheTiers.

Import JS Db Janitor Server.

(** X17. Both durable tiers keep one row per name, whatever the case of its
    letters: a second write under a name equal up to case replaces the
    first, a read under any such name returns the last value written,
    names that differ are not affected, and a write to one tier leaves the
    other alone. *)
Theorem cache_upsert (db : Db.t) (u u' : string) :
  toLowerCase u' = toLowerCase u →
  (∀ d1 d2 t1 t2,
     let db2 := setCachedProfile (setCachedProfile db u d1 t1) u' d2 t2 in
     getCachedProfile db2 u = Some (d2, t2)
     ∧ size (ProfileCache db2) = size (ProfileCache (setCachedProfile db u d1 t1))
     ∧ ImageCache db2 = ImageCache db
     ∧ ∀ w, toLowerCase w ≠ toLowerCase u →
            getCachedProfile db2 w = getCachedProfile db w)
  ∧ (∀ b1 b2 t1 t2,
     let db2 := setCachedImage (setCachedImage db u b1 t1) u' b2 t2 in
     getCachedImage db2 u = Some (b2, t2)
     ∧ size (ImageCache db2) = size (ImageCache (setCachedImage db u b1 t1))
     ∧ ProfileCache db2 = ProfileCache db
     ∧ ∀ w, toLowerCase w ≠ toLowerCase u →
            getCachedImage db2 w = getCachedImage db w).
Proof.
  intros Hsame. split.
  - intros d1 d2 t1 t2. cbn zeta.
    unfold getCachedProfile, setCachedProfile.
    cbn [ProfileCache ImageCache]. rewrite Hsame, insert_insert_eq.
    split_and!; [apply lookup_insert_eq| |done|].
    + destruct (ProfileCache db !! toLowerCase u) eqn:E.
      * rewrite !map_size_insert_Some; eauto.
      * rewrite !map_size_insert_None; eauto.
    + intros w Hw. by rewrite lookup_insert_ne.
  - intros b1 b2 t1 t2. cbn zeta.
    unfold getCachedImage, setCachedImage.
    cbn [ProfileCache ImageCache]. rewrite Hsame, insert_insert_eq.
    split_and!; [apply lookup_insert_eq| |done|].
    + destruct (ImageCache db !! toLowerCase u) eqn:E.
      * rewrite !map_size_insert_Some; eauto.
      * rewrite !map_size_insert_None; eauto.
    + intros w Hw. by rewrite lookup_insert_ne.
Qed.

Lemma cleaned_profile_rows (now1 now2 : Z) (db : Db.t) :
  ∀ key row,
    ProfileCache (daily_cleanup now1 now2 db).2 !! key = Some row ↔
    ProfileCache db !! key = Some row ∧ now1 - row.2 ≤ PROFILE_CACHE_TTL.
Proof.
  unfold daily_cleanup, cleanExpiredProfiles, cleanExpiredImages.
  cbn [fst snd ProfileCache ImageCache].
  intros key row. rewrite map_lookup_filter_Some. cbn [snd].
  split; intros [? ?]; split; try done; lia.
Qed.

(** After the daily job no profile row is older than a week and no
    screenshot row older than an hour, counted from the two readings of
    the clock; every row inside these ages is still there, unchanged; and
    the two numbers that the job logs are the numbers of rows that went. *)
Theorem daily_cleanup_bounds_age (now1 now2 : Z) (db : Db.t) :
  let r := daily_cleanup now1 now2 db in
  (∀ key row, ProfileCache r.2 !! key = Some row ↔
      ProfileCache db !! key = Some row
      ∧ now1 - row.2 ≤ PROFILE_CACHE_TTL)
  ∧ (∀ key row, ImageCache r.2 !! key = Some row ↔
      ImageCache db !! key = Some row
      ∧ now2 - row.2 ≤ SCREENSHOT_CACHE_TTL)
  ∧ (r.1.1 + size (ProfileCache r.2) = size (ProfileCache db))%nat
  ∧ (r.1.2 + size (ImageCache r.2) = size (ImageCache db))%nat.
Proof.
  unfold daily_cleanup, cleanExpiredProfiles, cleanExpiredImages.
  cbn [fst snd ProfileCache ImageCache].
  split_and!.
  - intros key row. rewrite map_lookup_filter_Some. cbn [snd].
    split; intros [? ?]; split; try done; lia.
  - intros key row. rewrite map_lookup_filter_Some. cbn [snd].
    split; intros [? ?]; split; try done; lia.
  - pose proof (map_subseteq_size _ _
                  (map_filter_subseteq (λ row : string * (string * Z),
                     ¬ row.2.2 < now1 - PROFILE_CACHE_TTL)
                     (ProfileCache db))).
    lia.
  - pose proof (map_subseteq_size _ _
                  (map_filter_subseteq (λ row : string * (bytes * Z),
                     ¬ row.2.2 < now2 - SCREENSHOT_CACHE_TTL)
                     (ImageCache db))).
    lia.
Qed.

Lemma fetch_profile_answer e clean st st' :
  (fetch_profile e clean st).1 = (fetch_profile e clean st').1
  ∧ (rateLimitStore st = rateLimitStore st' →
     rateLimitStore (fetch_profile e clean st).2
     = rateLimitStore (fetch_profile e clean st').2).
Proof. unfold fetch_profile. repeat case_match; cbn; done. Qed.

Lemma after_miss_answer e req clean st st' :
  rateLimitStore st = rateLimitStore st' →
  (after_miss e req clean st).1 = (after_miss e req clean st').1
  ∧ rateLimitStore (after_miss e req clean st).2
    = rateLimitStore (after_miss e req clean st').2.
Proof.
  intros Hrl. unfold after_miss. rewrite <- Hrl.
  destruct (DISABLE_RATE_LIMIT e).
  - destruct (fetch_profile_answer e clean st st') as [? Hs]. auto.
  - destruct (RateLimit.profileLimiter _ _ _) as [[| |] rl]; cbn; try done.
    destruct (fetch_profile_answer e clean (set_rateLimitStore rl st)
                (set_rateLimitStore rl st')) as [? Hs].
    split; [done|]. by apply Hs.
Qed.

(** X18. The profile route cannot tell whether the daily job has run: when
    its clock is not behind the job's, it gives the same answer and makes
    the same entry in the rate-limit store on the cleaned database as on
    the uncleaned one. The job only removes rows that the route would
    no longer serve. *)
Theorem daily_cleanup_unseen_by_user_route (now1 now2 : Z) e req st :
  now1 ≤ user_now_cache e →
  let cleaned := set_db (daily_cleanup now1 now2 (db st)).2 st in
  (user_route e req cleaned).1 = (user_route e req st).1
  ∧ rateLimitStore (user_route e req cleaned).2
    = rateLimitStore (user_route e req st).2.
Proof.
  intros Hclock cleaned.
  pose proof (cleaned_profile_rows now1 now2 (db st)) as Hrows.
  unfold user_route.
  destruct (negb (xClient_configured e)); [done|].
  destruct (negb (truthy (Some (user_username req)))); [done|].
  destruct (negb (is_handle (cleanUsername (user_username req)))); [done|].
  unfold getCachedProfile.
  set (key := toLowerCase (cleanUsername (user_username req))).
  assert (rateLimitStore cleaned = rateLimitStore st) as Hrl by done.
  pose proof (after_miss_answer e req (cleanUsername (user_username req))
                cleaned st Hrl) as Hmiss.
  destruct (ProfileCache (db st) !! key) as [[data cached_at]|] eqn:E.
  - destruct (decide (user_now_cache e - cached_at < PROFILE_CACHE_TTL))
      as [Hfresh|Hstale].
    + assert (ProfileCache (db cleaned) !! key = Some (data, cached_at))
        as ->.
      { apply Hrows. split; [done|]. cbn. lia. }
      rewrite decide_True by done. done.
    + destruct (ProfileCache (db cleaned) !! key) as [[data' at']|] eqn:E';
        [|done].
      apply Hrows in E' as [E' _]. rewrite E in E'. injection E' as <- <-.
      rewrite decide_False by done. done.
  - destruct (ProfileCache (db cleaned) !! key) as [[data' at']|] eqn:E';
      [|done].
    apply Hrows in E' as [E' _]. rewrite E in E'. discriminate E'.
Qed.

End CacheTiers.

Lemma cache_upsert_witness :
  let db := Db.setCachedProfile
              (Db.setCachedProfile (Db.mk ∅ ∅) "Jack" "first" 1000)
              "JACK" "second" 2000 in
  Db.getCachedProfile db "Jack" = Some ("second", 2000).
Proof.
  intros db.
  destruct (cache_upsert (Db.mk ∅ ∅) "Jack" "JACK") as [Hprofile _].
  - vm_compute. reflexivity.
  - destruct (Hprofile "first" "second" 1000 2000) as (Hget & _).
    exact Hget.
Defined.

Lemma daily_cleanup_unseen_by_user_route_witness :
  let st := Fixtures.server_with_profile "jack" in
  let e := Fixtures.profile_host 700000000 in
  let req := Fixtures.profile_request "jack" in
  (Server.user_route e req
     (Server.set_db (Janitor.daily_cleanup 700000000 700000000
                       (Server.db st)).2 st)).1
  = (Server.user_route e req st).1.
Proof.
  intros st e req.
  destruct (daily_cleanup_unseen_by_user_route 700000000 700000000 e req st)
    as [Hsame _].
  - vm_compute. discriminate.
  - exact Hsame.
Defined.

(** * Properties of the profile update *)

Section MePut.

Import JS Validation Usage Accounts.

(** The row with another name. *)
Lemma set_name_lookup uid n (db : users) row :
  db !! uid = Some row →
  set_name uid n db !! uid
  = Some (mk_user (email row) n (created_at row)
            (subscription_stripeID row) (subscription_expires row)
            (subscription_status row) (usage_count row)
            (usage_reset_at row)).
Proof. intros Hrow. unfold set_name. by rewrite lookup_alter_eq, Hrow. Qed.



(** X30. With the stored token presented in time, [PUT /me] stores whatever
    name the body holds, trimmed and escaped: it applies neither the
    length limit nor the non-emptiness check of sign-up. *)
Theorem me_put_stores_any_name uid tok value now st row entry :
  uid ≠ "" → tok ≠ "" →
  LRUMap.peek uid (csrfTokenStore st) = Some entry →
  Csrf.token entry = tok →
  now - Csrf.timestamp entry ≤ Csrf.CSRF_TOKEN_EXPIRY →
  Users st !! uid = Some row →
  let r := me_put (Some tok) (Some uid) (Some value) now st in
  ∃ row', r.1 = MeUser (Some row')
          ∧ Users r.2 !! uid = Some row'
          ∧ name row' = escapeHtml (trim value)
          ∧ email row' = email row.
Proof.
  intros Huid Htok Hpeek Hmatch Hage Hrow. cbn zeta. unfold me_put.
  unfold Csrf.csrfProtection. cbn [truthy].
  rewrite !bool_decide_eq_false_2 by done.
  cbn [negb orb default from_option id].
  rewrite (get_present uid entry _ Hpeek).
  rewrite bool_decide_eq_true_2 by congruence. cbn [negb].
  rewrite decide_False by lia.
  cbn [set_csrfTokenStore Users]. unfold findUser. cbn [truthy].
  rewrite bool_decide_eq_false_2 by done. cbn [negb default from_option id].
  rewrite Hrow. cbn [fst snd set_Users Users].
  rewrite (set_name_lookup _ _ _ _ Hrow).
  eexists. split_and!; done.
Qed.

End MePut.

Lemma me_put_stores_any_name_witness :
  let st := Accounts.mk
              {[ "uuid-1" := Usage.mk_user "jack@example.com" "Jack" 0
                               None None None (Some 0) None ]}
              ∅
              (Csrf.issue "uuid-1" "c0ffee" 1000 Csrf.csrfTokenStore) in
  ∃ row', (Accounts.me_put (Some "c0ffee") (Some "uuid-1") (Some "   ")
             2000 st).1 = Accounts.MeUser (Some row')
          ∧ Usage.name row' = "".
Proof.
  intros st.
  destruct (me_put_stores_any_name "uuid-1" "c0ffee" "   " 2000 st
              (Usage.mk_user "jack@example.com" "Jack" 0
                 None None None (Some 0) None)
              (Csrf.mk_entry "c0ffee" 1000))
    as (row' & Hresp & _ & Hname & _).
  - discriminate.
  - discriminate.
  - vm_compute. reflexivity.
  - reflexivity.
  - vm_compute. discriminate.
  - vm_compute. reflexivity.
  - exists row'. split; [exact Hresp|]. rewrite Hname. vm_compute.
    reflexivity.
Defined.

(** * Properties of the disk tier *)

Section DiskTier.

Import JS Disk.

Lemma append_inj_r (s a b : string) : s +:+ a = s +:+ b → a = b.
Proof. induction s as [|c s IH]; cbn; [done|]. intros [= ?]. auto. Qed.

Lemma chars_append (a b : string) : chars (a +:+ b) = chars a ++ chars b.
Proof.
  unfold chars. induction a as [|c a IH]; [done|].
  change (c :: String.list_ascii_of_string (a +:+ b)
          = c :: (String.list_ascii_of_string a
                  ++ String.list_ascii_of_string b)).
  by rewrite IH.
Qed.

Lemma ext_of_cases contentType :
  ext_of contentType = "png" ∨ ext_of contentType = "jpg".
Proof. unfold ext_of. case_match; auto. Qed.

(** X19. What [/images/:id] serves after [cacheImage] has stored a download
    under [id]: the download itself, with the content type of its
    extension, unless the download is stored as [.png] while a [.jpg] of
    the same [id] is on disk. The route looks for [.jpg] first, so in
    that case it keeps serving the older [.jpg]. *)
Theorem cacheImage_then_serve (url id : string) contentType body now
    (disk : files) :
  url ≠ "" → is_image_id id = true →
  let r := cacheImage (Some url) id (FetchOk contentType body) true now
             disk in
  r.1 = Some id
  ∧ (ext_of contentType = "jpg" →
     images_route id r.2 = Image body "image/jpeg")
  ∧ (ext_of contentType = "png" →
     images_route id r.2
     = match disk !! (id +:+ ".jpg") with
       | Some (older, _) => Image older "image/jpeg"
       | None => Image body "image/png"
       end)
  ∧ (∀ other, other ≠ id → images_route other r.2 = images_route other disk).
Proof.
  intros Hurl Hid. cbn zeta. unfold cacheImage. cbn [truthy].
  rewrite bool_decide_eq_false_2 by done. cbn [negb fst snd].
  split_and!; [done| | |].
  - intros ->. unfold images_route. rewrite Hid. cbn [negb].
    by rewrite lookup_insert_eq.
  - intros ->. unfold images_route. rewrite Hid. cbn [negb].
    rewrite lookup_insert_ne.
    + destruct (disk !! (id +:+ ".jpg")) as [[older ?]|]; [done|].
      by rewrite lookup_insert_eq.
    + intros Heq%append_inj_r. discriminate Heq.
  - intros other Hother. unfold images_route.
    destruct (negb (is_image_id other)); [done|].
    assert (∀ e, e = ".jpg" ∨ e = ".png" →
              (<[id +:+ "." +:+ ext_of contentType := (body, now)]> disk)
                !! (other +:+ e) = disk !! (other +:+ e)) as Hsame.
    { intros e He. apply lookup_insert_ne. intros Heq. apply Hother.
      apply (f_equal chars) in Heq.
      rewrite (chars_append id), (chars_append other) in Heq.
      assert (length (chars ("." +:+ ext_of contentType)) = 4%nat
              ∧ length (chars e) = 4%nat) as [Hl1 Hl2].
      { destruct (ext_of_cases contentType) as [-> | ->];
          destruct He as [-> | ->]; done. }
      apply app_inj_2 in Heq as [Heq _]; [|by rewrite Hl1, Hl2].
      rewrite <- (str_chars id), <- (str_chars other). by rewrite Heq. }
    rewrite !Hsame by auto. done.
Qed.

(** X20. The clean-up of the disk tier removes exactly the files modified more
    than a week before [now] and counts them; a download stored by
    [cacheImage] is therefore served for at least a week. *)
Theorem cleanExpiredDiskCache_spec (now : Z) (disk : files) :
  let r := cleanExpiredDiskCache now disk in
  (∀ file entry, r.2 !! file = Some entry ↔
     disk !! file = Some entry
     ∧ now - entry.2 ≤ Server.PROFILE_CACHE_TTL)
  ∧ (r.1 + size r.2 = size disk)%nat
  ∧ (∀ id, (∀ e entry, disk !! (id +:+ e) = Some entry →
                       now - entry.2 ≤ Server.PROFILE_CACHE_TTL) →
           images_route id r.2 = images_route id disk).
Proof.
  cbn zeta. unfold cleanExpiredDiskCache. cbn [fst snd].
  assert (∀ file entry,
            filter (λ file : string * (Db.bytes * Z),
                      ¬ Server.PROFILE_CACHE_TTL < now - file.2.2) disk
              !! file = Some entry ↔
            disk !! file = Some entry
            ∧ now - entry.2 ≤ Server.PROFILE_CACHE_TTL) as Hrows.
  { intros file entry. rewrite map_lookup_filter_Some. cbn [snd].
    split; intros [? ?]; split; try done; lia. }
  split_and!; [done| |].
  - pose proof (map_subseteq_size _ _
                  (map_filter_subseteq (λ file : string * (Db.bytes * Z),
                     ¬ Server.PROFILE_CACHE_TTL < now - file.2.2) disk)).
    lia.
  - intros id Hyoung.
    assert (∀ e, filter (λ file : string * (Db.bytes * Z),
                      ¬ Server.PROFILE_CACHE_TTL < now - file.2.2) disk
                   !! (id +:+ e) = disk !! (id +:+ e)) as Hsame.
    { intros e. destruct (disk !! (id +:+ e)) as [entry|] eqn:E.
      - apply Hrows. split; [done|]. by eapply Hyoung.
      - apply eq_None_not_Some. intros [entry Hentry].
        apply Hrows in Hentry as [Hentry _]. congruence. }
    unfold images_route. by rewrite !Hsame.
Qed.

End DiskTier.

Lemma cacheImage_then_serve_witness :
  let disk : Disk.files := {[ "jack_avatar.jpg" := ([Byte.x01], 1000) ]} in
  let r := Disk.cacheImage (Some "https://pbs.twimg.com/a.png") "jack_avatar"
             (Disk.FetchOk (Some "image/png") [Byte.x02]) true 2000 disk in
  Disk.images_route "jack_avatar" r.2 = Disk.Image [Byte.x01] "image/jpeg".
Proof.
  intros disk r.
  destruct (cacheImage_then_serve "https://pbs.twimg.com/a.png" "jack_avatar"
              (Some "image/png") [Byte.x02] 2000 disk)
    as (_ & _ & Hpng & _).
  - discriminate.
  - vm_compute. reflexivity.
  - unfold r. rewrite Hpng; [|vm_compute; reflexivity].
    vm_compute. reflexivity.
Defined.

Lemma cleanExpiredDiskCache_spec_witness :
  let disk : Disk.files := {[ "jack_avatar.jpg" := ([Byte.x01], 1000) ]} in
  Disk.images_route "jack_avatar" (Disk.cleanExpiredDiskCache 5000 disk).2
  = Disk.Image [Byte.x01] "image/jpeg".
Proof.
  intros disk.
  destruct (cleanExpiredDiskCache_spec 5000 disk) as (_ & _ & Hserved).
  rewrite (Hserved "jack_avatar").
  - vm_compute. reflexivity.
  - intros e entry Hentry. unfold disk in Hentry.
    apply lookup_singleton_Some in Hentry as [_ <-]. vm_compute.
    discriminate.
Defined.
